(** * SnuPL abstract syntax tree: type checking and lowering to three-address code

    A shallow embedding of [snuplc/src/ast.cpp].  Every C++ method becomes a
    Rocq definition that keeps the method's name, placed in a module that
    carries the name of its class ([CAstBinaryOp.TypeCheck] for
    [CAstBinaryOp::TypeCheck]).  Virtual dispatch on the children of a node is
    rendered by three recursive functions on the syntax tree ([GetType],
    [TypeCheck], [ToTac] with its jumping-code variant [ToTacCond]) that hand the
    children's results to the per-class definitions.

    Effects are explicit:
    - the type checker writes its diagnostic through the out-parameters
      [CToken *t] and [string *msg]; they form the state [Diag];
    - the lowering appends to a [CCodeBlock] and draws fresh temporaries and
      labels from it; the code block is the state of the lowering;
    - a failed [assert] or a dereferenced null pointer aborts the compiler;
      this is the [None] of the state-and-failure monad [SE]. *)

From Stdlib Require Import ZArith List String Bool Arith Lia.
Import ListNotations.
Local Open Scope string_scope.
Local Open Scope list_scope.
Set Warnings "-register-all".

(** ** A state monad with failure *)

Definition SE (S A : Type) : Type := S -> option (A * S).

Definition ret {S A : Type} (a : A) : SE S A := fun s => Some (a, s).

Definition bind {S A B : Type} (m : SE S A) (k : A -> SE S B) : SE S B :=
  fun s => match m s with
           | Some (a, s') => k a s'
           | None => None
           end.

(** An [assert] that does not hold, or a null pointer that is dereferenced. *)
Definition crash {S A : Type} : SE S A := fun _ => None.

(** Runs a pure computation that may abort. *)
Definition lift {S A : Type} (o : option A) : SE S A :=
  fun s => match o with
           | Some a => Some (a, s)
           | None => None
           end.

Declare Scope se_scope.
Delimit Scope se_scope with se.
Notation "x <- m ;; k" := (bind m (fun x => k))
  (at level 61, m at next level, right associativity) : se_scope.
Notation "m ;;; k" := (bind m (fun _ => k))
  (at level 61, right associativity) : se_scope.
Local Open Scope se_scope.

(** ** Type descriptors *)

(** Modelled from the spec: the type descriptor registry ([type.h],
    [type.cpp]) is not part of the sources.  The spec gives the scalar types
    integer, boolean and character, a distinguished null type, pointer-to-T
    and array-of-T.  A pointer built from a null base ([GetPointer(NULL)]) has
    no base type. *)
Inductive CType : Type :=
| TNull
| TInt
| TBool
| TChar
| TPointer (base : option CType)
| TArray (nelem : Z) (inner : CType).

(** A [const CType*]: [None] is the C++ null pointer. *)
Definition CTypeP : Type := option CType.

Module CTypeManager.
(** Modelled from the spec: the singleton scalar types and the pointer
    constructor of the registry. *)
Definition GetNull : CType := TNull.
Definition GetInt : CType := TInt.
Definition GetBool : CType := TBool.
Definition GetChar : CType := TChar.
Definition GetPointer (basetype : CTypeP) : CType := TPointer basetype.
End CTypeManager.

(** Modelled from the spec: [IsNull], [IsScalar], [IsPointer], [IsArray] of
    the registry.  A pointer is classified scalar (the source says so in
    [CAstBinaryOp::TypeCheck]); the null type and arrays are not. *)
Definition IsNull (t : CType) : bool :=
  match t with TNull => true | _ => false end.

Definition IsScalar (t : CType) : bool :=
  match t with
  | TInt | TBool | TChar | TPointer _ => true
  | TNull | TArray _ _ => false
  end.

Definition IsPointer (t : CType) : bool :=
  match t with TPointer _ => true | _ => false end.

Definition IsArray (t : CType) : bool :=
  match t with TArray _ _ => true | _ => false end.

(** Modelled from the spec: [Match] is structural equality of descriptors. *)
Fixpoint Match (a b : CType) {struct a} : bool :=
  match a, b with
  | TNull, TNull => true
  | TInt, TInt => true
  | TBool, TBool => true
  | TChar, TChar => true
  | TPointer oa, TPointer ob =>
      match oa, ob with
      | Some x, Some y => Match x y
      | None, None => true
      | _, _ => false
      end
  | TArray n x, TArray m y => Z.eqb n m && Match x y
  | _, _ => false
  end.

(** Modelled from the spec: [CPointerType::GetBaseType]; the cast
    [dynamic_cast<const CPointerType*>] of a non-pointer is null and the call
    on it aborts. *)
Definition PointerBaseType (t : CType) : option CTypeP :=
  match t with TPointer b => Some b | _ => None end.

(** Modelled from the spec: [CArrayType::GetNDim], the number of nested array
    levels ("an array with a dimension count"). *)
Fixpoint GetNDim (t : CType) : nat :=
  match t with
  | TArray _ inner => S (GetNDim inner)
  | _ => 0
  end.

(** Modelled from the spec: [CArrayType::GetInnerType], the type left after
    one indexing step; not defined on a non-array. *)
Definition GetInnerType (t : CType) : option CType :=
  match t with TArray _ inner => Some inner | _ => None end.

(** Modelled from the spec: [CArrayType::GetBaseType], the element type below
    all array levels. *)
Fixpoint GetBaseType (t : CType) : CType :=
  match t with
  | TArray _ inner => GetBaseType inner
  | _ => t
  end.

(** ** Tokens and symbols *)

(** Modelled from the spec: the scanner's token ([scanner.h]) is not part of
    the sources; a node carries it as its source location. *)
Record CToken : Type := mkToken {
  tok_type : nat;
  tok_value : string;
  tok_line : nat;
  tok_char : nat
}.

(** The default-constructed [CToken t;]. *)
Definition CToken_default : CToken := mkToken 0 "" 0 0.

Inductive ESymbolType : Type := stGlobal | stLocal | stParam | stProcedure.

(** Modelled from the spec: a symbol ([symtab.h]) has a name, a storage
    class and a type; a procedure symbol ([CSymProc]) also has the ordered
    types of its parameters, and its data type is its return type. *)
Record CSymbol : Type := mkSymbol {
  GetName : string;
  GetSymbolType : ESymbolType;
  GetDataType : CType;
  GetParams : list CType
}.

(** [dynamic_cast<const CSymProc*>]: null unless the symbol is a procedure. *)
Definition as_CSymProc (s : option CSymbol) : option CSymbol :=
  match s with
  | Some sym => match GetSymbolType sym with
                | stProcedure => Some sym
                | _ => None
                end
  | None => None
  end.

Definition GetNParams (proc : CSymbol) : nat := List.length (GetParams proc).

(** ** Operations *)

(** The operations of [ir.h] that the syntax tree and the lowering use. *)
Inductive EOperation : Type :=
| opAdd | opSub | opMul | opDiv | opAnd | opOr
| opNeg | opPos | opNot
| opEqual | opNotEqual | opLessThan | opLessEqual | opBiggerThan | opBiggerEqual
| opAssign | opAddress | opDeref | opCast
| opGoto | opCall | opReturn | opParam | opLabel | opNop.

(** Modelled from the spec: [IsRelOp] of [ir.h], the six relational
    operations. *)
Definition IsRelOp (oper : EOperation) : bool :=
  match oper with
  | opEqual | opNotEqual | opLessThan | opLessEqual
  | opBiggerThan | opBiggerEqual => true
  | _ => false
  end.

(** ** Abstract syntax of expressions *)

(** The expression classes of [ast.h].  A [CAstArrayDesignator] is the sealed
    designator ([IndicesComplete] was called by the parser). The value of a
    constant is a [long long]. *)
Inductive CAstExpression : Type :=
| BinaryOp (t : CToken) (oper : EOperation) (l r : CAstExpression)
| UnaryOp (t : CToken) (oper : EOperation) (e : CAstExpression)
| SpecialOp (t : CToken) (oper : EOperation) (e : CAstExpression)
            (type : CTypeP)
| FunctionCall (t : CToken) (symbol : CSymbol) (arg : list CAstExpression)
| Designator (t : CToken) (symbol : CSymbol)
| ArrayDesignator (t : CToken) (symbol : CSymbol) (idx : list CAstExpression)
| Constant (t : CToken) (type : CTypeP) (value : Z)
| StringConstant (t : CToken) (type : CTypeP) (value : string)
                 (sym : CSymbol).

Definition GetToken (e : CAstExpression) : CToken :=
  match e with
  | BinaryOp t _ _ _ | UnaryOp t _ _ | SpecialOp t _ _ _
  | FunctionCall t _ _ | Designator t _ | ArrayDesignator t _ _
  | Constant t _ _ | StringConstant t _ _ _ => t
  end.

(** [dynamic_cast<CAstConstant*>(e) != NULL]. *)
Definition is_CAstConstant (e : CAstExpression) : bool :=
  match e with Constant _ _ _ => true | _ => false end.



(** [dynamic_cast<CAstConstant*>(e)], with the [GetValue()] of the constant
    when the cast succeeds. *)
Definition as_CAstConstant (e : CAstExpression) : option Z :=
  match e with Constant _ _ value => Some value | _ => None end.

(** ** Diagnostics of the type checker *)

(** What the source writes into its [ostringstream]: one item per [<<]. A
    type is kept as the descriptor that is printed. *)
Inductive MsgItem : Type :=
| Str (s : string)
| Typ (t : CType)
| Num (n : Z)
| Endl.

Definition Message : Type := list MsgItem.

(** [if (ty) out << ty; else out << "<INVALID>";] *)
Definition show_type (ty : CTypeP) : MsgItem :=
  match ty with
  | Some t => Typ t
  | None => Str "<INVALID>"
  end.

(** The contents of the out-parameters [*t] and [*msg]. *)
Record Diag : Type := mkDiag {
  d_token : CToken;
  d_msg : Message
}.

(** The monad of [TypeCheck]: it threads the out-parameters and can abort. *)
Definition TC (A : Type) : Type := SE Diag A.

(** [if (t) *t = tok; if (msg) *msg = m; return false;] with both pointers
    given. *)
Definition report (tok : CToken) (m : Message) : TC bool :=
  fun _ => Some (false, mkDiag tok m).

(** ** Three-address code *)

Record CTacLabel : Type := mkLabel {
  lbl_id : nat;
  lbl_hint : string
}.

(** Modelled from the spec: the symbol of a temporary ([ir.h] is not part of
    the sources): compiler-generated, typed and numbered. *)
Record CTacTempSym : Type := mkTemp {
  tmp_id : nat;
  tmp_type : CType
}.

(** Modelled from the spec: the address variants Name, Constant, Temporary,
    Reference (a temporary that holds a computed address, tagged with the
    symbol it indirects) and Label. *)
Inductive CTacAddr : Type :=
| CTacName (symbol : CSymbol)
| CTacConst (value : Z)
| CTacTemp (tmp : CTacTempSym)
| CTacReference (tmp : CTacTempSym) (deref : CSymbol)
| CTacLabelRef (l : CTacLabel).

(** [new CTacInstr(op, dst, src1, src2)] with null for an operand that is not
    given, and a label placed in the stream by [AddInstr(label)]. *)
Inductive CTacInstr : Type :=
| Instr (op : EOperation) (dst src1 src2 : option CTacAddr)
| Label (l : CTacLabel).

(** Modelled from the spec: the code block ([ir.h], [ir.cpp]): the symbol
    table of its owner, the counters of temporaries and labels, and the
    instruction stream. *)
Record CCodeBlock : Type := mkCodeBlock {
  cb_symtab : list (string * CSymbol);
  cb_temp : nat;
  cb_label : nat;
  cb_ops : list CTacInstr
}.

(** The monad of the lowering. *)
Definition M (A : Type) : Type := SE CCodeBlock A.

Module CCodeBlockOps.
(** Modelled from the spec: [CreateTemp] hands out a fresh numbered
    temporary of the given type. *)
Definition CreateTemp (type : CType) : M CTacTempSym :=
  fun cb => Some (mkTemp (cb_temp cb) type,
                  mkCodeBlock (cb_symtab cb) (S (cb_temp cb)) (cb_label cb)
                              (cb_ops cb)).

(** Modelled from the spec: [CreateLabel] hands out a fresh numbered label
    that may carry a hint. *)
Definition CreateLabel (hint : string) : M CTacLabel :=
  fun cb => Some (mkLabel (cb_label cb) hint,
                  mkCodeBlock (cb_symtab cb) (cb_temp cb) (S (cb_label cb))
                              (cb_ops cb)).

(** Modelled from the spec: [AddInstr] appends to the instruction stream. *)
Definition AddInstr (i : CTacInstr) : M unit :=
  fun cb => Some (tt,
                  mkCodeBlock (cb_symtab cb) (cb_temp cb) (cb_label cb)
                              (cb_ops cb ++ [i])).

Fixpoint lookup (name : string) (st : list (string * CSymbol))
  : option CSymbol :=
  match st with
  | [] => None
  | (n, s) :: st' => if String.eqb n name then Some s else lookup name st'
  end.

(** Modelled from the spec: [cb->GetOwner()->GetSymbolTable()->FindSymbol]:
    lookup by name, null when the name is not bound. *)
Definition FindSymbol (name : string) : M (option CSymbol) :=
  fun cb => Some (lookup name (cb_symtab cb), cb).
End CCodeBlockOps.
Import CCodeBlockOps.

(** ** The classes of the syntax tree

    A child node is seen through its virtual methods: where a method calls
    [child->TypeCheck(t, msg)], [child->GetType()] or [child->ToTac(cb)], the
    definition takes that call as an argument. *)

(** What a node's [TypeCheck] asks of a child. *)
Record Checked : Type := mkChecked {
  c_token : CToken;
  c_TypeCheck : TC bool;
  c_GetType : option CTypeP
}.

(** What a node's lowering asks of a child: its two [ToTac] methods, its
    [GetType], and the value it holds when it is a [CAstConstant]. *)
Record Lowered : Type := mkLowered {
  l_ToTac : M CTacAddr;
  l_ToTacCond : CTacLabel -> CTacLabel -> M (option CTacAddr);
  l_GetType : option CTypeP;
  l_number : option Z
}.

Definition goto (l : CTacLabel) : CTacInstr :=
  Instr opGoto (Some (CTacLabelRef l)) None None.

(** The range of a [long long] and its wrap-around. *)
Definition wrap_ll (z : Z) : Z := (z + 2 ^ 63) mod 2 ^ 64 - 2 ^ 63.

Module CAstBinaryOp.
Definition GetType (oper : EOperation) : CTypeP :=
  match oper with
  | opAdd | opSub | opMul | opDiv => Some CTypeManager.GetInt
  | opAnd | opOr | opEqual | opNotEqual
  | opLessThan | opLessEqual | opBiggerThan | opBiggerEqual =>
      Some CTypeManager.GetBool
  | _ => None
  end.

Definition soper : string := "this".

Definition TypeCheck (token : CToken) (oper : EOperation)
           (lhs rhs : Checked) : TC bool :=
  okl <- c_TypeCheck lhs ;;
  if negb okl then ret false else
  okr <- c_TypeCheck rhs ;;
  if negb okr then ret false else
  lt <- lift (c_GetType lhs) ;;
  rt <- lift (c_GetType rhs) ;;
  match lt with
  | None =>
      report (c_token lhs)
        [Str "the type of left operand is not scalar type."; Endl;
         Str "left operand : "; show_type None; Endl]
  | Some lt =>
    if negb (IsScalar lt) then
      report (c_token lhs)
        [Str "the type of left operand is not scalar type."; Endl;
         Str "left operand : "; show_type (Some lt); Endl]
    else
    match rt with
    | None =>
        report (c_token rhs)
          [Str "the type of right operand is not scalar type."; Endl;
           Str "right operand : "; show_type None; Endl]
    | Some rt =>
      if negb (IsScalar rt) then
        report (c_token rhs)
          [Str "the type of right operand is not scalar type."; Endl;
           Str "right operand : "; show_type (Some rt); Endl]
      else if IsPointer lt then
        report (c_token lhs)
          [Str "the type of left operand cannot be a pointer type"]
      else if IsPointer rt then
        report (c_token rhs)
          [Str "the type of right operand cannot be a pointer type"]
      else if negb (Match lt rt) then
        report token
          [Str "the type of left operand does not match with the type of right operand.";
           Endl;
           Str "left operand : "; Typ lt; Endl;
           Str "right operand : "; Typ rt; Endl]
      else
      match oper with
      | opAdd | opSub | opMul | opDiv =>
          if negb (Match lt CTypeManager.GetInt) then
            report (c_token lhs)
              [Str "the type of operands should be an integer type in ";
               Str soper; Str " operation."; Endl;
               Str "left operand : "; Typ lt; Endl;
               Str "right operand : "; Typ rt; Endl]
          else ret true
      | opAnd | opOr =>
          if negb (Match lt CTypeManager.GetBool) then
            report (c_token lhs)
              [Str "the type of operands should be an boolean type in ";
               Str soper; Str " operation."; Endl;
               Str "left operand : "; Typ lt; Endl;
               Str "right operand : "; Typ rt; Endl]
          else ret true
      | opEqual | opNotEqual => ret true
      | opLessThan | opLessEqual | opBiggerThan | opBiggerEqual =>
          if Match lt CTypeManager.GetBool then
            report (c_token lhs)
              [Str "the type of operands cannot be boolean type in ";
               Str soper; Str " operation."; Endl;
               Str "left operand : "; Typ lt; Endl;
               Str "right operand : "; Typ rt; Endl]
          else ret true
      | _ =>
          report (c_token lhs) [Str "the operation is not valid."; Endl]
      end
    end
  end.

(** Jumping code.  The two operands of the relational instruction are the
    arguments of one constructor call, and C++ leaves the order of their
    evaluation open; they are lowered left first here. *)
Definition ToTacCond (oper : EOperation) (left right : Lowered)
           (ltrue lfalse : CTacLabel) : M (option CTacAddr) :=
  nextCond <- CreateLabel "" ;;
  if IsRelOp oper then
    leftTac <- l_ToTac left ;;
    rightTac <- l_ToTac right ;;
    AddInstr (Instr oper (Some (CTacLabelRef ltrue))
                    (Some leftTac) (Some rightTac)) ;;;
    AddInstr (goto lfalse) ;;;
    ret None
  else
    (* short-circuit expression *)
    match oper with
    | opAnd =>
        l_ToTacCond left nextCond lfalse ;;;
        AddInstr (Label nextCond) ;;;
        l_ToTacCond right ltrue lfalse ;;;
        ret None
    | _ =>
        l_ToTacCond left ltrue nextCond ;;;
        AddInstr (Label nextCond) ;;;
        l_ToTacCond right ltrue lfalse ;;;
        ret None
    end.

Definition ToTac (oper : EOperation) (left right : Lowered)
  : M CTacAddr :=
  match oper with
  | opAdd | opSub | opMul | opDiv =>
      leftTac <- l_ToTac left ;;
      rightTac <- l_ToTac right ;;
      val <- CreateTemp CTypeManager.GetInt ;;
      AddInstr (Instr oper (Some (CTacTemp val))
                      (Some leftTac) (Some rightTac)) ;;;
      ret (CTacTemp val)
  | _ =>
      ltrue <- CreateLabel "" ;;
      lfalse <- CreateLabel "" ;;
      lend <- CreateLabel "" ;;
      ToTacCond oper left right ltrue lfalse ;;;
      val <- CreateTemp CTypeManager.GetBool ;;
      AddInstr (Label ltrue) ;;;
      AddInstr (Instr opAssign (Some (CTacTemp val))
                      (Some (CTacConst 1)) None) ;;;
      AddInstr (goto lend) ;;;
      AddInstr (Label lfalse) ;;;
      AddInstr (Instr opAssign (Some (CTacTemp val))
                      (Some (CTacConst 0)) None) ;;;
      AddInstr (Label lend) ;;;
      ret (CTacTemp val)
  end.
End CAstBinaryOp.

Module CAstUnaryOp.
Definition GetType (oper : EOperation) : CTypeP :=
  match oper with
  | opNeg | opPos => Some CTypeManager.GetInt
  | opNot => Some CTypeManager.GetBool
  | _ => None
  end.

Definition soper : string := "this".

(** [number] tells whether [dynamic_cast<CAstConstant*>(operand)] is not
    null. *)
Definition TypeCheck (token : CToken) (oper : EOperation)
           (operand : Checked) (number : bool) : TC bool :=
  ok <- c_TypeCheck operand ;;
  if negb ok then
    (* ignore type checking failure if its node is -2147483648 *)
    match oper with
    | opNeg => if number then ret true else ret false
    | _ => ret false
    end
  else
  match oper with
  | opNeg | opPos =>
      ty <- lift (c_GetType operand) ;;
      match ty with
      | Some t =>
          if negb (Match t CTypeManager.GetInt) then
            report (c_token operand)
              [Str "the type of operand should be an integer type in ";
               Str soper; Str " operation."; Endl;
               Str "operand : "; show_type (Some t); Endl]
          else ret true
      | None =>
          report (c_token operand)
            [Str "the type of operand should be an integer type in ";
             Str soper; Str " operation."; Endl;
             Str "operand : "; show_type None; Endl]
      end
  | opNot =>
      ty <- lift (c_GetType operand) ;;
      match ty with
      | Some t =>
          if negb (Match t CTypeManager.GetBool) then
            report (c_token operand)
              [Str "the type of operand should be a boolean type in ";
               Str soper; Str " operation."; Endl;
               Str "operand : "; show_type (Some t); Endl]
          else ret true
      | None =>
          report (c_token operand)
            [Str "the type of operand should be a boolean type in ";
             Str soper; Str " operation."; Endl;
             Str "operand : "; show_type None; Endl]
      end
  | _ => report token [Str "the operation is not valid."; Endl]
  end.

Definition ToTacCond (oper : EOperation) (operand : Lowered)
           (ltrue lfalse : CTacLabel) : M (option CTacAddr) :=
  match oper with
  | opNot =>
      (* just swaps ltrue and lfalse *)
      l_ToTacCond operand lfalse ltrue ;;;
      ret None
  | _ => crash (* assert(oper == opNot) *)
  end.

Definition ToTac (oper : EOperation) (operand : Lowered) : M CTacAddr :=
  match oper with
  | opPos | opNeg =>
      match l_number operand with
      | None =>
          operandTac <- l_ToTac operand ;;
          retval <- CreateTemp CTypeManager.GetInt ;;
          AddInstr (Instr oper (Some (CTacTemp retval))
                          (Some operandTac) None) ;;;
          ret (CTacTemp retval)
      | Some value =>
          let val := value in
          let val := match oper with
                     | opNeg => wrap_ll (- val)
                     | _ => val
                     end in
          ret (CTacConst val)
      end
  | _ =>
      ltrue <- CreateLabel "" ;;
      lfalse <- CreateLabel "" ;;
      lend <- CreateLabel "" ;;
      ToTacCond oper operand ltrue lfalse ;;;
      retval <- CreateTemp CTypeManager.GetBool ;;
      AddInstr (Label ltrue) ;;;
      AddInstr (Instr opAssign (Some (CTacTemp retval))
                      (Some (CTacConst 1)) None) ;;;
      AddInstr (goto lend) ;;;
      AddInstr (Label lfalse) ;;;
      AddInstr (Instr opAssign (Some (CTacTemp retval))
                      (Some (CTacConst 0)) None) ;;;
      AddInstr (Label lend) ;;;
      ret (CTacTemp retval)
  end.
End CAstUnaryOp.

Module CAstSpecialOp.
(** [operand] is what [GetOperand()->GetType()] gives; for [opDeref] the
    source calls [IsPointer] on it without a null test. *)
Definition GetType (oper : EOperation) (operand : option CTypeP)
           (type : CTypeP) : option CTypeP :=
  match oper with
  | opAddress =>
      match operand with
      | Some ot => Some (Some (CTypeManager.GetPointer ot))
      | None => None
      end
  | opDeref =>
      match operand with
      | Some (Some pt) =>
          if IsPointer pt then PointerBaseType pt else Some None
      | Some None => None (* IsPointer() called on a null pointer *)
      | None => None
      end
  | opCast => Some type
  | _ => Some None
  end.

Definition TypeCheck (oper : EOperation) (operand : Checked) : TC bool :=
  ok <- c_TypeCheck operand ;;
  if negb ok then ret false else
  match oper with
  | opDeref =>
      (* valid only when the operand's type is a pointer type *)
      ty <- lift (c_GetType operand) ;;
      match ty with
      | Some t =>
          if negb (IsPointer t) then
            report (c_token operand)
              [Str "the dereference of non-pointer type (";
               show_type (Some t); Str ") is not allowed."; Endl]
          else ret true
      | None =>
          report (c_token operand)
            [Str "the dereference of non-pointer type (";
             show_type None; Str ") is not allowed."; Endl]
      end
  | _ => ret true
  end.

Definition ToTac (operand : Lowered) : M CTacAddr :=
  src <- l_ToTac operand ;;
  ty <- lift (l_GetType operand) ;;
  ret_ <- CreateTemp (CTypeManager.GetPointer ty) ;;
  AddInstr (Instr opAddress (Some (CTacTemp ret_)) (Some src) None) ;;;
  ret (CTacTemp ret_).

(** Not overridden: [CAstExpression::ToTac(cb, ltrue, lfalse)]. *)
Definition ToTacCond (ltrue lfalse : CTacLabel) : M (option CTacAddr) :=
  ret None.
End CAstSpecialOp.


Module CAstConstant.
Definition TypeCheck (token : CToken) (type : CTypeP) (value : Z)
  : TC bool :=
  match type with
  | None => report token [Str "invalid constant type."]
  | Some ty =>
      if IsNull ty then report token [Str "invalid constant type."]
      else if (value =? Z.shiftl 1 31)%Z then
        (* type check fails if the value is 2147483648; this failure can
           be ignored by CAstUnaryOp *)
        report token [Str "invalid number. ("; Num value; Str ")"; Endl]
      else ret true
  end.

Definition ToTac (value : Z) : M CTacAddr := ret (CTacConst value).

Definition ToTacCond (value : Z) (ltrue lfalse : CTacLabel)
  : M (option CTacAddr) :=
  let cond := value in
  (if negb (cond =? 0)%Z then AddInstr (goto ltrue)
   else AddInstr (goto lfalse)) ;;;
  ret (Some (CTacConst value)).
End CAstConstant.

Module CAstStringConstant.
Definition TypeCheck (token : CToken) (type : CTypeP) : TC bool :=
  match type with
  | None => report token [Str "invalid string constant type."]
  | Some ty =>
      if IsNull ty then report token [Str "invalid string constant type."]
      else ret true
  end.

Definition ToTac (sym : CSymbol) : M CTacAddr := ret (CTacName sym).

Definition ToTacCond (sym : CSymbol) (ltrue lfalse : CTacLabel)
  : M (option CTacAddr) :=
  ret (Some (CTacName sym)).
End CAstStringConstant.

Module CAstDesignator.
(** just returns the symbol's datatype *)
Definition GetType (symbol : CSymbol) : CTypeP := Some (GetDataType symbol).

Definition TypeCheck (token : CToken) (symbol : CSymbol) : TC bool :=
  match GetType symbol with
  | None => report token [Str "invalid designator type."]
  | Some ty =>
      if IsNull ty then report token [Str "invalid designator type."]
      else ret true
  end.

Definition ToTac (symbol : CSymbol) : M CTacAddr := ret (CTacName symbol).

Definition ToTacCond (symbol : CSymbol) (ltrue lfalse : CTacLabel)
  : M (option CTacAddr) :=
  a <- ToTac symbol ;;
  AddInstr (Instr opEqual (Some (CTacLabelRef ltrue))
                  (Some a) (Some (CTacConst 1))) ;;;
  AddInstr (goto lfalse) ;;;
  ret None.
End CAstDesignator.

Module CAstFunctionCall.
Definition GetType (symbol : CSymbol) : CTypeP := Some (GetDataType symbol).

(** [GetArg(index)]: the index is asserted to be in range. *)
Definition GetArg {A : Type} (arg : list A) (index : nat) : option A :=
  nth_error arg index.

(** The loop over the arguments from index [i] on; [rest] holds the
    arguments that are left. *)
Fixpoint check_args (proc : CSymbol) (rest : list Checked) (i : nat)
  : TC bool :=
  match rest with
  | [] => ret true
  | expr :: rest' =>
      paramType <- lift (nth_error (GetParams proc) i) ;;
      ok <- c_TypeCheck expr ;;
      if negb ok then ret false else
      ty <- lift (c_GetType expr) ;;
      match ty with
      | Some et =>
          if negb (Match paramType et) then
            report (c_token expr)
              [Str "the type of parameters does not match with the function/procedure's signature.";
               Endl;
               Str "signature : "; show_type (Some paramType); Endl;
               Str "subroutineCall : "; show_type (Some et); Endl]
          else check_args proc rest' (S i)
      | None =>
          report (c_token expr)
            [Str "the type of parameters does not match with the function/procedure's signature.";
             Endl;
             Str "signature : "; show_type (Some paramType); Endl;
             Str "subroutineCall : "; show_type None; Endl]
      end
  end.

Definition TypeCheck (token : CToken) (symbol : CSymbol)
           (arg : list Checked) : TC bool :=
  let proc := symbol in
  (* check the number of parameters *)
  if negb (List.length arg =? GetNParams proc)%nat then
    report token
      [Str "the number of parameters mismatched."; Endl;
       Str "signature : "; Num (Z.of_nat (GetNParams proc)); Endl;
       Str "subroutineCall : "; Num (Z.of_nat (List.length arg)); Endl]
  else check_args proc arg 0.

(** [for (int i = n - 1; i >= 0; i--)], entered with [i + 1 = n]: the
    iterations [n - 1], ..., [0]. *)
Fixpoint params (arg : list (M CTacAddr)) (n : nat) : M unit :=
  match n with
  | O => ret tt
  | S i =>
      argTac <- (match GetArg arg i with
                 | Some a => a
                 | None => crash
                 end) ;;
      AddInstr (Instr opParam (Some (CTacConst (Z.of_nat i)))
                      (Some argTac) None) ;;;
      params arg i
  end.

Definition ToTac (symbol : CSymbol) (arg : list (M CTacAddr))
  : M CTacAddr :=
  let n := List.length arg in
  params arg n ;;;
  retval <- CreateTemp (GetDataType symbol) ;;
  AddInstr (Instr opCall (Some (CTacTemp retval))
                  (Some (CTacName symbol)) None) ;;;
  ret (CTacTemp retval).

Definition ToTacCond (symbol : CSymbol) (arg : list (M CTacAddr))
           (ltrue lfalse : CTacLabel) : M (option CTacAddr) :=
  retval <- ToTac symbol arg ;;
  AddInstr (Instr opEqual (Some (CTacLabelRef ltrue))
                  (Some retval) (Some (CTacConst 1))) ;;;
  AddInstr (goto lfalse) ;;;
  ret None.
End CAstFunctionCall.

Module CAstArrayDesignator.
(** [GetIndex(index)]: the index is asserted to be in range. *)
Definition GetIndex {A : Type} (idx : list A) (index : nat) : option A :=
  nth_error idx index.

(** The loop over the indices from index [i] on. *)
Fixpoint check_indices (rest : list Checked) : TC bool :=
  match rest with
  | [] => ret true
  | expr :: rest' =>
      ok <- c_TypeCheck expr ;;
      if negb ok then ret false else
      ty <- lift (c_GetType expr) ;;
      match ty with
      | Some et =>
          if negb (Match et CTypeManager.GetInt) then
            report (c_token expr)
              [Str "the element in array should be accessed by integer index.";
               Endl;
               Str "but the expression's type is "; show_type (Some et);
               Endl]
          else check_indices rest'
      | None =>
          report (c_token expr)
            [Str "the element in array should be accessed by integer index.";
             Endl;
             Str "but the expression's type is "; show_type None; Endl]
      end
  end.

Definition TypeCheck (idx : list Checked) : TC bool :=
  let result := true in
  ok <- check_indices idx ;;
  if negb ok then ret false else ret result.

(** The loop [for (i = 0; i < GetNIndices(); i++)] of [GetType]: [n] steps
    are left and [ret] is the type reached so far. *)
Fixpoint index_steps (n : nat) (ret : CType) : CTypeP :=
  match n with
  | O => Some ret
  | S n' =>
      if negb (IsArray ret) then None
      else match GetInnerType ret with
           | Some inner => index_steps n' inner
           | None => None
           end
  end.

Definition GetType (symbol : CSymbol) (nIndices : nat) : option CTypeP :=
  let symbolType := Some (GetDataType symbol) in
  (* implicit dereferencing of a pointer to an array *)
  let symbolType :=
    if IsPointer (GetDataType symbol)
    then match PointerBaseType (GetDataType symbol) with
         | Some b => b
         | None => None
         end
    else symbolType in
  match symbolType with
  | None => None (* symbolType->IsArray() on a null pointer *)
  | Some st =>
      if negb (IsArray st) then Some None
      else if (GetNDim st <? nIndices)%nat then Some None
      else Some (index_steps nIndices st)
  end.

(** [dynamic_cast<const CArrayType*>]. *)
Definition as_CArrayType (t : CTypeP) : option CType :=
  match t with
  | Some (TArray n inner) => Some (TArray n inner)
  | _ => None
  end.

(** The loop [for (int i = 0; i < iterateCount; i++)] of [ToTac], entered
    at index [i] with [n] iterations left and the offset [idx] computed so
    far.  [idExpr] is the lowering of the node [idExpr]. *)
Fixpoint offset_loop (DIM_SYM : option CSymbol) (idExpr : M CTacAddr)
         (index : list (M CTacAddr)) (iterateCount : nat)
         (n i : nat) (idx : option CTacAddr) : M (option CTacAddr) :=
  match n with
  | O => ret idx
  | S n' =>
      (* evaluate index *)
      idx <- (match idx with
              | None =>
                  match GetIndex index i with
                  | Some a => a
                  | None => crash
                  end
              | Some cur =>
                  prev <- (if (i <? List.length index)%nat then
                             match GetIndex index i with
                             | Some a => a
                             | None => crash
                             end
                           else ret (CTacConst 0)) ;;
                  next <- CreateTemp CTypeManager.GetInt ;;
                  AddInstr (Instr opAdd (Some (CTacTemp next))
                                  (Some cur) (Some prev)) ;;;
                  ret (CTacTemp next)
              end) ;;
      if (i =? iterateCount - 1)%nat then ret (Some idx)
      else
        (* call dimension size *)
        DIM <- lift (as_CSymProc DIM_SYM) ;;
        entrySize <- CAstFunctionCall.ToTac DIM
                       [idExpr; CAstConstant.ToTac (Z.of_nat i + 2)] ;;
        (* multiply dimension size *)
        next <- CreateTemp CTypeManager.GetInt ;;
        AddInstr (Instr opMul (Some (CTacTemp next))
                        (Some idx) (Some entrySize)) ;;;
        offset_loop DIM_SYM idExpr index iterateCount n' (S i)
                    (Some (CTacTemp next))
  end.

(** [GetSize] is the size of a type of the registry, which the sources do
    not contain. *)
Definition ToTac (GetSize : CType -> Z) (symbol : CSymbol)
           (index : list (M CTacAddr)) : M CTacAddr :=
  (* prepare DIM and DOFS *)
  DIM_SYM <- FindSymbol "DIM" ;;
  DOFS_SYM <- FindSymbol "DOFS" ;;
  (* get array identifier properties *)
  let id := CTacName symbol in
  let idExpr := CAstDesignator.ToTac symbol in
  p <- (if IsPointer (GetDataType symbol) then
          (* referencing pointer *)
          ret (id, idExpr,
               match PointerBaseType (GetDataType symbol) with
               | Some b => as_CArrayType b
               | None => None
               end)
        else
          ptr <- CreateTemp
                   (CTypeManager.GetPointer (Some (GetDataType symbol))) ;;
          AddInstr (Instr opAddress (Some (CTacTemp ptr)) (Some id) None) ;;;
          ret (CTacTemp ptr,
               CAstSpecialOp.ToTac
                 (mkLowered idExpr (CAstDesignator.ToTacCond symbol)
                            (Some (CAstDesignator.GetType symbol)) None),
               as_CArrayType (Some (GetDataType symbol)))) ;;
  let '(id, idExpr, dataType) := p in
  dataType <- lift dataType ;;
  let dataSize := GetSize (GetBaseType dataType) in
  let iterateCount := GetNDim dataType in
  idx <- offset_loop DIM_SYM idExpr index iterateCount iterateCount 0 None ;;
  (* multiply data size *)
  tmp <- CreateTemp CTypeManager.GetInt ;;
  AddInstr (Instr opMul (Some (CTacTemp tmp)) idx
                  (Some (CTacConst dataSize))) ;;;
  let idx := CTacTemp tmp in
  (* calculate array offset *)
  DOFS <- lift (as_CSymProc DOFS_SYM) ;;
  ofs <- CAstFunctionCall.ToTac DOFS [idExpr] ;;
  tmp <- CreateTemp CTypeManager.GetInt ;;
  AddInstr (Instr opAdd (Some (CTacTemp tmp)) (Some idx) (Some ofs)) ;;;
  let idx := CTacTemp tmp in
  tmp <- CreateTemp CTypeManager.GetInt ;;
  AddInstr (Instr opAdd (Some (CTacTemp tmp)) (Some id) (Some idx)) ;;;
  ret (CTacReference tmp symbol).

Definition ToTacCond (GetSize : CType -> Z) (symbol : CSymbol)
           (index : list (M CTacAddr)) (ltrue lfalse : CTacLabel)
  : M (option CTacAddr) :=
  ret_ <- ToTac GetSize symbol index ;;
  AddInstr (Instr opEqual (Some (CTacLabelRef ltrue))
                  (Some ret_) (Some (CTacConst 1))) ;;;
  AddInstr (goto lfalse) ;;;
  ret (Some ret_).
End CAstArrayDesignator.

Module CAstStatAssign.
Definition TypeCheck (lhs rhs : Checked) : TC bool :=
  okl <- c_TypeCheck lhs ;;
  if negb okl then ret false else
  okr <- c_TypeCheck rhs ;;
  if negb okr then ret false else
  (* the type of lhs should not be INVALID or a non-scalar type *)
  lt <- lift (c_GetType lhs) ;;
  match lt with
  | None =>
      report (c_token lhs)
        [Str "invalid variable type."; Endl;
         Str "LHS : "; show_type None; Endl]
  | Some lty =>
    if negb (IsScalar lty) then
      report (c_token lhs)
        [Str "invalid variable type."; Endl;
         Str "LHS : "; show_type (Some lty); Endl]
    else
    (* the type of rhs should not be INVALID or a non-scalar type *)
    rt <- lift (c_GetType rhs) ;;
    match rt with
    | None =>
        report (c_token rhs)
          [Str "invalid value type."; Endl;
           Str "RHS : "; show_type None; Endl]
    | Some rty =>
      if negb (IsScalar rty) then
        report (c_token rhs)
          [Str "invalid value type."; Endl;
           Str "RHS : "; show_type (Some rty); Endl]
      else
      (* the type of lhs matches with the type of rhs *)
      if negb (Match lty rty) then
        report (c_token lhs)
          [Str "assign type mismatch."; Endl;
           Str "LHS : "; Typ lty; Endl;
           Str "RHS : "; Typ rty; Endl]
      else ret true
    end
  end.

Definition ToTac (lhs rhs : M CTacAddr) (next : CTacLabel)
  : M (option CTacAddr) :=
  src <- rhs ;;
  dst <- lhs ;;
  AddInstr (Instr opAssign (Some dst) (Some src) None) ;;;
  AddInstr (goto next) ;;;
  ret None.
End CAstStatAssign.

Module CAstStatCall.
Definition TypeCheck (call : TC bool) : TC bool := call.

(** [for (int i = n - 1; i >= 0; i--)], entered with [i + 1 = n]. *)
Fixpoint params (arg : list (M CTacAddr)) (n : nat) : M unit :=
  match n with
  | O => ret tt
  | S i =>
      argTac <- (match CAstFunctionCall.GetArg arg i with
                 | Some a => a
                 | None => crash
                 end) ;;
      AddInstr (Instr opParam (Some (CTacConst (Z.of_nat i)))
                      (Some argTac) None) ;;;
      params arg i
  end.

(** [symbol] and [arg] are those of the call; the null type of the registry
    is one object, so the comparison of pointers is [IsNull]. *)
Definition ToTac (symbol : CSymbol) (arg : list (M CTacAddr))
           (next : CTacLabel) : M (option CTacAddr) :=
  let n := List.length arg in
  (* build param instructions by getting the TAC of each argument *)
  params arg n ;;;
  (* add call instruction *)
  tmp <- (if negb (IsNull (GetDataType symbol)) then
            t <- CreateTemp (GetDataType symbol) ;; ret (Some (CTacTemp t))
          else ret None) ;;
  AddInstr (Instr opCall tmp (Some (CTacName symbol)) None) ;;;
  AddInstr (goto next) ;;;
  ret None.
End CAstStatCall.

(** ** Dispatch over the syntax tree *)

Fixpoint GetType (e : CAstExpression) : option CTypeP :=
  match e with
  | BinaryOp _ oper _ _ => Some (CAstBinaryOp.GetType oper)
  | UnaryOp _ oper _ => Some (CAstUnaryOp.GetType oper)
  | SpecialOp _ oper operand type =>
      CAstSpecialOp.GetType oper (GetType operand) type
  | FunctionCall _ symbol _ => Some (CAstFunctionCall.GetType symbol)
  | Designator _ symbol => Some (CAstDesignator.GetType symbol)
  | ArrayDesignator _ symbol idx =>
      CAstArrayDesignator.GetType symbol (List.length idx)
  | Constant _ type _ => Some type
  | StringConstant _ type _ _ => Some type
  end.

Fixpoint TypeCheck (e : CAstExpression) : TC bool :=
  match e with
  | BinaryOp t oper l r =>
      CAstBinaryOp.TypeCheck t oper
        (mkChecked (GetToken l) (TypeCheck l) (GetType l))
        (mkChecked (GetToken r) (TypeCheck r) (GetType r))
  | UnaryOp t oper operand =>
      CAstUnaryOp.TypeCheck t oper
        (mkChecked (GetToken operand) (TypeCheck operand) (GetType operand))
        (is_CAstConstant operand)
  | SpecialOp _ oper operand _ =>
      CAstSpecialOp.TypeCheck oper
        (mkChecked (GetToken operand) (TypeCheck operand) (GetType operand))
  | FunctionCall t symbol arg =>
      CAstFunctionCall.TypeCheck t symbol
        (map (fun a => mkChecked (GetToken a) (TypeCheck a) (GetType a)) arg)
  | Designator t symbol => CAstDesignator.TypeCheck t symbol
  | ArrayDesignator _ _ idx =>
      CAstArrayDesignator.TypeCheck
        (map (fun a => mkChecked (GetToken a) (TypeCheck a) (GetType a)) idx)
  | Constant t type value => CAstConstant.TypeCheck t type value
  | StringConstant t type _ _ => CAstStringConstant.TypeCheck t type
  end.

(** A child as its parent's [TypeCheck] sees it. *)
Definition checked (e : CAstExpression) : Checked :=
  mkChecked (GetToken e) (TypeCheck e) (GetType e).

Section Lowering.

(** The size of a type, [CType::GetSize], of the registry. *)
Variable GetSize : CType -> Z.

Fixpoint ToTac (e : CAstExpression) : M CTacAddr :=
  match e with
  | BinaryOp _ oper l r =>
      CAstBinaryOp.ToTac oper
        (mkLowered (ToTac l) (ToTacCond l) (GetType l) (as_CAstConstant l))
        (mkLowered (ToTac r) (ToTacCond r) (GetType r) (as_CAstConstant r))
  | UnaryOp _ oper operand =>
      CAstUnaryOp.ToTac oper
        (mkLowered (ToTac operand) (ToTacCond operand) (GetType operand)
                   (as_CAstConstant operand))
  | SpecialOp _ _ operand _ =>
      CAstSpecialOp.ToTac
        (mkLowered (ToTac operand) (ToTacCond operand) (GetType operand)
                   (as_CAstConstant operand))
  | FunctionCall _ symbol arg =>
      CAstFunctionCall.ToTac symbol (map ToTac arg)
  | Designator _ symbol => CAstDesignator.ToTac symbol
  | ArrayDesignator _ symbol idx =>
      CAstArrayDesignator.ToTac GetSize symbol (map ToTac idx)
  | Constant _ _ value => CAstConstant.ToTac value
  | StringConstant _ _ _ sym => CAstStringConstant.ToTac sym
  end
with ToTacCond (e : CAstExpression) (ltrue lfalse : CTacLabel)
  : M (option CTacAddr) :=
  match e with
  | BinaryOp _ oper l r =>
      CAstBinaryOp.ToTacCond oper
        (mkLowered (ToTac l) (ToTacCond l) (GetType l) (as_CAstConstant l))
        (mkLowered (ToTac r) (ToTacCond r) (GetType r) (as_CAstConstant r))
        ltrue lfalse
  | UnaryOp _ oper operand =>
      CAstUnaryOp.ToTacCond oper
        (mkLowered (ToTac operand) (ToTacCond operand) (GetType operand)
                   (as_CAstConstant operand))
        ltrue lfalse
  | SpecialOp _ _ _ _ => CAstSpecialOp.ToTacCond ltrue lfalse
  | FunctionCall _ symbol arg =>
      CAstFunctionCall.ToTacCond symbol (map ToTac arg) ltrue lfalse
  | Designator _ symbol => CAstDesignator.ToTacCond symbol ltrue lfalse
  | ArrayDesignator _ symbol idx =>
      CAstArrayDesignator.ToTacCond GetSize symbol (map ToTac idx)
                                    ltrue lfalse
  | Constant _ _ value => CAstConstant.ToTacCond value ltrue lfalse
  | StringConstant _ _ _ sym =>
      CAstStringConstant.ToTacCond sym ltrue lfalse
  end.

(** A child as its parent's lowering sees it. *)
Definition lowered (e : CAstExpression) : Lowered :=
  mkLowered (ToTac e) (ToTacCond e) (GetType e) (as_CAstConstant e).

End Lowering.

(** ** The lowering as the specification words it

    Two definitions that follow the specification and not the source; the
    theorems below compare them with the source's loops. *)

Module Spec.

Definition param (i : nat) (a : CTacAddr) : CTacInstr :=
  Instr opParam (Some (CTacConst (Z.of_nat i))) (Some a) None.

(** "emit one [param i, arg_i] per argument", for the arguments in the
    order of the list, each after lowering that argument to a value. *)
Fixpoint push_params (args : list (nat * M CTacAddr)) : M unit :=
  match args with
  | [] => ret tt
  | (i, arg) :: rest =>
      a <- arg ;;
      AddInstr (param i a) ;;;
      push_params rest
  end.

(** The arguments with their indices, "in reverse index order (last
    argument pushed first)". *)
Definition reverse_index_order {A : Type} (arg : list A)
  : list (nat * A) :=
  rev (combine (seq 0 (List.length arg)) arg).

(** "if the callee is a function (non-null return type) allocate a result
    temporary, emit [call], then [goto next]; the result temporary is
    discarded". *)
Definition call_statement (callee : CSymbol) (arg : list (M CTacAddr))
           (next : CTacLabel) : M (option CTacAddr) :=
  push_params (reverse_index_order arg) ;;;
  result <- (if IsNull (GetDataType callee) then ret None
             else t <- CreateTemp (GetDataType callee) ;;
                  ret (Some (CTacTemp t))) ;;
  AddInstr (Instr opCall result (Some (CTacName callee)) None) ;;;
  AddInstr (goto next) ;;;
  ret None.

(** The array's runtime descriptor, "obtained by taking the address of the
    array if it is not already a pointer": the address that holds it, how
    it is passed to an intrinsic, and the array type behind it. *)
Definition descriptor (symbol : CSymbol)
  : M (CTacAddr * M CTacAddr * CType) :=
  match GetDataType symbol with
  | TPointer b =>
      arr <- lift (CAstArrayDesignator.as_CArrayType b) ;;
      ret (CTacName symbol, CAstDesignator.ToTac symbol, arr)
  | ty =>
      ptr <- CreateTemp (CTypeManager.GetPointer (Some ty)) ;;
      AddInstr (Instr opAddress (Some (CTacTemp ptr))
                      (Some (CTacName symbol)) None) ;;;
      arr <- lift (CAstArrayDesignator.as_CArrayType (Some ty)) ;;
      ret (CTacTemp ptr,
           CAstSpecialOp.ToTac
             (mkLowered (CAstDesignator.ToTac symbol)
                        (CAstDesignator.ToTacCond symbol)
                        (Some (Some ty)) None),
           arr)
  end.

(** A call of an intrinsic that was looked up in the symbol table. *)
Definition intrinsic (sym : option CSymbol) (args : list (M CTacAddr))
  : M CTacAddr :=
  proc <- lift (as_CSymProc sym) ;;
  CAstFunctionCall.ToTac proc args.

(** "dimension extent of argument N": [DIM(array, d)]. *)
Definition DIM (dim : option CSymbol) (array : M CTacAddr) (d : nat)
  : M CTacAddr :=
  intrinsic dim [array; CAstConstant.ToTac (Z.of_nat d)].

(** "base data offset": [DOFS(array)]. *)
Definition DOFS (dofs : option CSymbol) (array : M CTacAddr) : M CTacAddr :=
  intrinsic dofs [array].

(** The [d]-th index expression, counted from 1; "index expressions beyond
    the number of supplied indices default to 0". *)
Definition index_or_zero (index : list (M CTacAddr)) (d : nat)
  : M CTacAddr :=
  if (d <=? List.length index)%nat then
    match nth_error index (d - 1) with
    | Some i => i
    | None => crash
    end
  else ret (CTacConst 0).

(** "for each subsequent dimension d: idx = idx*DIM(d) + i_d", for the
    [count] dimensions from [d] on. *)
Fixpoint accumulate (dim : option CSymbol) (array : M CTacAddr)
         (index : list (M CTacAddr)) (d count : nat) (idx : CTacAddr)
  : M CTacAddr :=
  match count with
  | O => ret idx
  | S count' =>
      extent <- DIM dim array d ;;
      scaled <- CreateTemp CTypeManager.GetInt ;;
      AddInstr (Instr opMul (Some (CTacTemp scaled))
                      (Some idx) (Some extent)) ;;;
      i_d <- index_or_zero index d ;;
      sum <- CreateTemp CTypeManager.GetInt ;;
      AddInstr (Instr opAdd (Some (CTacTemp sum))
                      (Some (CTacTemp scaled)) (Some i_d)) ;;;
      accumulate dim array index (S d) count' (CTacTemp sum)
  end.

(** The two lookups by fixed name; then "idx = i1; for each subsequent
    dimension ...; then idx *= elementSize, then idx += DOFS(array), and the
    final element address is base + idx"; the result is a Reference tagged
    with the designator's symbol. *)
Definition element_address (GetSize : CType -> Z) (symbol : CSymbol)
           (index : list (M CTacAddr)) : M CTacAddr :=
  dim <- FindSymbol "DIM" ;;
  dofs <- FindSymbol "DOFS" ;;
  d <- descriptor symbol ;;
  let '(base, array, arr) := d in
  i1 <- (match nth_error index 0 with
         | Some i => i
         | None => crash
         end) ;;
  idx <- accumulate dim array index 2 (GetNDim arr - 1) i1 ;;
  bytes <- CreateTemp CTypeManager.GetInt ;;
  AddInstr (Instr opMul (Some (CTacTemp bytes)) (Some idx)
                  (Some (CTacConst (GetSize (GetBaseType arr))))) ;;;
  ofs <- DOFS dofs array ;;
  offset <- CreateTemp CTypeManager.GetInt ;;
  AddInstr (Instr opAdd (Some (CTacTemp offset))
                  (Some (CTacTemp bytes)) (Some ofs)) ;;;
  address <- CreateTemp CTypeManager.GetInt ;;
  AddInstr (Instr opAdd (Some (CTacTemp address))
                  (Some base) (Some (CTacTemp offset))) ;;;
  ret (CTacReference address symbol).

(** One pushed argument of a call: its index, the argument, the code of its
    value and the address of its value. *)
Record Push : Type := mkPush {
  push_index : nat;
  push_arg : CAstExpression;
  push_code : list CTacInstr;
  push_value : CTacAddr
}.

(** The code of a pushed argument: its value, then its [param]. *)
Definition push_instrs (p : Push) : list CTacInstr :=
  push_code p ++ [param (push_index p) (push_value p)].

End Spec.

(** ** Control flow inside an emitted fragment *)

(** The position at which label [l] is placed in a fragment of code; labels
    are told apart by their number. *)
Fixpoint find_label (l : CTacLabel) (code : list CTacInstr) : option nat :=
  match code with
  | [] => None
  | Label l' :: rest =>
      if (lbl_id l' =? lbl_id l)%nat then Some 0%nat
      else option_map S (find_label l rest)
  | Instr _ _ _ _ :: rest => option_map S (find_label l rest)
  end.

(** Where control continues when a jump to [l] is taken inside a fragment. *)
Inductive Continues : Type :=
| Inside (pc : nat)
| Leaves (l : CTacLabel).

Definition jump (code : list CTacInstr) (l : CTacLabel) : Continues :=
  match find_label l code with
  | Some pc => Inside pc
  | None => Leaves l
  end.

(** The label an instruction may jump to: the destination of a [goto] and
    of a relational instruction. *)
Definition jump_targets (i : CTacInstr) : list CTacLabel :=
  match i with
  | Instr _ (Some (CTacLabelRef l)) _ _ => [l]
  | _ => []
  end.

(** After every instruction but a [goto] control may go on to the next
    one. *)
Definition falls_through (i : CTacInstr) : bool :=
  match i with
  | Instr opGoto _ _ _ => false
  | _ => true
  end.

(** One step of control inside a fragment, from the instruction at [pc]: on
    to the next instruction, or along a jump to a label of the fragment. *)
Inductive flows (code : list CTacInstr) (pc : nat) : nat -> Prop :=
| flows_next (i : CTacInstr) :
    nth_error code pc = Some i ->
    falls_through i = true ->
    flows code pc (S pc)
| flows_jump (i : CTacInstr) (l : CTacLabel) (pc' : nat) :
    nth_error code pc = Some i ->
    In l (jump_targets i) ->
    find_label l code = Some pc' ->
    flows code pc pc'.

(** Zero or more steps. *)
Inductive flows_star (code : list CTacInstr) (pc : nat) : nat -> Prop :=
| flows_here : flows_star code pc pc
| flows_more (pc1 pc2 : nat) :
    flows code pc pc1 -> flows_star code pc1 pc2 -> flows_star code pc pc2.

(** Short circuit in a fragment [code] whose first [n] instructions lower
    the left operand, followed by the label [nextCond] and the code of the
    right operand: a jump to [decided] leaves the fragment; a jump to
    [nextCond] continues at position [n]; and from position [n] on control
    never comes back to an earlier position, so a run that is in the code of
    the left operand has executed no instruction of the right operand. *)
Definition short_circuit (code : list CTacInstr) (n : nat)
           (decided nextCond : CTacLabel) : Prop :=
  jump code decided = Leaves decided /\
  jump code nextCond = Inside n /\
  forall pc pc', (n <= pc)%nat -> flows_star code pc pc' -> (n <= pc')%nat.

(** ** Growth of the code block

    [grows b out cb cb']: the lowering went from [cb] to [cb'] by appending
    instructions and drawing fresh temporaries and labels; every label it
    placed is numbered from [b] on and was drawn from the code block; every
    label it jumps to is one of [out] or such a drawn label. *)
Definition grows (b : nat) (out : list CTacLabel) (cb cb' : CCodeBlock)
  : Prop :=
  cb_symtab cb' = cb_symtab cb /\
  (cb_temp cb <= cb_temp cb')%nat /\
  (cb_label cb <= cb_label cb')%nat /\
  exists code,
    cb_ops cb' = cb_ops cb ++ code /\
    (forall l, In (Label l) code -> (b <= lbl_id l < cb_label cb')%nat) /\
    (forall i l, In i code -> In l (jump_targets i) ->
                 In l out \/ (b <= lbl_id l < cb_label cb')%nat).

(** The labels [ls] were drawn from the code block after number [b]. *)
Definition known (b : nat) (ls : list CTacLabel) (cb : CCodeBlock) : Prop :=
  (b <= cb_label cb)%nat /\
  forall l, In l ls -> (b <= lbl_id l < cb_label cb)%nat.

Definition sound {A : Type} (b : nat) (ls out : list CTacLabel) (m : M A)
  : Prop :=
  forall cb a cb',
    known b ls cb -> m cb = Some (a, cb') -> grows b out cb cb'.

(** What the lowering of a child guarantees: the value form jumps to no
    label but its own, the condition form to its two targets besides. *)
Definition sound_child (c : Lowered) : Prop :=
  (forall b ls, sound b ls [] (l_ToTac c)) /\
  (forall b ls lt lf, sound b ls [lt; lf] (l_ToTacCond c lt lf)).

(** A lowering that returns from every code block. *)
Definition total {A : Type} (m : M A) : Prop := forall cb, m cb <> None.

(** ** Indexing of array types *)

(** The type left after [k] indexing steps. *)
Fixpoint strip (k : nat) (t : CType) : CType :=
  match k, t with
  | S k', TArray _ inner => strip k' inner
  | _, _ => t
  end.

(** The array a designator indexes: the type of its symbol, or what the
    symbol's type points to. *)
Definition indexed_array (symbol : CSymbol) : CTypeP :=
  match GetDataType symbol with
  | TPointer b => b
  | ty => Some ty
  end.

(** ** Sample programs

    The declarations [a : integer[3][4]], [i, j : integer], a boolean
    function [f] and a procedure [p], with the intrinsics [DIM] and [DOFS] in
    the symbol table of the code block. *)
Module Sample.
Definition tok (line : nat) : CToken := mkToken 1 "" line 1.
Definition a : CSymbol :=
  mkSymbol "a" stGlobal (TArray 3 (TArray 4 TInt)) [].
Definition i : CSymbol := mkSymbol "i" stGlobal TInt [].
Definition j : CSymbol := mkSymbol "j" stGlobal TInt [].
Definition b : CSymbol := mkSymbol "b" stGlobal TBool [].
Definition f : CSymbol := mkSymbol "f" stProcedure TBool [].
Definition g : CSymbol := mkSymbol "g" stProcedure TBool [].
Definition h : CSymbol := mkSymbol "h" stProcedure TInt [TInt; TInt].
Definition p : CSymbol := mkSymbol "p" stProcedure TNull [TInt; TInt].
Definition DIM : CSymbol :=
  mkSymbol "DIM" stProcedure TInt [TPointer (Some TNull); TInt].
Definition DOFS : CSymbol :=
  mkSymbol "DOFS" stProcedure TInt [TPointer (Some TNull)].
Definition cb : CCodeBlock :=
  mkCodeBlock [("DIM", DIM); ("DOFS", DOFS)] 0 2 [].
Definition GetSize (t : CType) : Z :=
  match t with
  | TInt => 4
  | TPointer _ => 4
  | _ => 1
  end.
Definition zero : CAstExpression := Constant (tok 1) (Some TInt) 0.
Definition diag : Diag := mkDiag CToken_default [].
(** Two labels drawn from [cb] before the lowering starts. *)
Definition ltrue : CTacLabel := mkLabel 0 "if_true".
Definition lfalse : CTacLabel := mkLabel 1 "if_false".
End Sample.

(** ** Statements and scopes *)

(** Modelled from the spec: [Match] with a null pointer for argument.  The
    source prints [<INVALID>] for the null type after such a [Match] has
    answered [false] ([CAstStatReturn::TypeCheck]). *)
Definition MatchP (a : CType) (b : CTypeP) : bool :=
  match b with
  | Some t => Match a t
  | None => false
  end.

(** The scope a return statement belongs to, seen through its [GetType]:
    [CAstNode::GetType] for a module, the data type of the symbol for a
    procedure. *)
Inductive CAstScopeRef : Type :=
| InModule
| InProcedure (symbol : CSymbol).

Definition CAstScopeRef_GetType (scope : CAstScopeRef) : CType :=
  match scope with
  | InModule => CTypeManager.GetNull
  | InProcedure symbol => GetDataType symbol
  end.

(** The statement classes of [ast.h].  A chain of statements linked by
    [GetNext] is the list of its statements; a call statement holds the
    token, the symbol and the arguments of its [CAstFunctionCall]. *)
Inductive CAstStatement : Type :=
| StatAssign (t : CToken) (lhs rhs : CAstExpression)
| StatCall (t : CToken) (tcall : CToken) (symbol : CSymbol)
           (arg : list CAstExpression)
| StatReturn (t : CToken) (scope : CAstScopeRef)
             (expr : option CAstExpression)
| StatIf (t : CToken) (cond : CAstExpression)
         (ifBody elseBody : list CAstStatement)
| StatWhile (t : CToken) (cond : CAstExpression)
            (body : list CAstStatement).

(** A scope: its statement sequence and the scopes nested in it. *)
Inductive CAstScope : Type :=
| Scope (t : CToken) (name : string) (statseq : list CAstStatement)
        (children : list CAstScope).

(** The loop [while (body) { if (!body->TypeCheck(t, msg)) return false;
    body = body->GetNext(); }] of [CAstStatIf::TypeCheck] and
    [CAstStatWhile::TypeCheck]; [true] when the chain is exhausted. *)
Fixpoint check_chain (body : list (TC bool)) : TC bool :=
  match body with
  | [] => ret true
  | s :: rest =>
      ok <- s ;;
      if negb ok then ret false else check_chain rest
  end.

(** The loop [while (s) { next = cb->CreateLabel(); s->ToTac(cb, next);
    cb->AddInstr(next); s = s->GetNext(); }] of [CAstScope::ToTac],
    [CAstStatIf::ToTac] (twice) and [CAstStatWhile::ToTac]. *)
Fixpoint lower_chain (body : list (CTacLabel -> M (option CTacAddr)))
  : M unit :=
  match body with
  | [] => ret tt
  | s :: rest =>
      next <- CreateLabel "" ;;
      s next ;;;
      AddInstr (Label next) ;;;
      lower_chain rest
  end.

Module CAstStatReturn.
(** [st] is [GetScope()->GetType()], [e] the expression when there is
    one. *)
Definition TypeCheck (token : CToken) (st : CType) (e : option Checked)
  : TC bool :=
  if Match st CTypeManager.GetNull then
    (* if procedure has "return expression" *)
    match e with
    | Some ex =>
        report (c_token ex)
          [Str "procedure should have no return value/expression."; Endl]
    | None => ret true
    end
  else
    (* if function has "return" and no expression right after "return" *)
    match e with
    | None =>
        report token
          [Str "function should have return value/expression."; Endl]
    | Some ex =>
        ok <- c_TypeCheck ex ;;
        if negb ok then ret false else
        (* if return type mismatched *)
        ty <- lift (c_GetType ex) ;;
        if negb (MatchP st ty) then
          report (c_token ex)
            [Str "return type mismatch."; Endl;
             Typ st; Str " type expected, but it returns ";
             show_type ty; Endl]
        else ret true
    end.

Definition GetType (e : option (option CTypeP)) : option CTypeP :=
  match e with
  | Some ty => ty
  | None => Some (Some CTypeManager.GetNull)
  end.

Definition ToTac (e : option (M CTacAddr)) (next : CTacLabel)
  : M (option CTacAddr) :=
  (* if expression exists, set retval to the TAC of the expression *)
  retval <- (match e with
             | Some ex => a <- ex ;; ret (Some a)
             | None => ret None
             end) ;;
  AddInstr (Instr opReturn None retval None) ;;;
  AddInstr (goto next) ;;;
  ret None.
End CAstStatReturn.

Module CAstStatIf.
Definition TypeCheck (cond : Checked) (ifBody elseBody : list (TC bool))
  : TC bool :=
  (* type check for condition expression *)
  ok <- c_TypeCheck cond ;;
  if negb ok then ret false else
  (* check whether its type is boolean type *)
  ty <- lift (c_GetType cond) ;;
  if negb (match ty with
           | Some t => Match t CTypeManager.GetBool
           | None => false
           end) then
    report (c_token cond)
      [Str "condition should be bool type, but "; show_type ty;
       Str " appeared"; Endl]
  else
  (* type check for statements in ifBody (can be empty) *)
  okI <- check_chain ifBody ;;
  if negb okI then ret false else
  (* type check for statements in elseBody (can be empty) *)
  okE <- check_chain elseBody ;;
  if negb okE then ret false else
  ret true.

Definition ToTac (cond : CTacLabel -> CTacLabel -> M (option CTacAddr))
           (ifBody elseBody : list (CTacLabel -> M (option CTacAddr)))
           (next : CTacLabel) : M (option CTacAddr) :=
  nextTrue <- CreateLabel "if_true" ;;
  nextFalse <- CreateLabel "if_false" ;;
  cond nextTrue nextFalse ;;;
  AddInstr (Label nextTrue) ;;;
  lower_chain ifBody ;;;
  AddInstr (goto next) ;;;
  AddInstr (Label nextFalse) ;;;
  lower_chain elseBody ;;;
  AddInstr (goto next) ;;;
  ret None.
End CAstStatIf.

Module CAstStatWhile.
Definition TypeCheck (cond : Checked) (body : list (TC bool)) : TC bool :=
  (* type check for condition expression *)
  ok <- c_TypeCheck cond ;;
  if negb ok then ret false else
  (* check whether condition's type is boolean type *)
  ty <- lift (c_GetType cond) ;;
  if negb (match ty with
           | Some t => Match t CTypeManager.GetBool
           | None => false
           end) then
    report (c_token cond)
      [Str "condition should be bool type, but "; show_type ty;
       Str " appeared"; Endl]
  else
  (* type check for statements in while-body (can be empty) *)
  okB <- check_chain body ;;
  if negb okB then ret false else
  ret true.

Definition ToTac (cond : CTacLabel -> CTacLabel -> M (option CTacAddr))
           (bodyStat : list (CTacLabel -> M (option CTacAddr)))
           (next : CTacLabel) : M (option CTacAddr) :=
  cond_ <- CreateLabel "while_cond" ;;
  body <- CreateLabel "while_body" ;;
  AddInstr (Label cond_) ;;;
  cond body next ;;;
  AddInstr (Label body) ;;;
  lower_chain bodyStat ;;;
  AddInstr (goto cond_) ;;;
  AddInstr (goto next) ;;;
  ret None.
End CAstStatWhile.

Module CAstScope.
(** The two loops of [TypeCheck], [while (result && st)] over the
    statements and [for (i = 0; i < size && result; i++)] over the child
    scopes: [result] is the result so far, [rest] what is left to check.
    No [TypeCheck] throws, so the [catch] of the source is never entered. *)
Fixpoint check_while (result : bool) (rest : list (TC bool)) : TC bool :=
  match rest with
  | [] => ret result
  | st :: rest' =>
      if result then (result' <- st ;; check_while result' rest')
      else ret result
  end.

Definition TypeCheck (statseq children : list (TC bool)) : TC bool :=
  let result := true in
  (* typecheck for all statements *)
  result <- check_while result statseq ;;
  (* typecheck for all child scopes *)
  check_while result children.

(** [CleanupControlFlow] is a method of the code block, which the sources
    do not contain. *)
Definition ToTac (CleanupControlFlow : M unit)
           (statseq : list (CTacLabel -> M (option CTacAddr)))
  : M (option CTacAddr) :=
  lower_chain statseq ;;;
  (* removes redundant labels and goto instructions *)
  CleanupControlFlow ;;;
  ret None.
End CAstScope.

(** Dispatch over statements and scopes. *)
Fixpoint StatTypeCheck (s : CAstStatement) : TC bool :=
  match s with
  | StatAssign _ lhs rhs =>
      CAstStatAssign.TypeCheck (checked lhs) (checked rhs)
  | StatCall _ tcall symbol arg =>
      CAstStatCall.TypeCheck (TypeCheck (FunctionCall tcall symbol arg))
  | StatReturn t scope expr =>
      CAstStatReturn.TypeCheck t (CAstScopeRef_GetType scope)
                               (option_map checked expr)
  | StatIf _ cond ifBody elseBody =>
      CAstStatIf.TypeCheck (checked cond) (map StatTypeCheck ifBody)
                           (map StatTypeCheck elseBody)
  | StatWhile _ cond body =>
      CAstStatWhile.TypeCheck (checked cond) (map StatTypeCheck body)
  end.

Fixpoint ScopeTypeCheck (sc : CAstScope) : TC bool :=
  match sc with
  | Scope _ _ statseq children =>
      CAstScope.TypeCheck (map StatTypeCheck statseq)
                          (map ScopeTypeCheck children)
  end.

Section StatementLowering.

Variable GetSize : CType -> Z.

Fixpoint StatToTac (s : CAstStatement) (next : CTacLabel)
  : M (option CTacAddr) :=
  match s with
  | StatAssign _ lhs rhs =>
      CAstStatAssign.ToTac (ToTac GetSize lhs) (ToTac GetSize rhs) next
  | StatCall _ _ symbol arg =>
      CAstStatCall.ToTac symbol (map (ToTac GetSize) arg) next
  | StatReturn _ _ expr =>
      CAstStatReturn.ToTac (option_map (ToTac GetSize) expr) next
  | StatIf _ cond ifBody elseBody =>
      CAstStatIf.ToTac (ToTacCond GetSize cond) (map StatToTac ifBody)
                       (map StatToTac elseBody) next
  | StatWhile _ cond body =>
      CAstStatWhile.ToTac (ToTacCond GetSize cond) (map StatToTac body) next
  end.

Definition ScopeToTac (CleanupControlFlow : M unit) (sc : CAstScope)
  : M (option CTacAddr) :=
  match sc with
  | Scope _ _ statseq _ =>
      CAstScope.ToTac CleanupControlFlow (map StatToTac statseq)
  end.

End StatementLowering.

(** ** Labels of an emitted fragment *)

(** The numbers of the labels placed in a fragment, in the order of their
    placement. *)
Fixpoint placed_ids (code : list CTacInstr) : list nat :=
  match code with
  | [] => []
  | Label l :: rest => lbl_id l :: placed_ids rest
  | Instr _ _ _ _ :: rest => placed_ids rest
  end.

(** [well_labelled out pending cb0 cb]: since [cb0] the lowering appended
    code to reach [cb]; it left the symbol table alone; the labels it placed
    were drawn from the code block since [cb0] and each is placed once; the
    labels [pending] were drawn since [cb0] and are not placed yet; and every
    jump of the appended code goes to a label of [out], to a pending label
    or to a label placed in the appended code. *)
Definition well_labelled (out pending : list CTacLabel)
           (cb0 cb : CCodeBlock) : Prop :=
  cb_symtab cb = cb_symtab cb0 /\
  (cb_temp cb0 <= cb_temp cb)%nat /\
  (cb_label cb0 <= cb_label cb)%nat /\
  exists code,
    cb_ops cb = cb_ops cb0 ++ code /\
    (forall l, In (Label l) code ->
               (cb_label cb0 <= lbl_id l < cb_label cb)%nat) /\
    NoDup (placed_ids code) /\
    (forall l, In l pending ->
               (cb_label cb0 <= lbl_id l < cb_label cb)%nat /\
               ~ In (lbl_id l) (placed_ids code)) /\
    NoDup (map lbl_id pending) /\
    (forall i l, In i code -> In l (jump_targets i) ->
                 In l out \/ In l pending \/ In (Label l) code).

(** A step of a lowering that takes the pending labels [P] to [P'], and
    appends to the code. *)
Definition hoare {A : Type} (out P : list CTacLabel) (m : M A)
           (P' : list CTacLabel) : Prop :=
  forall cb0 cb a cb',
    well_labelled out P cb0 cb -> m cb = Some (a, cb') ->
    well_labelled out P' cb0 cb' /\
    exists code, cb_ops cb' = cb_ops cb ++ code.

(** A lowering whose code is closed but for the labels [out]: it places
    every other label it jumps to, once. *)
Definition closed {A : Type} (out : list CTacLabel) (m : M A) : Prop :=
  forall cb a cb', m cb = Some (a, cb') -> well_labelled out [] cb cb'.

Definition closed_child (c : Lowered) : Prop :=
  closed [] (l_ToTac c) /\
  forall lt lf, closed [lt; lf] (l_ToTacCond c lt lf).

(** A lowering that only appends to the code. *)
Definition appends {A : Type} (m : M A) : Prop :=
  forall cb a cb',
    m cb = Some (a, cb') -> exists code, cb_ops cb' = cb_ops cb ++ code.

(** A lowering that appends code whose last instruction is [i]. *)
Definition ends_with {A : Type} (i : CTacInstr) (m : M A) : Prop :=
  forall cb a cb',
    m cb = Some (a, cb') ->
    exists code, cb_ops cb' = cb_ops cb ++ code ++ [i].

(** ** Outcomes of the type checker *)

(** A check that does not read the token and the message it is handed: it
    aborts, or answers [true] and leaves them alone, or writes one token and
    one message, the same whatever they held, and the message is not empty. *)
Definition fixed_outcome (m : TC bool) : Prop :=
  (forall d, m d = None) \/
  (forall d, m d = Some (true, d)) \/
  (exists b d', d_msg d' <> [] /\ forall d, m d = Some (b, d')).

(** A check that answers [true]. *)
Definition accepts (m : TC bool) : Prop :=
  exists d d', m d = Some (true, d').

(** A check that answers [false]. *)
Definition rejects (m : TC bool) : Prop :=
  exists d d', m d = Some (false, d').

(** What [CAstBinaryOp::TypeCheck] asks of the type of the operands, once
    they are scalar, not pointers and of one type: the [if] cascade over
    [oper]. *)
Definition operand_rule (oper : EOperation) (lt : CType) : bool :=
  match oper with
  | opAdd | opSub | opMul | opDiv => Match lt CTypeManager.GetInt
  | opAnd | opOr => Match lt CTypeManager.GetBool
  | opEqual | opNotEqual => true
  | opLessThan | opLessEqual | opBiggerThan | opBiggerEqual =>
      negb (Match lt CTypeManager.GetBool)
  | _ => false
  end.

(** What [CAstUnaryOp::TypeCheck] asks of the type of an operand that
    passed: the [switch] over [oper]. *)
Definition unary_rule (oper : EOperation) (ty : CType) : bool :=
  match oper with
  | opNeg | opPos => Match ty CTypeManager.GetInt
  | opNot => Match ty CTypeManager.GetBool
  | _ => false
  end.

(** ** Lowering without abort *)

(** The two intrinsics are declared as procedures in the symbol table of
    the code block. *)
Definition intrinsics (cb : CCodeBlock) : Prop :=
  (exists dim, as_CSymProc (lookup "DIM" (cb_symtab cb)) = Some dim) /\
  (exists dofs, as_CSymProc (lookup "DOFS" (cb_symtab cb)) = Some dofs).

(** A lowering that returns from every code block that declares the
    intrinsics, and leaves the symbol table alone. *)
Definition safe {A : Type} (m : M A) : Prop :=
  forall cb, intrinsics cb ->
             exists a cb', m cb = Some (a, cb') /\
                           cb_symtab cb' = cb_symtab cb.

(** Every array designator of the expression has an index, and its symbol
    is an array or a pointer to an array. *)
Fixpoint arrays_ok (e : CAstExpression) : bool :=
  match e with
  | BinaryOp _ _ l r => arrays_ok l && arrays_ok r
  | UnaryOp _ _ e' => arrays_ok e'
  | SpecialOp _ _ e' _ => arrays_ok e'
  | FunctionCall _ _ arg => forallb arrays_ok arg
  | Designator _ _ => true
  | ArrayDesignator _ symbol idx =>
      negb (List.length idx =? 0)%nat &&
      match indexed_array symbol with
      | Some arr => IsArray arr
      | None => false
      end &&
      forallb arrays_ok idx
  | Constant _ _ _ => true
  | StringConstant _ _ _ _ => true
  end.

Fixpoint stat_arrays_ok (s : CAstStatement) : bool :=
  match s with
  | StatAssign _ lhs rhs => arrays_ok lhs && arrays_ok rhs
  | StatCall _ _ _ arg => forallb arrays_ok arg
  | StatReturn _ _ expr =>
      match expr with
      | Some e => arrays_ok e
      | None => true
      end
  | StatIf _ cond ifBody elseBody =>
      arrays_ok cond && forallb stat_arrays_ok ifBody &&
      forallb stat_arrays_ok elseBody
  | StatWhile _ cond body =>
      arrays_ok cond && forallb stat_arrays_ok body
  end.

(** An expression of boolean type. *)
Definition is_boolean (e : CAstExpression) : Prop :=
  exists ty, GetType e = Some (Some ty) /\
             Match ty CTypeManager.GetBool = true.

(** ** Type checking without abort *)

(** A check that returns, whatever token and message it is handed. *)
Definition answers (m : TC bool) : Prop :=
  forall d, exists b d', m d = Some (b, d').

(** The symbol of every array designator has a type to index: it is no
    pointer without a base type. *)
Fixpoint designators_typed (e : CAstExpression) : bool :=
  match e with
  | BinaryOp _ _ l r => designators_typed l && designators_typed r
  | UnaryOp _ _ e' => designators_typed e'
  | SpecialOp _ _ e' _ => designators_typed e'
  | FunctionCall _ _ arg => forallb designators_typed arg
  | Designator _ _ => true
  | ArrayDesignator _ symbol idx =>
      match indexed_array symbol with
      | Some _ => true
      | None => false
      end &&
      forallb designators_typed idx
  | Constant _ _ _ => true
  | StringConstant _ _ _ _ => true
  end.

Fixpoint stat_designators_typed (s : CAstStatement) : bool :=
  match s with
  | StatAssign _ lhs rhs => designators_typed lhs && designators_typed rhs
  | StatCall _ _ _ arg => forallb designators_typed arg
  | StatReturn _ _ expr =>
      match expr with
      | Some e => designators_typed e
      | None => true
      end
  | StatIf _ cond ifBody elseBody =>
      designators_typed cond && forallb stat_designators_typed ifBody &&
      forallb stat_designators_typed elseBody
  | StatWhile _ cond body =>
      designators_typed cond && forallb stat_designators_typed body
  end.

Fixpoint scope_designators_typed (sc : CAstScope) : bool :=
  match sc with
  | Scope _ _ statseq children =>
      forallb stat_designators_typed statseq &&
      forallb scope_designators_typed children
  end.

(** * Properties *)

(** ** The monad *)

Lemma bind_Some {S A B : Type} (m : SE S A) (k : A -> SE S B) (s : S)
      (r : B * S) :
  bind m k s = Some r <->
  exists a s', m s = Some (a, s') /\ k a s' = Some r.
Proof.
  unfold bind. split.
  - destruct (m s) as [[a s']|]; [eauto | discriminate].
  - intros (a & s' & -> & H). exact H.
Qed.

Lemma bind_run {S A B : Type} (m : SE S A) (k : A -> SE S B) (s s' : S)
      (a : A) :
  m s = Some (a, s') -> bind m k s = k a s'.
Proof. unfold bind. intros ->. reflexivity. Qed.

Lemma bind_crash {S A B : Type} (m : SE S A) (k : A -> SE S B) (s : S) :
  m s = None -> bind m k s = None.
Proof. unfold bind. intros ->. reflexivity. Qed.

Lemma bind_assoc {S A B C : Type} (m : SE S A) (k : A -> SE S B)
      (h : B -> SE S C) (s : S) :
  bind (bind m k) h s = bind m (fun a => bind (k a) h) s.
Proof. unfold bind. destruct (m s) as [[a s']|]; reflexivity. Qed.

Lemma bind_cong {S A B : Type} (m m' : SE S A) (k k' : A -> SE S B)
      (s : S) :
  m s = m' s -> (forall a s', k a s' = k' a s') ->
  bind m k s = bind m' k' s.
Proof.
  intros Hm Hk. unfold bind. rewrite Hm.
  destruct (m' s) as [[a s']|]; auto.
Qed.

Lemma bind_ext_run {S A B : Type} (m : SE S A) (k k' : A -> SE S B)
      (s : S) :
  (forall a s', m s = Some (a, s') -> k a s' = k' a s') ->
  bind m k s = bind m k' s.
Proof.
  intros H. unfold bind. destruct (m s) as [[a s']|]; auto.
Qed.

Lemma bind_ext {S A B : Type} (m : SE S A) (k k' : A -> SE S B) (s : S) :
  (forall a s', k a s' = k' a s') -> bind m k s = bind m k' s.
Proof. intros H. unfold bind. destruct (m s) as [[a s']|]; auto. Qed.

(** ** Type checking *)

(** C4: the integer literal 2147483648 (2^31) alone fails type checking, and
    the diagnostic names the literal; as the immediate operand of a unary
    minus the failure of the operand is suppressed and the unary expression
    type-checks (the diagnostic written by the operand stays in the
    out-parameters). *)
Theorem C4_minimum_integer_literal (t tm : CToken) (d : Diag) :
  TypeCheck (Constant t (Some TInt) 2147483648) d =
    Some (false,
          mkDiag t [Str "invalid number. ("; Num 2147483648; Str ")"; Endl])
  /\
  TypeCheck (UnaryOp tm opNeg (Constant t (Some TInt) 2147483648)) d =
    Some (true,
          mkDiag t [Str "invalid number. ("; Num 2147483648; Str ")"; Endl])
  /\
  GetType (UnaryOp tm opNeg (Constant t (Some TInt) 2147483648)) =
    Some (Some TInt).
Proof. repeat split. Qed.

(** The suppression is tied to unary minus on a constant node: a unary plus
    on the same literal is rejected. *)
Lemma unary_plus_of_2147483648_rejected (t tm : CToken) (d : Diag) :
  exists d',
    TypeCheck (UnaryOp tm opPos (Constant t (Some TInt) 2147483648)) d =
      Some (false, d').
Proof. eexists. reflexivity. Qed.


(** The diagnostics of the "also fails" half of C7, when both sides pass
    their own check: the left-hand side is examined first. *)
Lemma assign_invalid_lhs (lhs rhs : CAstExpression) (d d1 d2 : Diag)
      (lt : CTypeP) :
  TypeCheck lhs d = Some (true, d1) ->
  TypeCheck rhs d1 = Some (true, d2) ->
  GetType lhs = Some lt ->
  match lt with Some ty => IsScalar ty = false | None => True end ->
  CAstStatAssign.TypeCheck (checked lhs) (checked rhs) d =
    Some (false,
          mkDiag (GetToken lhs)
                 [Str "invalid variable type."; Endl;
                  Str "LHS : "; show_type lt; Endl]).
Proof.
  intros Hl Hr Tl Hbad.
  unfold CAstStatAssign.TypeCheck, checked; simpl.
  rewrite (bind_run _ _ _ _ _ Hl); simpl.
  rewrite (bind_run _ _ _ _ _ Hr); simpl.
  rewrite Tl; unfold bind, lift; simpl.
  destruct lt as [ty|]; [rewrite Hbad|]; reflexivity.
Qed.

Lemma assign_invalid_rhs (lhs rhs : CAstExpression) (d d1 d2 : Diag)
      (lt : CType) (rt : CTypeP) :
  TypeCheck lhs d = Some (true, d1) ->
  TypeCheck rhs d1 = Some (true, d2) ->
  GetType lhs = Some (Some lt) ->
  IsScalar lt = true ->
  GetType rhs = Some rt ->
  match rt with Some ty => IsScalar ty = false | None => True end ->
  CAstStatAssign.TypeCheck (checked lhs) (checked rhs) d =
    Some (false,
          mkDiag (GetToken rhs)
                 [Str "invalid value type."; Endl;
                  Str "RHS : "; show_type rt; Endl]).
Proof.
  intros Hl Hr Tl Sl Tr Hbad.
  unfold CAstStatAssign.TypeCheck, checked; simpl.
  rewrite (bind_run _ _ _ _ _ Hl); simpl.
  rewrite (bind_run _ _ _ _ _ Hr); simpl.
  rewrite Tl; unfold bind at 1, lift; simpl. rewrite Sl; simpl.
  rewrite Tr; unfold bind; simpl.
  destruct rt as [ty|]; [rewrite Hbad|]; reflexivity.
Qed.

(** C8: on two operands that type-check to matching scalar types that are
    not pointers, the four ordering operators fail when the type is boolean
    (the token is that of the left operand, the message says that the
    operands cannot be boolean and carries both types), while [=] and [#]
    accept every such pair. *)
Theorem C8_relational_on_boolean (t : CToken) (l r : CAstExpression)
        (d d1 d2 : Diag) :
  TypeCheck l d = Some (true, d1) ->
  TypeCheck r d1 = Some (true, d2) ->
  (forall oper,
      GetType l = Some (Some TBool) ->
      GetType r = Some (Some TBool) ->
      oper = opLessThan \/ oper = opLessEqual \/
      oper = opBiggerThan \/ oper = opBiggerEqual ->
      TypeCheck (BinaryOp t oper l r) d =
        Some (false,
              mkDiag (GetToken l)
                     [Str "the type of operands cannot be boolean type in ";
                      Str "this"; Str " operation."; Endl;
                      Str "left operand : "; Typ TBool; Endl;
                      Str "right operand : "; Typ TBool; Endl]))
  /\
  (forall oper lt rt,
      GetType l = Some (Some lt) ->
      GetType r = Some (Some rt) ->
      IsScalar lt = true -> IsScalar rt = true ->
      IsPointer lt = false -> IsPointer rt = false ->
      Match lt rt = true ->
      oper = opEqual \/ oper = opNotEqual ->
      TypeCheck (BinaryOp t oper l r) d = Some (true, d2)).
Proof.
  intros Hl Hr. split.
  - intros oper Tl Tr Hop.
    simpl. unfold CAstBinaryOp.TypeCheck; simpl.
    rewrite (bind_run _ _ _ _ _ Hl); simpl.
    rewrite (bind_run _ _ _ _ _ Hr); simpl.
    rewrite Tl, Tr. unfold bind, lift; simpl.
    destruct Hop as [-> | [-> | [-> | ->]]]; reflexivity.
  - intros oper lt rt Tl Tr Sl Sr Pl Pr Hm Hop.
    simpl. unfold CAstBinaryOp.TypeCheck; simpl.
    rewrite (bind_run _ _ _ _ _ Hl); simpl.
    rewrite (bind_run _ _ _ _ _ Hr); simpl.
    rewrite Tl, Tr. unfold bind, lift; simpl.
    rewrite Sl, Sr, Pl, Pr, Hm; simpl.
    destruct Hop as [-> | ->]; reflexivity.
Qed.

(** The ordering operators do accept matching operands that are not
    boolean, integers for one. *)
Lemma relational_on_integer (t : CToken) (l r : CAstExpression)
      (d d1 d2 : Diag) (oper : EOperation) :
  TypeCheck l d = Some (true, d1) ->
  TypeCheck r d1 = Some (true, d2) ->
  GetType l = Some (Some TInt) ->
  GetType r = Some (Some TInt) ->
  IsRelOp oper = true ->
  TypeCheck (BinaryOp t oper l r) d = Some (true, d2).
Proof.
  intros Hl Hr Tl Tr Hop.
  simpl. unfold CAstBinaryOp.TypeCheck; simpl.
  rewrite (bind_run _ _ _ _ _ Hl); simpl.
  rewrite (bind_run _ _ _ _ _ Hr); simpl.
  rewrite Tl, Tr. unfold bind, lift; simpl.
  destruct oper; try discriminate; reflexivity.
Qed.

(** *** Array designators (C3) *)

Lemma index_steps_partial (k : nat) (t : CType) :
  (k <= GetNDim t)%nat ->
  CAstArrayDesignator.index_steps k t = Some (strip k t).
Proof.
  revert t. induction k as [|k IH]; intros t Hk.
  - destruct t; reflexivity.
  - destruct t; simpl in Hk; try lia.
    simpl. apply IH. lia.
Qed.

Lemma GetNDim_strip (k : nat) (t : CType) :
  (k <= GetNDim t)%nat -> GetNDim (strip k t) = (GetNDim t - k)%nat.
Proof.
  revert t. induction k as [|k IH]; intros t Hk.
  - destruct t; simpl; lia.
  - destruct t; simpl in Hk; try lia.
    simpl. apply IH. lia.
Qed.

(** The part of C3 that holds, for the computed type: with more indices than
    dimensions the type is [NULL]; so it is when the symbol is no array;
    with at most as many indices as dimensions the type is what is left of
    the array type after that many indexing steps, an array of the remaining
    dimensions when indices are missing. *)
Lemma ArrayDesignator_GetType_spec (t : CToken) (symbol : CSymbol)
      (idx : list CAstExpression) (arr : CType) :
  indexed_array symbol = Some arr ->
  (IsArray arr = false ->
   GetType (ArrayDesignator t symbol idx) = Some None) /\
  (IsArray arr = true -> (GetNDim arr < List.length idx)%nat ->
   GetType (ArrayDesignator t symbol idx) = Some None) /\
  (IsArray arr = true -> (List.length idx <= GetNDim arr)%nat ->
   GetType (ArrayDesignator t symbol idx) =
     Some (Some (strip (List.length idx) arr)) /\
   GetNDim (strip (List.length idx) arr) =
     (GetNDim arr - List.length idx)%nat).
Proof.
  intros Harr.
  assert (E : GetType (ArrayDesignator t symbol idx) =
            if negb (IsArray arr) then Some None
            else if (GetNDim arr <? List.length idx)%nat then Some None
            else Some (CAstArrayDesignator.index_steps (List.length idx) arr)).
  { simpl. unfold CAstArrayDesignator.GetType.
    unfold indexed_array in Harr.
    destruct (GetDataType symbol) eqn:Ed; simpl in *;
      try (inversion Harr; subst arr; reflexivity).
    rewrite Harr. reflexivity. }
  split; [|split].
  - intros Ha. rewrite E, Ha. reflexivity.
  - intros Ha Hk. rewrite E, Ha. simpl.
    apply Nat.ltb_lt in Hk. rewrite Hk. reflexivity.
  - intros Ha Hk. split.
    + rewrite E, Ha. simpl.
      assert (Hlt : (GetNDim arr <? List.length idx)%nat = false)
        by (apply Nat.ltb_ge; lia).
      rewrite Hlt. rewrite index_steps_partial by lia. reflexivity.
    + apply GetNDim_strip. lia.
Qed.

(** The loop of [GetType] on its own: an indexing step on a type that is no
    array gives [NULL]. *)
Lemma index_steps_beyond (k : nat) (t : CType) :
  (GetNDim t < k)%nat -> CAstArrayDesignator.index_steps k t = None.
Proof.
  revert t. induction k as [|k IH]; intros t Hk; [lia|].
  destruct t; simpl; try reflexivity.
  apply IH. simpl in Hk. lia.
Qed.

(** C3, where the source departs from it: [a[0][0][0]] on
    [a : integer[3][4]] has one index too many and its computed type is
    [NULL], yet [CAstArrayDesignator::TypeCheck] returns [true] and writes no
    diagnostic: it looks at the indices only. *)
Theorem C3_overindexed_designator_passes (d : Diag) :
  let e := ArrayDesignator (Sample.tok 2) Sample.a
                           [Sample.zero; Sample.zero; Sample.zero] in
  GetType e = Some None /\ TypeCheck e d = Some (true, d).
Proof. split; reflexivity. Qed.

(** The check that the designator of an array leaves out is the one
    [CAstDesignator::TypeCheck] makes on its own type. *)
Lemma Designator_TypeCheck_rejects_null (t : CToken) (symbol : CSymbol)
      (d : Diag) :
  IsNull (GetDataType symbol) = true ->
  TypeCheck (Designator t symbol) d =
    Some (false, mkDiag t [Str "invalid designator type."]).
Proof.
  intros H. simpl. unfold CAstDesignator.TypeCheck; simpl.
  rewrite H. reflexivity.
Qed.

(** [TypeCheck] of an array designator never consults the computed type: it
    succeeds as soon as every index type-checks to an integer. *)
Lemma ArrayDesignator_TypeCheck_indices_only (t t' : CToken)
      (symbol symbol' : CSymbol) (idx : list CAstExpression) (d : Diag) :
  TypeCheck (ArrayDesignator t symbol idx) d =
  TypeCheck (ArrayDesignator t' symbol' idx) d.
Proof. reflexivity. Qed.

(** An assignment to the over-indexed designator is rejected by the
    assignment, which asks for a type on its left-hand side ... *)
Lemma overindexed_rejected_by_assignment (d : Diag) :
  let e := ArrayDesignator (Sample.tok 2) Sample.a
                           [Sample.zero; Sample.zero; Sample.zero] in
  CAstStatAssign.TypeCheck (checked e) (checked Sample.zero) d =
    Some (false,
          mkDiag (Sample.tok 2)
                 [Str "invalid variable type."; Endl;
                  Str "LHS : "; Str "<INVALID>"; Endl]).
Proof. reflexivity. Qed.

(** ... but under an address-of nothing rejects it. *)
Lemma overindexed_accepted_under_address (d : Diag) :
  let e := ArrayDesignator (Sample.tok 2) Sample.a
                           [Sample.zero; Sample.zero; Sample.zero] in
  TypeCheck (SpecialOp (Sample.tok 2) opAddress e None) d = Some (true, d)
  /\ GetType (SpecialOp (Sample.tok 2) opAddress e None) =
       Some (Some (TPointer None)).
Proof. split; reflexivity. Qed.

(** Partial indexing is accepted: [a[0]] on [a : integer[3][4]] type-checks
    and has the type [integer[4]]. *)
Lemma partial_indexing_accepted (d : Diag) :
  let e := ArrayDesignator (Sample.tok 2) Sample.a [Sample.zero] in
  GetType e = Some (Some (TArray 4 TInt)) /\ TypeCheck e d = Some (true, d).
Proof. split; reflexivity. Qed.

(** ** Lowering of single nodes *)

Lemma wrap_ll_small (z : Z) :
  (- 2 ^ 63 <= z < 2 ^ 63)%Z -> wrap_ll z = z.
Proof.
  intros H. unfold wrap_ll. rewrite Z.mod_small by lia. lia.
Qed.

(** C5: a unary minus whose operand is a constant node emits nothing and
    draws no temporary or label: the code block is left as it was, and the
    result is the constant address of the negated value.  (The value of a
    constant is a [long long]; its least value has no negation.) *)
Theorem C5_negated_literal (GetSize : CType -> Z) (t tc : CToken)
        (ty : CTypeP) (v : Z) (cb : CCodeBlock) :
  (- 2 ^ 63 < v < 2 ^ 63)%Z ->
  ToTac GetSize (UnaryOp t opNeg (Constant tc ty v)) cb =
    Some (CTacConst (- v), cb).
Proof.
  intros Hv. simpl. unfold CAstUnaryOp.ToTac; simpl.
  unfold ret. rewrite wrap_ll_small by lia. reflexivity.
Qed.

Lemma C5_negated_literal_witness :
  (- 2 ^ 63 < 2147483648 < 2 ^ 63)%Z /\
  ToTac Sample.GetSize
        (UnaryOp (Sample.tok 1) opNeg
                 (Constant (Sample.tok 1) (Some TInt) 2147483648))
        Sample.cb =
    Some (CTacConst (-2147483648), Sample.cb).
Proof.
  split; [lia | apply (C5_negated_literal Sample.GetSize); lia].
Defined.

(** A unary minus on an operand that is no constant node does emit its
    instruction. *)
Lemma negated_designator_emits (t td : CToken) (cb : CCodeBlock) :
  ToTac Sample.GetSize (UnaryOp t opNeg (Designator td Sample.i)) cb =
    Some (CTacTemp (mkTemp (cb_temp cb) TInt),
          mkCodeBlock (cb_symtab cb) (S (cb_temp cb)) (cb_label cb)
            (cb_ops cb ++
             [Instr opNeg (Some (CTacTemp (mkTemp (cb_temp cb) TInt)))
                    (Some (CTacName Sample.i)) None])).
Proof. reflexivity. Qed.

(** C9: whatever the operation of a special-op node is (address-of,
    dereference or cast), its lowering is: the operand's value, then one
    [opAddress] instruction into a fresh temporary of type pointer to the
    operand's type; nothing else is emitted. *)
Theorem C9_special_op_address (GetSize : CType -> Z) (t : CToken)
        (oper : EOperation) (e : CAstExpression) (type ty : CTypeP)
        (cb cb1 : CCodeBlock) (src : CTacAddr) :
  ToTac GetSize e cb = Some (src, cb1) ->
  GetType e = Some ty ->
  let tmp := mkTemp (cb_temp cb1) (TPointer ty) in
  ToTac GetSize (SpecialOp t oper e type) cb =
    Some (CTacTemp tmp,
          mkCodeBlock (cb_symtab cb1) (S (cb_temp cb1)) (cb_label cb1)
            (cb_ops cb1 ++
             [Instr opAddress (Some (CTacTemp tmp)) (Some src) None])).
Proof.
  intros He Hty tmp. simpl. unfold CAstSpecialOp.ToTac; simpl.
  rewrite (bind_run _ _ _ _ _ He). rewrite Hty. reflexivity.
Qed.

Lemma C9_special_op_address_witness :
  ToTac Sample.GetSize
        (SpecialOp (Sample.tok 1) opDeref
                   (Designator (Sample.tok 1) Sample.i) None)
        Sample.cb =
    Some (CTacTemp (mkTemp 0 (TPointer (Some TInt))),
          mkCodeBlock (cb_symtab Sample.cb) 1 2
            [Instr opAddress
                   (Some (CTacTemp (mkTemp 0 (TPointer (Some TInt)))))
                   (Some (CTacName Sample.i)) None]).
Proof.
  apply (C9_special_op_address Sample.GetSize (Sample.tok 1) opDeref
           (Designator (Sample.tok 1) Sample.i) None (Some TInt)
           Sample.cb Sample.cb (CTacName Sample.i));
    reflexivity.
Defined.

(** C10: a constant in condition form emits one [goto] and nothing else: to
    [ltrue] when its value is not zero (so for 2 as well as for 1), to
    [lfalse] when it is zero.  A function call and a designator in condition
    form compare their value with the constant 1. *)
Theorem C10_constant_condition (GetSize : CType -> Z) (t : CToken)
        (ty : CTypeP) (v : Z) (ltrue lfalse : CTacLabel) (cb : CCodeBlock) :
  ToTacCond GetSize (Constant t ty v) ltrue lfalse cb =
    Some (Some (CTacConst v),
          mkCodeBlock (cb_symtab cb) (cb_temp cb) (cb_label cb)
            (cb_ops cb ++ [goto (if (v =? 0)%Z then lfalse else ltrue)]))
  /\
  (forall symbol arg retval cb1,
      ToTac GetSize (FunctionCall t symbol arg) cb = Some (retval, cb1) ->
      ToTacCond GetSize (FunctionCall t symbol arg) ltrue lfalse cb =
        Some (None,
              mkCodeBlock (cb_symtab cb1) (cb_temp cb1) (cb_label cb1)
                (cb_ops cb1 ++
                 [Instr opEqual (Some (CTacLabelRef ltrue))
                        (Some retval) (Some (CTacConst 1));
                  goto lfalse])))
  /\
  (forall symbol,
      ToTacCond GetSize (Designator t symbol) ltrue lfalse cb =
        Some (None,
              mkCodeBlock (cb_symtab cb) (cb_temp cb) (cb_label cb)
                (cb_ops cb ++
                 [Instr opEqual (Some (CTacLabelRef ltrue))
                        (Some (CTacName symbol)) (Some (CTacConst 1));
                  goto lfalse]))).
Proof.
  repeat split.
  - simpl. unfold CAstConstant.ToTacCond.
    destruct (v =? 0)%Z; reflexivity.
  - intros symbol arg retval cb1 H. simpl in *.
    unfold CAstFunctionCall.ToTacCond.
    rewrite (bind_run _ _ _ _ _ H). unfold bind, AddInstr, ret; simpl.
    rewrite <- app_assoc. reflexivity.
  - intros symbol. simpl. unfold CAstDesignator.ToTacCond, bind; simpl.
    rewrite <- app_assoc. reflexivity.
Qed.

Lemma C10_constant_condition_witness :
  ToTacCond Sample.GetSize (Constant (Sample.tok 1) (Some TBool) 2)
            Sample.ltrue Sample.lfalse Sample.cb =
    Some (Some (CTacConst 2),
          mkCodeBlock (cb_symtab Sample.cb) 0 2 [goto Sample.ltrue])
  /\
  ToTacCond Sample.GetSize (FunctionCall (Sample.tok 1) Sample.f [])
            Sample.ltrue Sample.lfalse Sample.cb =
    Some (None,
          mkCodeBlock (cb_symtab Sample.cb) 1 2
            [Instr opCall (Some (CTacTemp (mkTemp 0 TBool)))
                   (Some (CTacName Sample.f)) None;
             Instr opEqual (Some (CTacLabelRef Sample.ltrue))
                   (Some (CTacTemp (mkTemp 0 TBool))) (Some (CTacConst 1));
             goto Sample.lfalse]).
Proof.
  split.
  - exact (proj1 (C10_constant_condition Sample.GetSize (Sample.tok 1)
                    (Some TBool) 2 Sample.ltrue Sample.lfalse Sample.cb)).
  - apply (proj1 (proj2 (C10_constant_condition Sample.GetSize (Sample.tok 1)
                    (Some TBool) 2 Sample.ltrue Sample.lfalse Sample.cb))
             Sample.f [] (CTacTemp (mkTemp 0 TBool))
             (mkCodeBlock (cb_symtab Sample.cb) 1 2
                [Instr opCall (Some (CTacTemp (mkTemp 0 TBool)))
                       (Some (CTacName Sample.f)) None])).
    reflexivity.
Defined.


Lemma C8_relational_on_boolean_witness :
  TypeCheck (BinaryOp (Sample.tok 5) opLessThan
                      (Constant (Sample.tok 6) (Some TBool) 1)
                      (Constant (Sample.tok 7) (Some TBool) 0))
            Sample.diag =
    Some (false,
          mkDiag (Sample.tok 6)
                 [Str "the type of operands cannot be boolean type in ";
                  Str "this"; Str " operation."; Endl;
                  Str "left operand : "; Typ TBool; Endl;
                  Str "right operand : "; Typ TBool; Endl])
  /\
  TypeCheck (BinaryOp (Sample.tok 5) opEqual
                      (Constant (Sample.tok 6) (Some TBool) 1)
                      (Constant (Sample.tok 7) (Some TBool) 0))
            Sample.diag = Some (true, Sample.diag).
Proof.
  pose proof (C8_relational_on_boolean (Sample.tok 5)
                (Constant (Sample.tok 6) (Some TBool) 1)
                (Constant (Sample.tok 7) (Some TBool) 0)
                Sample.diag Sample.diag Sample.diag eq_refl eq_refl)
    as [Hrel Heq].
  split.
  - apply Hrel; [reflexivity | reflexivity | left; reflexivity].
  - apply (Heq opEqual TBool TBool); try reflexivity. left; reflexivity.
Defined.

(** ** Growth of the code block under the lowering *)

Lemma grows_nothing (b : nat) (out : list CTacLabel) (cb cb' : CCodeBlock) :
  cb_symtab cb' = cb_symtab cb ->
  (cb_temp cb <= cb_temp cb')%nat ->
  (cb_label cb <= cb_label cb')%nat ->
  cb_ops cb' = cb_ops cb ->
  grows b out cb cb'.
Proof.
  intros Hs Ht Hl Ho. split; [exact Hs|]. split; [exact Ht|].
  split; [exact Hl|]. exists []. split; [|split].
  - rewrite Ho, app_nil_r. reflexivity.
  - intros l [].
  - intros i l [].
Qed.

Lemma grows_refl (b : nat) (out : list CTacLabel) (cb : CCodeBlock) :
  grows b out cb cb.
Proof. apply grows_nothing; auto. Qed.

Lemma grows_trans (b : nat) (out : list CTacLabel)
      (cb1 cb2 cb3 : CCodeBlock) :
  grows b out cb1 cb2 -> grows b out cb2 cb3 -> grows b out cb1 cb3.
Proof.
  intros (S1 & T1 & L1 & c1 & O1 & F1 & J1)
         (S2 & T2 & L2 & c2 & O2 & F2 & J2).
  repeat split; try lia; try congruence.
  exists (c1 ++ c2). split; [|split].
  - rewrite O2, O1, app_assoc. reflexivity.
  - intros l Hl. apply in_app_or in Hl as [Hl | Hl].
    + specialize (F1 l Hl). lia.
    + apply F2, Hl.
  - intros i l Hi Hl. apply in_app_or in Hi as [Hi | Hi].
    + destruct (J1 i l Hi Hl) as [Ho | Hr]; [left; exact Ho | right; lia].
    + apply (J2 i l Hi Hl).
Qed.

Lemma known_grows (b : nat) (ls out : list CTacLabel)
      (cb cb' : CCodeBlock) :
  known b ls cb -> grows b out cb cb' -> known b ls cb'.
Proof.
  intros [Hb Hls] (_ & _ & L & _). split; [lia|].
  intros l Hl. specialize (Hls l Hl). lia.
Qed.

Lemma sound_ret {A : Type} (b : nat) (ls out : list CTacLabel) (a : A) :
  sound b ls out (ret a).
Proof.
  intros cb x cb' _ H. inversion H; subst. apply grows_refl.
Qed.

Lemma sound_crash {A : Type} (b : nat) (ls out : list CTacLabel) :
  sound b ls out (@crash CCodeBlock A).
Proof. intros cb x cb' _ H. discriminate. Qed.

Lemma sound_lift {A : Type} (b : nat) (ls out : list CTacLabel)
      (o : option A) :
  sound b ls out (lift o).
Proof.
  intros cb x cb' _ H. unfold lift in H.
  destruct o; inversion H; subst. apply grows_refl.
Qed.

Lemma sound_bind {A B : Type} (b : nat) (ls out : list CTacLabel)
      (m : M A) (k : A -> M B) :
  sound b ls out m -> (forall a, sound b ls out (k a)) ->
  sound b ls out (bind m k).
Proof.
  intros Hm Hk cb x cb' Hkn H.
  apply bind_Some in H as (a & cb1 & H1 & H2).
  pose proof (Hm _ _ _ Hkn H1) as G1.
  eapply grows_trans; [exact G1|].
  eapply Hk; [|exact H2]. eapply known_grows; eauto.
Qed.

(** A target of the lowering that was drawn from the code block need not be
    listed. *)
Lemma sound_out {A : Type} (b : nat) (ls out out' : list CTacLabel)
      (m : M A) :
  sound b ls out m ->
  (forall l, In l out -> In l out' \/ In l ls) ->
  sound b ls out' m.
Proof.
  intros Hm Ho cb x cb' Hk H.
  destruct (Hm cb x cb' Hk H) as (S1 & T1 & L1 & c & O1 & F1 & J1).
  repeat split; try assumption.
  exists c. repeat split; try assumption; try (apply F1; assumption).
  intros i l Hi Hl. destruct (J1 i l Hi Hl) as [Hin | Hr];
    [|right; exact Hr].
  destruct (Ho l Hin) as [H1 | H2]; [left; exact H1|].
  right. destruct Hk as [_ Hk]. specialize (Hk l H2). lia.
Qed.

Lemma sound_CreateTemp (b : nat) (ls out : list CTacLabel) (ty : CType) :
  sound b ls out (CreateTemp ty).
Proof.
  intros cb x cb' _ H. inversion H; subst; clear H.
  apply grows_nothing; simpl; auto.
Qed.

Lemma sound_FindSymbol (b : nat) (ls out : list CTacLabel)
      (name : string) :
  sound b ls out (FindSymbol name).
Proof.
  intros cb x cb' _ H. inversion H; subst. apply grows_refl.
Qed.

Lemma sound_AddInstr (b : nat) (ls out : list CTacLabel) (op : EOperation)
      (dst src1 src2 : option CTacAddr) :
  (forall l, In l (jump_targets (Instr op dst src1 src2)) ->
             In l out \/ In l ls) ->
  sound b ls out (AddInstr (Instr op dst src1 src2)).
Proof.
  intros Ht cb x cb' [Hb Hk] H. inversion H; subst; clear H.
  repeat split; simpl; try lia.
  exists [Instr op dst src1 src2]. split; [reflexivity|]. split.
  - intros l [Hl | []]. discriminate.
  - intros i l [<- | []] Hl. destruct (Ht l Hl) as [H1 | H2];
      [left; exact H1 | right; apply Hk, H2].
Qed.

Lemma sound_AddLabel (b : nat) (ls out : list CTacLabel) (l : CTacLabel) :
  In l ls -> sound b ls out (AddInstr (Label l)).
Proof.
  intros Hin cb x cb' [Hb Hk] H. inversion H; subst; clear H.
  repeat split; simpl; try lia.
  exists [Label l]. split; [reflexivity|]. split.
  - intros l' [Hl | []]. inversion Hl; subst. apply Hk, Hin.
  - intros i l' [<- | []] [].
Qed.

Lemma sound_CreateLabel {A : Type} (b : nat) (ls out : list CTacLabel)
      (hint : string) (k : CTacLabel -> M A) :
  (forall l, sound b (l :: ls) out (k l)) ->
  sound b ls out (bind (CreateLabel hint) k).
Proof.
  intros Hk cb x cb' [Hb Hls] H.
  apply bind_Some in H as (l & cb1 & H1 & H2).
  inversion H1; subst; clear H1.
  set (cb1 := mkCodeBlock _ _ _ _) in *.
  assert (G1 : grows b out cb cb1)
    by (apply grows_nothing; simpl; auto).
  eapply grows_trans; [exact G1|].
  eapply Hk; [|exact H2].
  split; simpl; [lia|].
  intros l [<- | Hl]; simpl; [lia|].
  specialize (Hls l Hl). lia.
Qed.

(** Side conditions on labels: membership in explicit lists. *)
Ltac solve_labels :=
  simpl; intros;
  repeat match goal with
         | H : _ \/ _ |- _ => destruct H
         | H : False |- _ => destruct H
         end;
  subst; simpl; auto 12.

Ltac sound_step :=
  match goal with
  | |- sound _ _ _ (bind (CreateLabel _) _) =>
      apply sound_CreateLabel; intro
  | |- sound _ _ _ (bind _ _) => apply sound_bind; [|intro]
  | |- sound _ _ _ (ret _) => apply sound_ret
  | |- sound _ _ _ crash => apply sound_crash
  | |- sound _ _ _ (lift _) => apply sound_lift
  | |- sound _ _ _ (CreateTemp _) => apply sound_CreateTemp
  | |- sound _ _ _ (FindSymbol _) => apply sound_FindSymbol
  | |- sound _ _ _ (AddInstr (Label _)) =>
      apply sound_AddLabel; solve_labels
  | |- sound _ _ _ (AddInstr _) => apply sound_AddInstr; solve_labels
  | H : sound_child ?c |- sound _ _ _ (l_ToTac ?c) =>
      apply (sound_out _ _ _ _ _ (proj1 H _ _)); solve_labels
  | H : sound_child ?c |- sound _ _ _ (l_ToTacCond ?c _ _) =>
      apply (sound_out _ _ _ _ _ (proj2 H _ _ _ _)); solve_labels
  | |- sound _ _ _ (if ?c then _ else _) => destruct c
  | |- sound _ _ _ (match ?x with _ => _ end) => destruct x
  end.

Ltac sound_auto := repeat sound_step.

Lemma BinaryOp_ToTacCond_sound (oper : EOperation) (left right : Lowered)
      (b : nat) (ls : list CTacLabel) (lt lf : CTacLabel) :
  sound_child left -> sound_child right ->
  sound b ls [lt; lf] (CAstBinaryOp.ToTacCond oper left right lt lf).
Proof.
  intros Hl Hr. unfold CAstBinaryOp.ToTacCond. sound_auto.
Qed.

Lemma BinaryOp_ToTac_sound (oper : EOperation) (left right : Lowered)
      (b : nat) (ls : list CTacLabel) :
  sound_child left -> sound_child right ->
  sound b ls [] (CAstBinaryOp.ToTac oper left right).
Proof.
  intros Hl Hr. unfold CAstBinaryOp.ToTac.
  destruct oper; sound_auto;
    try (eapply sound_out;
         [apply BinaryOp_ToTacCond_sound; assumption | solve_labels]).
Qed.

Lemma UnaryOp_ToTacCond_sound (oper : EOperation) (operand : Lowered)
      (b : nat) (ls : list CTacLabel) (lt lf : CTacLabel) :
  sound_child operand ->
  sound b ls [lt; lf] (CAstUnaryOp.ToTacCond oper operand lt lf).
Proof.
  intros Ho. unfold CAstUnaryOp.ToTacCond. sound_auto.
Qed.

Lemma UnaryOp_ToTac_sound (oper : EOperation) (operand : Lowered)
      (b : nat) (ls : list CTacLabel) :
  sound_child operand ->
  sound b ls [] (CAstUnaryOp.ToTac oper operand).
Proof.
  intros Ho. unfold CAstUnaryOp.ToTac.
  destruct oper; sound_auto;
    try (eapply sound_out;
         [apply UnaryOp_ToTacCond_sound; assumption | solve_labels]).
Qed.

Lemma SpecialOp_ToTac_sound (operand : Lowered)
      (b : nat) (ls : list CTacLabel) :
  sound_child operand -> sound b ls [] (CAstSpecialOp.ToTac operand).
Proof.
  intros Ho. unfold CAstSpecialOp.ToTac. sound_auto.
Qed.

Lemma GetArg_sound (arg : list (M CTacAddr)) (i : nat) (b : nat)
      (ls out : list CTacLabel) :
  Forall (fun a => forall b ls, sound b ls [] a) arg ->
  sound b ls out (match nth_error arg i with
                  | Some a => a
                  | None => crash
                  end).
Proof.
  intros Harg.
  destruct (nth_error arg i) as [a|] eqn:E; [|apply sound_crash].
  apply nth_error_In in E. rewrite Forall_forall in Harg.
  eapply sound_out; [apply Harg, E|]. intros l [].
Qed.

Lemma FunctionCall_params_sound (arg : list (M CTacAddr)) (n : nat)
      (b : nat) (ls out : list CTacLabel) :
  Forall (fun a => forall b ls, sound b ls [] a) arg ->
  sound b ls out (CAstFunctionCall.params arg n).
Proof.
  intros Harg. induction n as [|i IH]; simpl; [apply sound_ret|].
  apply sound_bind; [|intro; sound_auto; exact IH].
  apply GetArg_sound, Harg.
Qed.

Lemma FunctionCall_ToTac_sound (symbol : CSymbol) (arg : list (M CTacAddr))
      (b : nat) (ls out : list CTacLabel) :
  Forall (fun a => forall b ls, sound b ls [] a) arg ->
  sound b ls out (CAstFunctionCall.ToTac symbol arg).
Proof.
  intros Harg. unfold CAstFunctionCall.ToTac.
  apply sound_bind; [apply FunctionCall_params_sound, Harg|intro].
  sound_auto.
Qed.

Lemma FunctionCall_ToTacCond_sound (symbol : CSymbol)
      (arg : list (M CTacAddr)) (b : nat) (ls : list CTacLabel)
      (lt lf : CTacLabel) :
  Forall (fun a => forall b ls, sound b ls [] a) arg ->
  sound b ls [lt; lf] (CAstFunctionCall.ToTacCond symbol arg lt lf).
Proof.
  intros Harg. unfold CAstFunctionCall.ToTacCond.
  apply sound_bind; [apply FunctionCall_ToTac_sound, Harg|intro].
  sound_auto.
Qed.

Lemma StatCall_params_sound (arg : list (M CTacAddr)) (n : nat)
      (b : nat) (ls out : list CTacLabel) :
  Forall (fun a => forall b ls, sound b ls [] a) arg ->
  sound b ls out (CAstStatCall.params arg n).
Proof.
  intros Harg. induction n as [|i IH]; simpl; [apply sound_ret|].
  apply sound_bind; [|intro; sound_auto; exact IH].
  apply GetArg_sound, Harg.
Qed.

Lemma Designator_ToTac_sound (symbol : CSymbol) (b : nat)
      (ls out : list CTacLabel) :
  sound b ls out (CAstDesignator.ToTac symbol).
Proof. apply sound_ret. Qed.

Lemma Designator_ToTacCond_sound (symbol : CSymbol) (b : nat)
      (ls : list CTacLabel) (lt lf : CTacLabel) :
  sound b ls [lt; lf] (CAstDesignator.ToTacCond symbol lt lf).
Proof.
  unfold CAstDesignator.ToTacCond.
  apply sound_bind; [apply Designator_ToTac_sound|intro]. sound_auto.
Qed.

Lemma Designator_sound_child (symbol : CSymbol) (ty : option CTypeP)
      (n : option Z) :
  sound_child (mkLowered (CAstDesignator.ToTac symbol)
                         (CAstDesignator.ToTacCond symbol) ty n).
Proof.
  split; simpl; intros.
  - apply Designator_ToTac_sound.
  - apply Designator_ToTacCond_sound.
Qed.

Lemma ArrayDesignator_offset_loop_sound (DIM_SYM : option CSymbol)
      (idExpr : M CTacAddr) (index : list (M CTacAddr))
      (iterateCount n i : nat) (idx : option CTacAddr)
      (b : nat) (ls out : list CTacLabel) :
  (forall b ls, sound b ls [] idExpr) ->
  Forall (fun a => forall b ls, sound b ls [] a) index ->
  sound b ls out (CAstArrayDesignator.offset_loop DIM_SYM idExpr index
                    iterateCount n i idx).
Proof.
  intros Hid Hidx.
  revert i idx. induction n as [|n IH]; intros i idx; simpl;
    [apply sound_ret|].
  apply sound_bind.
  - destruct idx as [cur|]; [|apply GetArg_sound, Hidx].
    apply sound_bind; [|intro; sound_auto].
    destruct (i <? List.length index)%nat;
      [apply GetArg_sound, Hidx|apply sound_ret].
  - intro a. destruct (i =? iterateCount - 1)%nat; [apply sound_ret|].
    apply sound_bind; [apply sound_lift|intro DIM].
    apply sound_bind.
    + apply FunctionCall_ToTac_sound.
      apply Forall_cons; [exact Hid|].
      apply Forall_cons; [intros; apply sound_ret|apply Forall_nil].
    + intro. sound_auto. apply IH.
Qed.

Lemma ArrayDesignator_ToTac_sound (GetSize : CType -> Z) (symbol : CSymbol)
      (index : list (M CTacAddr)) (b : nat) (ls out : list CTacLabel) :
  Forall (fun a => forall b ls, sound b ls [] a) index ->
  sound b ls out (CAstArrayDesignator.ToTac GetSize symbol index).
Proof.
  intros Hidx. unfold CAstArrayDesignator.ToTac.
  apply sound_bind; [apply sound_FindSymbol|intro DIM_SYM].
  apply sound_bind; [apply sound_FindSymbol|intro DOFS_SYM].
  assert (Hrest : forall id idExpr dataType,
             (forall b ls, sound b ls [] idExpr) ->
             sound b ls out
               (dataType0 <- lift dataType ;;
                idx <- CAstArrayDesignator.offset_loop DIM_SYM idExpr index
                         (GetNDim dataType0) (GetNDim dataType0) 0 None ;;
                tmp <- CreateTemp CTypeManager.GetInt ;;
                AddInstr (Instr opMul (Some (CTacTemp tmp)) idx
                                (Some (CTacConst
                                         (GetSize (GetBaseType dataType0))))) ;;;
                DOFS <- lift (as_CSymProc DOFS_SYM) ;;
                ofs <- CAstFunctionCall.ToTac DOFS [idExpr] ;;
                tmp0 <- CreateTemp CTypeManager.GetInt ;;
                AddInstr (Instr opAdd (Some (CTacTemp tmp0))
                                (Some (CTacTemp tmp)) (Some ofs)) ;;;
                tmp1 <- CreateTemp CTypeManager.GetInt ;;
                AddInstr (Instr opAdd (Some (CTacTemp tmp1)) (Some id)
                                (Some (CTacTemp tmp0))) ;;;
                ret (CTacReference tmp1 symbol))).
  { intros id idExpr dataType Hid.
    apply sound_bind; [apply sound_lift|intro].
    apply sound_bind;
      [apply ArrayDesignator_offset_loop_sound; assumption|intro].
    apply sound_bind; [apply sound_CreateTemp|intro].
    apply sound_bind; [apply sound_AddInstr; solve_labels|intro].
    apply sound_bind; [apply sound_lift|intro].
    apply sound_bind;
      [apply FunctionCall_ToTac_sound;
       apply Forall_cons; [exact Hid|apply Forall_nil]|intro].
    sound_auto. }
  destruct (IsPointer (GetDataType symbol)).
  - intros cb x cb' Hk H. unfold bind at 1, ret at 1 in H.
    revert H. apply Hrest; [|exact Hk].
    intros; apply Designator_ToTac_sound.
  - intros cb x cb' Hk H.
    rewrite bind_assoc in H.
    apply bind_Some in H as (ptr & cb1 & H1 & H).
    rewrite bind_assoc in H.
    apply bind_Some in H as (u & cb2 & H2 & H).
    unfold bind at 1, ret at 1 in H.
    pose proof (sound_CreateTemp b ls out _ _ _ _ Hk H1) as G1.
    pose proof (known_grows _ _ _ _ _ Hk G1) as K1.
    assert (G2 : grows b out cb1 cb2).
    { eapply sound_AddInstr; [|exact K1|exact H2]. solve_labels. }
    pose proof (known_grows _ _ _ _ _ K1 G2) as K2.
    eapply grows_trans; [exact G1|].
    eapply grows_trans; [exact G2|].
    revert H. apply Hrest; [|exact K2].
    intros; apply SpecialOp_ToTac_sound, Designator_sound_child.
Qed.

Lemma ArrayDesignator_ToTacCond_sound (GetSize : CType -> Z)
      (symbol : CSymbol) (index : list (M CTacAddr)) (b : nat)
      (ls : list CTacLabel) (lt lf : CTacLabel) :
  Forall (fun a => forall b ls, sound b ls [] a) index ->
  sound b ls [lt; lf]
        (CAstArrayDesignator.ToTacCond GetSize symbol index lt lf).
Proof.
  intros Hidx. unfold CAstArrayDesignator.ToTacCond.
  apply sound_bind; [apply ArrayDesignator_ToTac_sound, Hidx|intro].
  sound_auto.
Qed.

(** Induction over the syntax tree, with the arguments of a call and the
    indices of an array designator as subtrees. *)
Lemma CAstExpression_tree_ind (P : CAstExpression -> Prop) :
  (forall t oper l r, P l -> P r -> P (BinaryOp t oper l r)) ->
  (forall t oper e, P e -> P (UnaryOp t oper e)) ->
  (forall t oper e type, P e -> P (SpecialOp t oper e type)) ->
  (forall t symbol arg, Forall P arg -> P (FunctionCall t symbol arg)) ->
  (forall t symbol, P (Designator t symbol)) ->
  (forall t symbol idx, Forall P idx -> P (ArrayDesignator t symbol idx)) ->
  (forall t type value, P (Constant t type value)) ->
  (forall t type value sym, P (StringConstant t type value sym)) ->
  forall e, P e.
Proof.
  intros HB HU HS HF HD HA HC HSC.
  fix IH 1. intros e.
  destruct e as [t oper l r | t oper e | t oper e type | t symbol arg
                | t symbol | t symbol idx | t type value
                | t type value sym].
  - apply HB; apply IH.
  - apply HU; apply IH.
  - apply HS; apply IH.
  - apply HF. induction arg as [|a arg IHa]; constructor;
      [apply IH | exact IHa].
  - apply HD.
  - apply HA. induction idx as [|a idx IHa]; constructor;
      [apply IH | exact IHa].
  - apply HC.
  - apply HSC.
Qed.

(** Every lowering, value form and condition form, only appends to the
    instruction stream, leaves the symbol table alone, places no label but
    fresh ones that it drew itself, and jumps to no label but those and, in
    condition form, its two targets. *)
Lemma ToTac_sound_child (GetSize : CType -> Z) (e : CAstExpression) :
  sound_child (lowered GetSize e).
Proof.
  induction e using CAstExpression_tree_ind; split; simpl; intros.
  - apply BinaryOp_ToTac_sound; assumption.
  - apply BinaryOp_ToTacCond_sound; assumption.
  - apply UnaryOp_ToTac_sound; assumption.
  - apply UnaryOp_ToTacCond_sound; assumption.
  - apply SpecialOp_ToTac_sound; assumption.
  - apply sound_ret.
  - apply FunctionCall_ToTac_sound.
    rewrite Forall_map. eapply Forall_impl; [|exact H].
    intros a Ha. apply (proj1 Ha).
  - apply FunctionCall_ToTacCond_sound.
    rewrite Forall_map. eapply Forall_impl; [|exact H].
    intros a Ha. apply (proj1 Ha).
  - apply Designator_ToTac_sound.
  - apply Designator_ToTacCond_sound.
  - apply ArrayDesignator_ToTac_sound.
    rewrite Forall_map. eapply Forall_impl; [|exact H].
    intros a Ha. apply (proj1 Ha).
  - apply ArrayDesignator_ToTacCond_sound.
    rewrite Forall_map. eapply Forall_impl; [|exact H].
    intros a Ha. apply (proj1 Ha).
  - apply sound_ret.
  - unfold CAstConstant.ToTacCond. sound_auto.
  - apply sound_ret.
  - apply sound_ret.
Qed.

Lemma known_start (cb : CCodeBlock) : known (cb_label cb) [] cb.
Proof. split; [lia|]. intros l []. Qed.

Lemma ToTac_grows (GetSize : CType -> Z) (e : CAstExpression)
      (cb cb' : CCodeBlock) (a : CTacAddr) :
  ToTac GetSize e cb = Some (a, cb') -> grows (cb_label cb) [] cb cb'.
Proof.
  intros H.
  exact (proj1 (ToTac_sound_child GetSize e) (cb_label cb) [] cb a cb'
               (known_start cb) H).
Qed.

Lemma ToTacCond_grows (GetSize : CType -> Z) (e : CAstExpression)
      (lt lf : CTacLabel) (cb cb' : CCodeBlock) (a : option CTacAddr) :
  ToTacCond GetSize e lt lf cb = Some (a, cb') ->
  grows (cb_label cb) [lt; lf] cb cb'.
Proof.
  intros H.
  exact (proj2 (ToTac_sound_child GetSize e) (cb_label cb) [] lt lf
               cb a cb' (known_start cb) H).
Qed.

(** ** Jumps and control flow in a fragment *)

Lemma find_label_fresh (l : CTacLabel) (code : list CTacInstr) :
  (forall l', In (Label l') code -> lbl_id l' <> lbl_id l) ->
  find_label l code = None.
Proof.
  induction code as [|i code IH]; intros H; simpl; [reflexivity|].
  destruct i as [op dst s1 s2 | l'].
  - rewrite IH; [reflexivity|]. intros l' Hl. apply H. right. exact Hl.
  - destruct (Nat.eqb_spec (lbl_id l') (lbl_id l)) as [E|_].
    + exfalso. apply (H l'); [left; reflexivity | exact E].
    + rewrite IH; [reflexivity|]. intros l2 Hl. apply H. right. exact Hl.
Qed.

Lemma find_label_app_fresh (l : CTacLabel) (code rest : list CTacInstr) :
  find_label l code = None ->
  find_label l (code ++ Label l :: rest) = Some (List.length code).
Proof.
  induction code as [|i code IH]; intros H; simpl.
  - rewrite Nat.eqb_refl. reflexivity.
  - simpl in H. destruct i as [op dst s1 s2 | l'].
    + destruct (find_label l code); [discriminate|].
      rewrite IH by reflexivity. reflexivity.
    + destruct (lbl_id l' =? lbl_id l)%nat; [discriminate|].
      destruct (find_label l code); [discriminate|].
      rewrite IH by reflexivity. reflexivity.
Qed.

Lemma find_label_Some (l : CTacLabel) (code : list CTacInstr) (pc : nat) :
  find_label l code = Some pc ->
  exists l', nth_error code pc = Some (Label l') /\ lbl_id l' = lbl_id l.
Proof.
  revert pc. induction code as [|i code IH]; intros pc H; simpl in H;
    [discriminate|].
  destruct i as [op dst s1 s2 | l0].
  - destruct (find_label l code) as [q|]; [|discriminate].
    inversion H; subst. simpl. apply IH. reflexivity.
  - destruct (Nat.eqb_spec (lbl_id l0) (lbl_id l)) as [E|_].
    + inversion H; subst. exists l0. split; [reflexivity | exact E].
    + destruct (find_label l code) as [q|]; [|discriminate].
      inversion H; subst. simpl. apply IH. reflexivity.
Qed.

Lemma flows_star_closed (code : list CTacInstr) (n : nat) :
  (forall pc pc', (n <= pc)%nat -> flows code pc pc' -> (n <= pc')%nat) ->
  forall pc pc', (n <= pc)%nat -> flows_star code pc pc' -> (n <= pc')%nat.
Proof.
  intros Hstep pc pc' Hpc Hs. induction Hs as [|pc pc1 pc2 H1 _ IH].
  - exact Hpc.
  - apply IH. apply (Hstep pc pc1 Hpc H1).
Qed.

(** The layout that makes the short circuit: the labels of the left code
    are younger than [nextCond], those of the right code younger still, the
    right code jumps to the two targets or to its own labels, and the two
    targets are older than [nextCond]. *)
Lemma short_circuit_layout (left right : list CTacInstr)
      (nextCond decided ltrue lfalse : CTacLabel) (n1 : nat) :
  (forall l, In (Label l) left -> (lbl_id nextCond < lbl_id l < n1)%nat) ->
  (forall l, In (Label l) right -> (n1 <= lbl_id l)%nat) ->
  (forall i l, In i right -> In l (jump_targets i) ->
               In l [ltrue; lfalse] \/ (n1 <= lbl_id l)%nat) ->
  (lbl_id nextCond < n1)%nat ->
  (lbl_id ltrue < lbl_id nextCond)%nat ->
  (lbl_id lfalse < lbl_id nextCond)%nat ->
  In decided [ltrue; lfalse] ->
  short_circuit (left ++ Label nextCond :: right) (List.length left)
                decided nextCond.
Proof.
  intros HL HR HJ Hn Ht Hf Hd.
  assert (Hold : forall l, In l [ltrue; lfalse] ->
                   find_label l (left ++ Label nextCond :: right) = None).
  { intros l Hl. apply find_label_fresh. intros l' Hl'.
    assert (lbl_id l < lbl_id nextCond)%nat
      by (destruct Hl as [<- | [<- | []]]; assumption).
    apply in_app_or in Hl' as [Hl' | [Hl' | Hl']].
    - specialize (HL l' Hl'). lia.
    - inversion Hl'; subst. lia.
    - specialize (HR l' Hl'). lia. }
  split; [|split].
  - unfold jump. rewrite (Hold decided Hd). reflexivity.
  - unfold jump. rewrite find_label_app_fresh; [reflexivity|].
    apply find_label_fresh. intros l' Hl'. specialize (HL l' Hl'). lia.
  - apply flows_star_closed. intros pc pc' Hpc Hflow.
    destruct Hflow as [i Hi Hft | i l pc' Hi Hl Hfind]; [lia|].
    destruct (Nat.lt_ge_cases pc' (List.length left)) as [Hlt | Hge];
      [exfalso | exact Hge].
    (* the instruction at [pc] is the label or belongs to the right code *)
    assert (Hright : In i right).
    { rewrite nth_error_app2 in Hi by exact Hpc.
      destruct (pc - List.length left)%nat as [|q] eqn:Eq; simpl in Hi.
      - inversion Hi; subst. destruct Hl.
      - apply nth_error_In in Hi. exact Hi. }
    destruct (HJ i l Hright Hl) as [Hout | Hyoung].
    + rewrite (Hold l Hout) in Hfind. discriminate.
    + apply find_label_Some in Hfind as (l' & Hnth & Hid).
      rewrite nth_error_app1 in Hnth by exact Hlt.
      apply nth_error_In in Hnth. specialize (HL l' Hnth). lia.
Qed.

(** The two lowerings of a short-circuit operation, after the fresh label
    was drawn and after it was placed, give the layout. *)
Lemma short_circuit_of_lowerings (GetSize : CType -> Z)
      (l r : CAstExpression) (ltrue lfalse lt' lf' decided : CTacLabel)
      (cb cb1 cb2 : CCodeBlock) (a1 a2 : option CTacAddr) :
  let nextCond := mkLabel (cb_label cb) "" in
  (lbl_id ltrue < cb_label cb)%nat ->
  (lbl_id lfalse < cb_label cb)%nat ->
  In decided [ltrue; lfalse] ->
  ToTacCond GetSize l lt' lf'
            (mkCodeBlock (cb_symtab cb) (cb_temp cb) (S (cb_label cb))
                         (cb_ops cb)) = Some (a1, cb1) ->
  ToTacCond GetSize r ltrue lfalse
            (mkCodeBlock (cb_symtab cb1) (cb_temp cb1) (cb_label cb1)
                         (cb_ops cb1 ++ [Label nextCond])) = Some (a2, cb2) ->
  exists left right,
    cb_ops cb1 = cb_ops cb ++ left /\
    cb_ops cb2 = cb_ops cb ++ left ++ Label nextCond :: right /\
    short_circuit (left ++ Label nextCond :: right) (List.length left)
                  decided nextCond.
Proof.
  intros nextCond Ht Hf Hd H1 H2.
  apply ToTacCond_grows in H1 as (_ & _ & L1 & left & O1 & F1 & _).
  apply ToTacCond_grows in H2 as (_ & _ & L2 & right & O2 & F2 & J2).
  simpl in *.
  exists left, right. split; [exact O1|]. split.
  - rewrite O2, O1, <- !app_assoc. reflexivity.
  - apply (short_circuit_layout left right nextCond decided ltrue lfalse
             (cb_label cb1)); simpl.
    + intros l0 Hl. specialize (F1 l0 Hl). lia.
    + intros l0 Hl. specialize (F2 l0 Hl). lia.
    + intros i l0 Hi Hl. destruct (J2 i l0 Hi Hl) as [Ho | Hr];
        [left; exact Ho | right; lia].
    + lia.
    + exact Ht.
    + exact Hf.
    + exact Hd.
Qed.

(** C2: in condition form with the targets ([ltrue], [lfalse]), [and] draws
    a fresh label, lowers its left operand with the targets (fresh label,
    [lfalse]), places the fresh label and lowers its right operand with
    ([ltrue], [lfalse]); [or] does the same with the targets ([ltrue], fresh
    label) for its left operand.  When both targets were drawn before, the
    emitted fragment short-circuits: the jump that decides the result in the
    left operand ([lfalse] for [and], [ltrue] for [or]) leaves the fragment,
    the other target of the left operand is the position right after its
    code, and control never comes back from there into the code of the left
    operand. *)
Theorem C2_short_circuit (GetSize : CType -> Z) (t : CToken)
        (l r : CAstExpression) (ltrue lfalse : CTacLabel)
        (cb : CCodeBlock) :
  let nextCond := mkLabel (cb_label cb) "" in
  let drawn := mkCodeBlock (cb_symtab cb) (cb_temp cb) (S (cb_label cb))
                           (cb_ops cb) in
  let placed := fun c : CCodeBlock =>
                  mkCodeBlock (cb_symtab c) (cb_temp c) (cb_label c)
                              (cb_ops c ++ [Label nextCond]) in
  (ToTacCond GetSize (BinaryOp t opAnd l r) ltrue lfalse cb =
     match ToTacCond GetSize l nextCond lfalse drawn with
     | Some (_, cb1) =>
         match ToTacCond GetSize r ltrue lfalse (placed cb1) with
         | Some (_, cb2) => Some (None, cb2)
         | None => None
         end
     | None => None
     end)
  /\
  (ToTacCond GetSize (BinaryOp t opOr l r) ltrue lfalse cb =
     match ToTacCond GetSize l ltrue nextCond drawn with
     | Some (_, cb1) =>
         match ToTacCond GetSize r ltrue lfalse (placed cb1) with
         | Some (_, cb2) => Some (None, cb2)
         | None => None
         end
     | None => None
     end)
  /\
  ((lbl_id ltrue < cb_label cb)%nat ->
   (lbl_id lfalse < cb_label cb)%nat ->
   (forall a1 cb1 a2 cb2,
       ToTacCond GetSize l nextCond lfalse drawn = Some (a1, cb1) ->
       ToTacCond GetSize r ltrue lfalse (placed cb1) = Some (a2, cb2) ->
       exists left right,
         cb_ops cb1 = cb_ops cb ++ left /\
         cb_ops cb2 = cb_ops cb ++ left ++ Label nextCond :: right /\
         short_circuit (left ++ Label nextCond :: right)
                       (List.length left) lfalse nextCond)
   /\
   (forall a1 cb1 a2 cb2,
       ToTacCond GetSize l ltrue nextCond drawn = Some (a1, cb1) ->
       ToTacCond GetSize r ltrue lfalse (placed cb1) = Some (a2, cb2) ->
       exists left right,
         cb_ops cb1 = cb_ops cb ++ left /\
         cb_ops cb2 = cb_ops cb ++ left ++ Label nextCond :: right /\
         short_circuit (left ++ Label nextCond :: right)
                       (List.length left) ltrue nextCond)).
Proof.
  intros nextCond drawn placed. split; [|split].
  - simpl. unfold CAstBinaryOp.ToTacCond; simpl.
    unfold bind at 1, CreateLabel; simpl. fold nextCond drawn.
    unfold bind at 1.
    destruct (ToTacCond GetSize l nextCond lfalse drawn) as [[a1 cb1]|];
      [|reflexivity].
    unfold bind at 1, AddInstr; simpl. fold (placed cb1).
    unfold bind, ret.
    destruct (ToTacCond GetSize r ltrue lfalse (placed cb1)) as [[a2 cb2]|];
      reflexivity.
  - simpl. unfold CAstBinaryOp.ToTacCond; simpl.
    unfold bind at 1, CreateLabel; simpl. fold nextCond drawn.
    unfold bind at 1.
    destruct (ToTacCond GetSize l ltrue nextCond drawn) as [[a1 cb1]|];
      [|reflexivity].
    unfold bind at 1, AddInstr; simpl. fold (placed cb1).
    unfold bind, ret.
    destruct (ToTacCond GetSize r ltrue lfalse (placed cb1)) as [[a2 cb2]|];
      reflexivity.
  - intros Ht Hf. split; intros a1 cb1 a2 cb2 H1 H2.
    + eapply (short_circuit_of_lowerings GetSize l r ltrue lfalse
                nextCond lfalse lfalse cb cb1 cb2 a1 a2);
        simpl; auto.
    + eapply (short_circuit_of_lowerings GetSize l r ltrue lfalse
                ltrue nextCond ltrue cb cb1 cb2 a1 a2);
        simpl; auto.
Qed.

Lemma C2_short_circuit_witness :
  let nextCond := mkLabel 2 "" in
  exists left right,
    ToTacCond Sample.GetSize
              (BinaryOp (Sample.tok 1) opOr
                        (FunctionCall (Sample.tok 1) Sample.f [])
                        (FunctionCall (Sample.tok 1) Sample.g []))
              Sample.ltrue Sample.lfalse Sample.cb =
      Some (None,
            mkCodeBlock (cb_symtab Sample.cb) 2 3
                        (left ++ Label nextCond :: right)) /\
    short_circuit (left ++ Label nextCond :: right) (List.length left)
                  Sample.ltrue nextCond.
Proof.
  intros nextCond.
  pose proof (C2_short_circuit Sample.GetSize (Sample.tok 1)
                (FunctionCall (Sample.tok 1) Sample.f [])
                (FunctionCall (Sample.tok 1) Sample.g [])
                Sample.ltrue Sample.lfalse Sample.cb) as (_ & Hor & Hsc).
  assert (Ht : (lbl_id Sample.ltrue < cb_label Sample.cb)%nat)
    by (simpl; lia).
  assert (Hf : (lbl_id Sample.lfalse < cb_label Sample.cb)%nat)
    by (simpl; lia).
  destruct (Hsc Ht Hf) as [_ Hsc_or].
  edestruct Hsc_or as (left & right & _ & O2 & S);
    [reflexivity | reflexivity |].
  exists left, right. split; [|exact S].
  rewrite Hor. simpl in O2. unfold nextCond. rewrite <- O2. reflexivity.
Defined.

(** The fragment of [f() or g()] with the targets [if_true] and [if_false]:
    the call of [f] jumps to [if_true] or to the fresh label, which stands
    before the call of [g]. *)
Lemma or_of_two_calls :
  let nextCond := mkLabel 2 "" in
  ToTacCond Sample.GetSize
            (BinaryOp (Sample.tok 1) opOr
                      (FunctionCall (Sample.tok 1) Sample.f [])
                      (FunctionCall (Sample.tok 1) Sample.g []))
            Sample.ltrue Sample.lfalse Sample.cb =
  Some (None,
        mkCodeBlock (cb_symtab Sample.cb) 2 3
          [Instr opCall (Some (CTacTemp (mkTemp 0 TBool)))
                 (Some (CTacName Sample.f)) None;
           Instr opEqual (Some (CTacLabelRef Sample.ltrue))
                 (Some (CTacTemp (mkTemp 0 TBool))) (Some (CTacConst 1));
           goto nextCond;
           Label nextCond;
           Instr opCall (Some (CTacTemp (mkTemp 1 TBool)))
                 (Some (CTacName Sample.g)) None;
           Instr opEqual (Some (CTacLabelRef Sample.ltrue))
                 (Some (CTacTemp (mkTemp 1 TBool))) (Some (CTacConst 1));
           goto Sample.lfalse]).
Proof. reflexivity. Qed.

(** ** Calls as statements (C6) *)

Lemma firstn_snoc {A : Type} (l : list A) (i : nat) (x : A) :
  nth_error l i = Some x -> firstn (S i) l = firstn i l ++ [x].
Proof.
  revert i. induction l as [|y l IH]; intros [|i] H; simpl in *;
    try discriminate.
  - inversion H; reflexivity.
  - f_equal. apply IH, H.
Qed.

Lemma combine_snoc {A B : Type} (l : list A) (l' : list B) (a : A) (b : B) :
  List.length l = List.length l' ->
  combine (l ++ [a]) (l' ++ [b]) = combine l l' ++ [(a, b)].
Proof.
  revert l'. induction l as [|x l IH]; intros [|y l'] H; simpl in *;
    try discriminate; [reflexivity|].
  f_equal. apply IH. lia.
Qed.

Lemma indexed_snoc {A : Type} (arg : list A) (n : nat) (x : A) :
  nth_error arg n = Some x ->
  combine (seq 0 (S n)) (firstn (S n) arg) =
  combine (seq 0 n) (firstn n arg) ++ [(n, x)].
Proof.
  intros H. rewrite seq_S, (firstn_snoc _ _ _ H). simpl.
  apply combine_snoc.
  assert (n < List.length arg)%nat by (apply nth_error_Some; congruence).
  rewrite length_seq, length_firstn. lia.
Qed.

(** The countdown loop of the source pushes the arguments below [n] in
    reverse index order. *)
Lemma StatCall_params_reverse (arg : list (M CTacAddr)) (n : nat)
      (cb : CCodeBlock) :
  (n <= List.length arg)%nat ->
  CAstStatCall.params arg n cb =
  Spec.push_params (rev (combine (seq 0 n) (firstn n arg))) cb.
Proof.
  revert cb. induction n as [|n IH]; intros cb Hn; [reflexivity|].
  destruct (nth_error arg n) as [a|] eqn:E;
    [|apply nth_error_None in E; lia].
  rewrite (indexed_snoc _ _ _ E), rev_app_distr. simpl.
  unfold CAstFunctionCall.GetArg. rewrite E.
  apply bind_ext. intros v cb1. apply bind_ext. intros u cb2.
  apply IH. lia.
Qed.

Lemma FunctionCall_params_reverse (arg : list (M CTacAddr)) (n : nat)
      (cb : CCodeBlock) :
  (n <= List.length arg)%nat ->
  CAstFunctionCall.params arg n cb =
  Spec.push_params (rev (combine (seq 0 n) (firstn n arg))) cb.
Proof.
  revert cb. induction n as [|n IH]; intros cb Hn; [reflexivity|].
  destruct (nth_error arg n) as [a|] eqn:E;
    [|apply nth_error_None in E; lia].
  rewrite (indexed_snoc _ _ _ E), rev_app_distr. simpl.
  unfold CAstFunctionCall.GetArg. rewrite E.
  apply bind_ext. intros v cb1. apply bind_ext. intros u cb2.
  apply IH. lia.
Qed.

Lemma combine_map_r {A B C : Type} (f : B -> C) (l : list A) (l' : list B) :
  combine l (map f l') = map (fun p => (fst p, f (snd p))) (combine l l').
Proof.
  revert l'. induction l as [|x l IH]; intros [|y l']; simpl;
    try reflexivity.
  f_equal. apply IH.
Qed.

Lemma reverse_index_order_map {A B : Type} (f : A -> B) (l : list A) :
  Spec.reverse_index_order (map f l) =
  map (fun p => (fst p, f (snd p))) (Spec.reverse_index_order l).
Proof.
  unfold Spec.reverse_index_order.
  rewrite length_map, combine_map_r, map_rev. reflexivity.
Qed.

Lemma reverse_index_order_indices {A : Type} (l : list A) :
  map fst (Spec.reverse_index_order l) = rev (seq 0 (List.length l)).
Proof.
  unfold Spec.reverse_index_order. rewrite map_rev. f_equal.
  generalize 0%nat. induction l as [|x l IH]; intros s; simpl;
    [reflexivity|].
  f_equal. apply IH.
Qed.

(** What pushing a list of arguments leaves in the code block. *)
Lemma push_params_pushes (GetSize : CType -> Z)
      (l : list (nat * CAstExpression)) (cb cb' : CCodeBlock) (u : unit) :
  Spec.push_params (map (fun p => (fst p, ToTac GetSize (snd p))) l) cb =
    Some (u, cb') ->
  cb_label cb <= cb_label cb' /\
  exists pushes,
    map (fun p => (Spec.push_index p, Spec.push_arg p)) pushes = l /\
    Forall (fun p =>
              exists c c',
                ToTac GetSize (Spec.push_arg p) c =
                  Some (Spec.push_value p, c') /\
                cb_ops c' = cb_ops c ++ Spec.push_code p) pushes /\
    cb_ops cb' = cb_ops cb ++ flat_map Spec.push_instrs pushes.
Proof.
  revert cb. induction l as [|[i e] l IH]; intros cb H; simpl in H.
  - inversion H; subst. split; [lia|]. exists []. repeat split.
    + constructor.
    + simpl. now rewrite app_nil_r.
  - apply bind_Some in H as (a & cb1 & H1 & H).
    apply bind_Some in H as (u1 & cb2 & H2 & H).
    inversion H2; subst; clear H2.
    destruct (ToTac_grows _ _ _ _ _ H1) as (_ & _ & L1 & code & O1 & _).
    apply IH in H as (L2 & pushes & Hmap & Hall & Hops). simpl in *.
    split; [lia|].
    exists (Spec.mkPush i e code a :: pushes). repeat split.
    + simpl. rewrite Hmap. reflexivity.
    + constructor; [|exact Hall]. exists cb, cb1. simpl. auto.
    + rewrite Hops, O1. simpl. unfold Spec.push_instrs at 2. simpl.
      rewrite <- !app_assoc. reflexivity.
Qed.

(** C6: the call statement pushes its arguments with one [param i] each, in
    reverse index order, each after the code of that argument's value; it
    draws a result temporary only when the return type of the callee is not
    the null type, emits the [call] and then [goto next]; the lowering
    returns nothing, so the result temporary is used by no later
    instruction. *)
Theorem C6_call_statement (GetSize : CType -> Z) (symbol : CSymbol)
        (args : list CAstExpression) (next : CTacLabel) (cb : CCodeBlock) :
  let arg := map (ToTac GetSize) args in
  CAstStatCall.ToTac symbol arg next cb = Spec.call_statement symbol arg next cb
  /\
  forall res cb',
    CAstStatCall.ToTac symbol arg next cb = Some (res, cb') ->
    res = None /\
    exists pushes cbp,
      map (fun p => (Spec.push_index p, Spec.push_arg p)) pushes =
        Spec.reverse_index_order args /\
      map Spec.push_index pushes = rev (seq 0 (List.length args)) /\
      Forall (fun p =>
                exists c c',
                  ToTac GetSize (Spec.push_arg p) c =
                    Some (Spec.push_value p, c') /\
                  cb_ops c' = cb_ops c ++ Spec.push_code p) pushes /\
      cb_ops cbp = cb_ops cb ++ flat_map Spec.push_instrs pushes /\
      let result :=
        if IsNull (GetDataType symbol) then None
        else Some (CTacTemp (mkTemp (cb_temp cbp) (GetDataType symbol))) in
      cb_ops cb' =
        cb_ops cbp ++
        [Instr opCall result (Some (CTacName symbol)) None; goto next] /\
      cb_temp cb' =
        (cb_temp cbp + if IsNull (GetDataType symbol) then 0 else 1)%nat.
Proof.
  intros arg.
  assert (E : CAstStatCall.ToTac symbol arg next cb =
              Spec.call_statement symbol arg next cb).
  { unfold CAstStatCall.ToTac, Spec.call_statement.
    apply bind_cong.
    - rewrite StatCall_params_reverse by lia.
      rewrite firstn_all. reflexivity.
    - intros u cbp. destruct (IsNull (GetDataType symbol)); reflexivity. }
  split; [exact E|].
  intros res cb' H. rewrite E in H. unfold Spec.call_statement in H.
  apply bind_Some in H as (u & cbp & Hp & H).
  unfold arg in Hp. rewrite reverse_index_order_map in Hp.
  apply push_params_pushes in Hp as (_ & pushes & Hmap & Hall & Hops).
  assert (Hres : res = None /\
                 cb_ops cb' =
                   cb_ops cbp ++
                   [Instr opCall
                          (if IsNull (GetDataType symbol) then None
                           else Some (CTacTemp (mkTemp (cb_temp cbp)
                                                       (GetDataType symbol))))
                          (Some (CTacName symbol)) None; goto next] /\
                 cb_temp cb' =
                   (cb_temp cbp +
                    if IsNull (GetDataType symbol) then 0 else 1)%nat).
  { destruct (IsNull (GetDataType symbol));
      unfold bind, CreateTemp, AddInstr, ret in H; simpl in H;
      inversion H; subst; simpl; rewrite <- app_assoc;
      repeat split; lia. }
  destruct Hres as (-> & Hcode & Htemp).
  split; [reflexivity|].
  exists pushes, cbp. repeat split; try assumption.
  rewrite <- (reverse_index_order_indices args), <- Hmap, map_map.
  reflexivity.
Qed.

Lemma C6_call_statement_witness :
  let args := [Designator (Sample.tok 1) Sample.i;
               Designator (Sample.tok 1) Sample.j] in
  let cb' := mkCodeBlock (cb_symtab Sample.cb) 0 2
               [Spec.param 1 (CTacName Sample.j);
                Spec.param 0 (CTacName Sample.i);
                Instr opCall None (Some (CTacName Sample.p)) None;
                goto Sample.lfalse] in
  CAstStatCall.ToTac Sample.p (map (ToTac Sample.GetSize) args)
                     Sample.lfalse Sample.cb = Some (None, cb') /\
  exists pushes cbp,
    map (fun p => (Spec.push_index p, Spec.push_arg p)) pushes =
      Spec.reverse_index_order args /\
    map Spec.push_index pushes = [1; 0]%nat /\
    Forall (fun p =>
              exists c c',
                ToTac Sample.GetSize (Spec.push_arg p) c =
                  Some (Spec.push_value p, c') /\
                cb_ops c' = cb_ops c ++ Spec.push_code p) pushes /\
    cb_ops cbp = cb_ops Sample.cb ++ flat_map Spec.push_instrs pushes /\
    cb_ops cb' =
      cb_ops cbp ++
      [Instr opCall None (Some (CTacName Sample.p)) None;
       goto Sample.lfalse] /\
    cb_temp cb' = (cb_temp cbp + 0)%nat.
Proof.
  intros args cb'. split; [reflexivity|].
  apply (proj2 (C6_call_statement Sample.GetSize Sample.p args
                  Sample.lfalse Sample.cb) None cb' eq_refl).
Defined.

(** A call statement whose callee is a function draws the result temporary;
    nothing refers to it after the [call]. *)
Lemma call_statement_of_function :
  CAstStatCall.ToTac Sample.h
    (map (ToTac Sample.GetSize)
         [Designator (Sample.tok 1) Sample.i;
          Constant (Sample.tok 1) (Some TInt) 7])
    Sample.lfalse Sample.cb =
  Some (None,
        mkCodeBlock (cb_symtab Sample.cb) 1 2
          [Spec.param 1 (CTacConst 7);
           Spec.param 0 (CTacName Sample.i);
           Instr opCall (Some (CTacTemp (mkTemp 0 TInt)))
                 (Some (CTacName Sample.h)) None;
           goto Sample.lfalse]).
Proof. reflexivity. Qed.

(** The lowering of a call statement returns as soon as the lowering of
    every argument does. *)
Lemma call_statement_total (GetSize : CType -> Z) (symbol : CSymbol)
      (args : list CAstExpression) (next : CTacLabel) :
  Forall (fun e => forall cb, ToTac GetSize e cb <> None) args ->
  forall cb,
    CAstStatCall.ToTac symbol (map (ToTac GetSize) args) next cb <> None.
Proof.
  intros Hargs cb.
  assert (Hp : forall n cb,
             (n <= List.length args)%nat ->
             CAstStatCall.params (map (ToTac GetSize) args) n cb <> None).
  { induction n as [|n IH]; intros cb0 Hn; simpl; [discriminate|].
    unfold CAstFunctionCall.GetArg. rewrite nth_error_map.
    destruct (nth_error args n) as [e|] eqn:E;
      [|apply nth_error_None in E; lia].
    simpl. unfold bind at 1.
    destruct (ToTac GetSize e cb0) as [[a cb1]|] eqn:Ea.
    - unfold bind, AddInstr; simpl. apply IH. lia.
    - exfalso. rewrite Forall_forall in Hargs.
      apply (Hargs e (nth_error_In _ _ E) cb0 Ea). }
  unfold CAstStatCall.ToTac. rewrite length_map. unfold bind at 1.
  destruct (CAstStatCall.params (map (ToTac GetSize) args)
                                (List.length args) cb)
    as [[u cbp]|] eqn:E; [|exfalso; apply (Hp _ _ (le_n _) E)].
  destruct (IsNull (GetDataType symbol)); discriminate.
Qed.

(** ** Array element addresses (C1) *)

Lemma descriptor_refines (symbol : CSymbol) {A : Type}
      (k : CTacAddr -> M CTacAddr -> CType -> M A) (cb : CCodeBlock) :
  (p <- (if IsPointer (GetDataType symbol) then
           ret (CTacName symbol, CAstDesignator.ToTac symbol,
                match PointerBaseType (GetDataType symbol) with
                | Some b => CAstArrayDesignator.as_CArrayType b
                | None => None
                end)
         else
           ptr <- CreateTemp
                    (CTypeManager.GetPointer (Some (GetDataType symbol))) ;;
           AddInstr (Instr opAddress (Some (CTacTemp ptr))
                           (Some (CTacName symbol)) None) ;;;
           ret (CTacTemp ptr,
                CAstSpecialOp.ToTac
                  (mkLowered (CAstDesignator.ToTac symbol)
                             (CAstDesignator.ToTacCond symbol)
                             (Some (CAstDesignator.GetType symbol)) None),
                CAstArrayDesignator.as_CArrayType
                  (Some (GetDataType symbol)))) ;;
   let '(id, idExpr, dataType) := p in
   dataType <- lift dataType ;;
   k id idExpr dataType) cb =
  (d <- Spec.descriptor symbol ;;
   let '(base, array, arr) := d in
   k base array arr) cb.
Proof.
  unfold Spec.descriptor, CAstDesignator.GetType.
  destruct (GetDataType symbol) as [| | | | b | n inner] eqn:E; simpl;
    unfold bind, ret, lift, CreateTemp, AddInstr; simpl;
    try reflexivity.
  destruct (CAstArrayDesignator.as_CArrayType b); reflexivity.
Qed.

Lemma DIM_call_refines (dim : option CSymbol) (idExpr : M CTacAddr)
      (i : nat) {A : Type} (k : CTacAddr -> M A) (cb : CCodeBlock) :
  (DIM <- lift (as_CSymProc dim) ;;
   entrySize <- CAstFunctionCall.ToTac DIM
                  [idExpr; CAstConstant.ToTac (Z.of_nat i + 2)] ;;
   k entrySize) cb =
  (extent <- Spec.DIM dim idExpr (S (S i)) ;; k extent) cb.
Proof.
  unfold Spec.DIM, Spec.intrinsic.
  replace (Z.of_nat (S (S i))) with (Z.of_nat i + 2)%Z by lia.
  rewrite bind_assoc. reflexivity.
Qed.

(** The loop of the source, entered at index [i >= 1] with the offset
    [cur], is the second half of the specification's step for dimension
    [i + 1], followed by its steps for the dimensions after it. *)
Lemma offset_loop_accumulate (dim : option CSymbol) (idExpr : M CTacAddr)
      (index : list (M CTacAddr)) (N n i : nat) (cur : CTacAddr)
      (cb : CCodeBlock) :
  (S n + i = N)%nat ->
  CAstArrayDesignator.offset_loop dim idExpr index N (S n) i (Some cur) cb =
  (i_d <- Spec.index_or_zero index (S i) ;;
   sum <- CreateTemp CTypeManager.GetInt ;;
   AddInstr (Instr opAdd (Some (CTacTemp sum)) (Some cur) (Some i_d)) ;;;
   idx <- Spec.accumulate dim idExpr index (S (S i)) n (CTacTemp sum) ;;
   ret (Some idx)) cb.
Proof.
  revert i cur cb. induction n as [|n IH]; intros i cur cb HN.
  - simpl. rewrite !bind_assoc.
    unfold Spec.index_or_zero, CAstArrayDesignator.GetIndex.
    replace (S i - 1)%nat with i by lia.
    apply bind_cong; [reflexivity|]. intros prev cb1.
    rewrite !bind_assoc.
    apply bind_ext. intros next cb2. rewrite !bind_assoc.
    apply bind_ext. intros u cb3.
    unfold bind, ret.
    replace (i =? N - 1)%nat with true
      by (symmetry; apply Nat.eqb_eq; lia).
    reflexivity.
  - cbn [CAstArrayDesignator.offset_loop]. rewrite !bind_assoc.
    unfold Spec.index_or_zero, CAstArrayDesignator.GetIndex.
    replace (S i - 1)%nat with i by lia.
    apply bind_cong; [reflexivity|]. intros prev cb1.
    rewrite !bind_assoc.
    apply bind_ext. intros next cb2. rewrite !bind_assoc.
    apply bind_ext. intros u cb3.
    unfold bind at 1, ret at 1.
    replace (i =? N - 1)%nat with false
      by (symmetry; apply Nat.eqb_neq; lia).
    cbn [Spec.accumulate]. rewrite !bind_assoc.
    rewrite DIM_call_refines.
    apply bind_ext. intros extent cb4. rewrite !bind_assoc.
    apply bind_ext. intros scaled cb5. rewrite !bind_assoc.
    apply bind_ext. intros u' cb6.
    etransitivity;
      [exact (IH (S i) (CTacTemp scaled) cb6 ltac:(lia))|].
    rewrite !bind_assoc. reflexivity.
Qed.

Lemma offset_loop_first (dim : option CSymbol) (idExpr : M CTacAddr)
      (index : list (M CTacAddr)) (N : nat) (cb : CCodeBlock) :
  (1 <= N)%nat ->
  CAstArrayDesignator.offset_loop dim idExpr index N N 0 None cb =
  (i1 <- (match nth_error index 0 with
          | Some i => i
          | None => crash
          end) ;;
   idx <- Spec.accumulate dim idExpr index 2 (N - 1) i1 ;;
   ret (Some idx)) cb.
Proof.
  intros HN. destruct N as [|[|n]]; [lia| |].
  - simpl. unfold CAstArrayDesignator.GetIndex.
    apply bind_ext. intros i1 cb1. reflexivity.
  - cbn [CAstArrayDesignator.offset_loop Nat.sub Nat.eqb].
    unfold CAstArrayDesignator.GetIndex.
    apply bind_ext. intros i1 cb1.
    cbn [Spec.accumulate]. rewrite !bind_assoc.
    rewrite (DIM_call_refines dim idExpr 0).
    apply bind_ext. intros extent cb2. rewrite !bind_assoc.
    apply bind_ext. intros scaled cb3. rewrite !bind_assoc.
    apply bind_ext. intros u cb4.
    etransitivity;
      [exact (offset_loop_accumulate dim idExpr index (S (S n)) n 1
                (CTacTemp scaled) cb4 ltac:(lia))|].
    rewrite !bind_assoc. reflexivity.
Qed.

Lemma descriptor_array (symbol : CSymbol) (cb cb' : CCodeBlock)
      (base : CTacAddr) (array : M CTacAddr) (arr : CType) :
  Spec.descriptor symbol cb = Some ((base, array, arr), cb') ->
  (1 <= GetNDim arr)%nat.
Proof.
  unfold Spec.descriptor. intros H.
  assert (Harr : forall t a, CAstArrayDesignator.as_CArrayType t = Some a ->
                             (1 <= GetNDim a)%nat).
  { intros [[]|] a Ha; simpl in Ha; inversion Ha; subst; simpl; lia. }
  destruct (GetDataType symbol) as [| | | | b | n inner];
    unfold bind, ret, lift, CreateTemp, AddInstr in H; simpl in H;
    try discriminate.
  - destruct (CAstArrayDesignator.as_CArrayType b) as [a|] eqn:E;
      [|discriminate].
    inversion H; subst. apply (Harr _ _ E).
  - inversion H; subst. simpl. lia.
Qed.

(** The loop of the source and the steps of the specification give the
    same lowering, whatever the lowerings of the indices are. *)
Lemma ArrayDesignator_ToTac_refines (GetSize : CType -> Z)
      (symbol : CSymbol) (index : list (M CTacAddr)) (cb : CCodeBlock) :
  CAstArrayDesignator.ToTac GetSize symbol index cb =
  Spec.element_address GetSize symbol index cb.
Proof.
  unfold CAstArrayDesignator.ToTac, Spec.element_address.
  apply bind_ext. intros dim cb1.
  apply bind_ext. intros dofs cb2.
  etransitivity.
  - apply (descriptor_refines symbol
             (fun id idExpr dataType =>
                idx0 <- CAstArrayDesignator.offset_loop dim idExpr index
                          (GetNDim dataType) (GetNDim dataType) 0 None ;;
                tmp <- CreateTemp CTypeManager.GetInt ;;
                AddInstr (Instr opMul (Some (CTacTemp tmp)) idx0
                                (Some (CTacConst
                                         (GetSize (GetBaseType dataType))))) ;;;
                DOFS <- lift (as_CSymProc dofs) ;;
                ofs <- CAstFunctionCall.ToTac DOFS [idExpr] ;;
                tmp0 <- CreateTemp CTypeManager.GetInt ;;
                AddInstr (Instr opAdd (Some (CTacTemp tmp0))
                                (Some (CTacTemp tmp)) (Some ofs)) ;;;
                tmp1 <- CreateTemp CTypeManager.GetInt ;;
                AddInstr (Instr opAdd (Some (CTacTemp tmp1)) (Some id)
                                (Some (CTacTemp tmp0))) ;;;
                ret (CTacReference tmp1 symbol))).
  - apply bind_ext_run. intros [[base array] arr] cb3 Hd.
    apply descriptor_array in Hd.
    etransitivity.
    { apply bind_cong; [apply offset_loop_first, Hd | reflexivity]. }
    unfold Spec.DOFS, Spec.intrinsic.
    rewrite !bind_assoc.
    apply bind_ext. intros i1 cb4. rewrite !bind_assoc.
    apply bind_ext. intros idx1 cb5.
    unfold bind at 1, ret at 1.
    apply bind_ext. intros bytes cb6.
    apply bind_ext. intros u cb7.
    rewrite bind_assoc. reflexivity.
Qed.

(** C1: the lowering of an array designator is the address computation of
    the specification: the array's descriptor (its address, taken first
    when the symbol is no pointer), the first index, then for every further
    dimension [d] of the array the product with [DIM(array, d)] and the sum
    with the [d]-th index (the constant 0 when the designator has fewer
    indices), the product with the size of the element type, the sum with
    [DOFS(array)], the sum with the base address, and as result the
    Reference to the temporary of the last sum, tagged with the symbol of
    the designator.  Both abort on the same inputs (no index at all, a
    symbol that is no array, an intrinsic that is not declared). *)
Theorem C1_array_element_address (GetSize : CType -> Z) (t : CToken)
        (symbol : CSymbol) (idx : list CAstExpression) (cb : CCodeBlock) :
  ToTac GetSize (ArrayDesignator t symbol idx) cb =
  Spec.element_address GetSize symbol (map (ToTac GetSize) idx) cb.
Proof. simpl. apply ArrayDesignator_ToTac_refines. Qed.

(** The lowering of [a[i][j]] on [a : integer[3][4]]: the address of [a],
    [i], the call [DIM(&a, 2)], the product, [j], the sum, the product with
    the size 4 of an integer, the call [DOFS(&a)], and the two last sums. *)
Lemma element_address_of_a_i_j :
  let pa := TPointer (Some (TArray 3 (TArray 4 TInt))) in
  let tmp := fun n ty => CTacTemp (mkTemp n ty) in
  ToTac Sample.GetSize
        (ArrayDesignator (Sample.tok 1) Sample.a
                         [Designator (Sample.tok 1) Sample.i;
                          Designator (Sample.tok 1) Sample.j])
        Sample.cb =
  Some (CTacReference (mkTemp 9 TInt) Sample.a,
        mkCodeBlock (cb_symtab Sample.cb) 10 2
          [Instr opAddress (Some (tmp 0%nat pa))
                 (Some (CTacName Sample.a)) None;
           Spec.param 1 (CTacConst 2);
           Instr opAddress (Some (tmp 1%nat pa))
                 (Some (CTacName Sample.a)) None;
           Spec.param 0 (tmp 1%nat pa);
           Instr opCall (Some (tmp 2%nat TInt))
                 (Some (CTacName Sample.DIM)) None;
           Instr opMul (Some (tmp 3%nat TInt))
                 (Some (CTacName Sample.i)) (Some (tmp 2%nat TInt));
           Instr opAdd (Some (tmp 4%nat TInt))
                 (Some (tmp 3%nat TInt)) (Some (CTacName Sample.j));
           Instr opMul (Some (tmp 5%nat TInt))
                 (Some (tmp 4%nat TInt)) (Some (CTacConst 4));
           Instr opAddress (Some (tmp 6%nat pa))
                 (Some (CTacName Sample.a)) None;
           Spec.param 0 (tmp 6%nat pa);
           Instr opCall (Some (tmp 7%nat TInt))
                 (Some (CTacName Sample.DOFS)) None;
           Instr opAdd (Some (tmp 8%nat TInt))
                 (Some (tmp 5%nat TInt)) (Some (tmp 7%nat TInt));
           Instr opAdd (Some (tmp 9%nat TInt))
                 (Some (tmp 0%nat pa)) (Some (tmp 8%nat TInt))]).
Proof. reflexivity. Qed.

(** With one index on the same array the second index is the constant 0. *)
Lemma element_address_of_a_i :
  option_map (fun r => (fst r, nth_error (cb_ops (snd r)) 6))
    (ToTac Sample.GetSize
           (ArrayDesignator (Sample.tok 1) Sample.a
                            [Designator (Sample.tok 1) Sample.i])
           Sample.cb) =
  Some (CTacReference (mkTemp 9 TInt) Sample.a,
        Some (Instr opAdd (Some (CTacTemp (mkTemp 4 TInt)))
                    (Some (CTacTemp (mkTemp 3 TInt)))
                    (Some (CTacConst 0)))).
Proof. reflexivity. Qed.

(** Without any index the lowering aborts on [GetIndex(0)]. *)
Lemma element_address_without_index (GetSize : CType -> Z) (t : CToken)
      (symbol : CSymbol) (cb : CCodeBlock) :
  ToTac GetSize (ArrayDesignator t symbol []) cb = None.
Proof.
  simpl. rewrite ArrayDesignator_ToTac_refines.
  unfold Spec.element_address.
  unfold bind at 1, FindSymbol. unfold bind at 1.
  unfold bind at 1.
  destruct (Spec.descriptor symbol cb) as [[[[base array] arr] cb1]|];
    reflexivity.
Qed.

(** ** The lowering of an array element returns *)

Lemma total_ret {A : Type} (a : A) : total (ret a).
Proof. intros cb. discriminate. Qed.

Lemma total_bind {A B : Type} (m : M A) (k : A -> M B) :
  total m -> (forall a, total (k a)) -> total (bind m k).
Proof.
  intros Hm Hk cb. unfold bind.
  destruct (m cb) as [[a cb']|] eqn:E;
    [apply Hk | exfalso; apply (Hm cb E)].
Qed.

Lemma total_CreateTemp (ty : CType) : total (CreateTemp ty).
Proof. intros cb. discriminate. Qed.

Lemma total_AddInstr (i : CTacInstr) : total (AddInstr i).
Proof. intros cb. discriminate. Qed.

Lemma total_FunctionCall_ToTac (symbol : CSymbol)
      (arg : list (M CTacAddr)) :
  Forall total arg -> total (CAstFunctionCall.ToTac symbol arg).
Proof.
  intros Harg. unfold CAstFunctionCall.ToTac.
  apply total_bind.
  - assert (Hp : forall n, (n <= List.length arg)%nat ->
                           total (CAstFunctionCall.params arg n)).
    { induction n as [|n IH]; intros Hn; simpl; [apply total_ret|].
      apply total_bind.
      - unfold CAstFunctionCall.GetArg.
        destruct (nth_error arg n) as [a|] eqn:E;
          [|apply nth_error_None in E; lia].
        rewrite Forall_forall in Harg. apply Harg.
        apply (nth_error_In _ _ E).
      - intros a. apply total_bind; [apply total_AddInstr|].
        intros _. apply IH. lia. }
    apply Hp, le_n.
  - intros _. apply total_bind; [apply total_CreateTemp|]. intros retval.
    apply total_bind; [apply total_AddInstr|]. intros _. apply total_ret.
Qed.

Lemma total_accumulate (dim : CSymbol) (array : M CTacAddr)
      (index : list (M CTacAddr)) (d count : nat) (idx : CTacAddr) :
  GetSymbolType dim = stProcedure ->
  total array -> Forall total index -> (1 <= d)%nat ->
  total (Spec.accumulate (Some dim) array index d count idx).
Proof.
  intros Hdim Harr Hidx. revert d idx.
  induction count as [|count IH]; intros d idx Hd; simpl;
    [apply total_ret|].
  apply total_bind.
  - unfold Spec.DIM, Spec.intrinsic, as_CSymProc. rewrite Hdim.
    apply total_bind; [intros cb; discriminate|]. intros proc.
    apply total_FunctionCall_ToTac.
    apply Forall_cons; [exact Harr|].
    apply Forall_cons; [apply total_ret | apply Forall_nil].
  - intros extent. apply total_bind; [apply total_CreateTemp|].
    intros scaled. apply total_bind; [apply total_AddInstr|]. intros _.
    apply total_bind.
    + unfold Spec.index_or_zero.
      destruct (Nat.leb_spec d (List.length index)) as [Hle|_];
        [|apply total_ret].
      destruct (nth_error index (d - 1)) as [i|] eqn:E;
        [|apply nth_error_None in E; lia].
      rewrite Forall_forall in Hidx. apply Hidx, (nth_error_In _ _ E).
    + intros i_d. apply total_bind; [apply total_CreateTemp|].
      intros sum. apply total_bind; [apply total_AddInstr|]. intros _.
      apply IH. lia.
Qed.

Lemma total_bind_run {A B : Type} (m : M A) (k : A -> M B) :
  total m ->
  (forall cb a cb', m cb = Some (a, cb') -> total (k a)) ->
  total (bind m k).
Proof.
  intros Hm Hk cb. unfold bind.
  destruct (m cb) as [[a cb']|] eqn:E;
    [apply (Hk cb a cb' E) | exfalso; apply (Hm cb E)].
Qed.

Lemma total_descriptor (symbol : CSymbol) (arr : CType) :
  indexed_array symbol = Some arr ->
  IsArray arr = true ->
  total (Spec.descriptor symbol).
Proof.
  unfold indexed_array, Spec.descriptor. intros Harr Ha cb.
  destruct (GetDataType symbol) as [| | | | b | n inner];
    inversion Harr; subst; try discriminate.
  destruct arr; discriminate.
Qed.

Lemma descriptor_array_total (symbol : CSymbol) (cb cb' : CCodeBlock)
      (base : CTacAddr) (array : M CTacAddr) (arr : CType) :
  Spec.descriptor symbol cb = Some ((base, array, arr), cb') ->
  total array.
Proof.
  unfold Spec.descriptor. intros H.
  assert (Hd : total (CAstDesignator.ToTac symbol)) by apply total_ret.
  assert (Hs : forall ty, total (CAstSpecialOp.ToTac
                            (mkLowered (CAstDesignator.ToTac symbol)
                                       (CAstDesignator.ToTacCond symbol)
                                       (Some ty) None))).
  { intros ty. unfold CAstSpecialOp.ToTac; simpl.
    apply total_bind; [exact Hd|]. intros src.
    apply total_bind; [intros c; discriminate|]. intros ty'.
    apply total_bind; [apply total_CreateTemp|]. intros r.
    apply total_bind; [apply total_AddInstr|]. intros _. apply total_ret. }
  destruct (GetDataType symbol) as [| | | | b | n inner];
    unfold bind, ret, lift, CreateTemp, AddInstr in H; simpl in H;
    try discriminate.
  - destruct (CAstArrayDesignator.as_CArrayType b); [|discriminate].
    inversion H; subst. exact Hd.
  - inversion H; subst. apply Hs.
Qed.

(** What a lowering returns when it returns. *)
Lemma element_address_result (GetSize : CType -> Z) (symbol : CSymbol)
      (index : list (M CTacAddr)) (cb cb' : CCodeBlock) (a : CTacAddr) :
  Spec.element_address GetSize symbol index cb = Some (a, cb') ->
  a = CTacReference (mkTemp (cb_temp cb' - 1) TInt) symbol /\
  exists code base offset,
    cb_ops cb' =
      code ++ [Instr opAdd (Some (CTacTemp (mkTemp (cb_temp cb' - 1) TInt)))
                     (Some base) (Some (CTacTemp offset))].
Proof.
  unfold Spec.element_address. intros H.
  apply bind_Some in H as (dim & cb1 & _ & H).
  apply bind_Some in H as (dofs & cb2 & _ & H).
  apply bind_Some in H as ([[base array] arr] & cb3 & _ & H).
  apply bind_Some in H as (i1 & cb4 & _ & H).
  apply bind_Some in H as (idx & cb5 & _ & H).
  apply bind_Some in H as (bytes & cb6 & _ & H).
  apply bind_Some in H as (u1 & cb7 & _ & H).
  apply bind_Some in H as (ofs & cb8 & _ & H).
  apply bind_Some in H as (offset & cb9 & _ & H).
  apply bind_Some in H as (u2 & cb10 & _ & H).
  unfold bind, CreateTemp, AddInstr, ret in H. simpl in H.
  inversion H; subst; clear H. simpl.
  replace (cb_temp cb10 - 0)%nat with (cb_temp cb10) by lia.
  split; [reflexivity|]. eauto.
Qed.

(** The lowering of an array designator returns a Reference tagged with its
    symbol when the symbol is an array, or a pointer to one, the two
    intrinsics are declared as procedures, there is an index, and the
    lowering of every index returns. *)
Lemma array_element_address_total (GetSize : CType -> Z) (t : CToken)
      (symbol : CSymbol) (idx : list CAstExpression) (cb : CCodeBlock)
      (arr : CType) (dim dofs : CSymbol) :
  indexed_array symbol = Some arr ->
  IsArray arr = true ->
  lookup "DIM" (cb_symtab cb) = Some dim ->
  GetSymbolType dim = stProcedure ->
  lookup "DOFS" (cb_symtab cb) = Some dofs ->
  GetSymbolType dofs = stProcedure ->
  idx <> [] ->
  Forall (fun e => total (ToTac GetSize e)) idx ->
  exists cb',
    ToTac GetSize (ArrayDesignator t symbol idx) cb =
      Some (CTacReference (mkTemp (cb_temp cb' - 1) TInt) symbol, cb').
Proof.
  intros Harr Ha Hdim Pdim Hdofs Pdofs Hidx Htot.
  simpl. rewrite ArrayDesignator_ToTac_refines.
  destruct (Spec.element_address GetSize symbol (map (ToTac GetSize) idx) cb)
    as [[a cb']|] eqn:E.
  - exists cb'. apply element_address_result in E as [-> _]. reflexivity.
  - exfalso. revert E. unfold Spec.element_address.
    unfold bind at 1, FindSymbol at 1. rewrite Hdim.
    unfold bind at 1, FindSymbol at 1. simpl cb_symtab. rewrite Hdofs.
    assert (Hidx' : Forall total (map (ToTac GetSize) idx))
      by (rewrite Forall_map; exact Htot).
    apply total_bind_run; [apply (total_descriptor symbol arr Harr Ha)|].
    intros c [[base array] arr'] c' Hd.
    pose proof (descriptor_array_total _ _ _ _ _ _ Hd) as Harray.
    apply total_bind.
    { destruct idx as [|e idx]; [congruence|]. simpl.
      inversion Htot; subst. assumption. }
    intros i1. apply total_bind.
    { apply total_accumulate; try assumption. lia. }
    intros idx1. apply total_bind; [apply total_CreateTemp|]. intros bytes.
    apply total_bind; [apply total_AddInstr|]. intros _.
    apply total_bind.
    { unfold Spec.DOFS, Spec.intrinsic, as_CSymProc. rewrite Pdofs.
      apply total_bind; [intros c0; discriminate|]. intros proc.
      apply total_FunctionCall_ToTac.
      apply Forall_cons; [exact Harray | apply Forall_nil]. }
    intros ofs. apply total_bind; [apply total_CreateTemp|]. intros offset.
    apply total_bind; [apply total_AddInstr|]. intros _.
    apply total_bind; [apply total_CreateTemp|]. intros address.
    apply total_bind; [apply total_AddInstr|]. intros _. apply total_ret.
Qed.

(** * Further properties of the type checker and of the lowering *)

(** ** Labels: every jump has its label *)

Lemma placed_ids_app (c1 c2 : list CTacInstr) :
  placed_ids (c1 ++ c2) = placed_ids c1 ++ placed_ids c2.
Proof.
  induction c1 as [|[op d s1 s2|l] c1 IH]; simpl; [reflexivity | exact IH |].
  rewrite IH. reflexivity.
Qed.

Lemma placed_ids_In (n : nat) (code : list CTacInstr) :
  In n (placed_ids code) <->
  exists l, In (Label l) code /\ lbl_id l = n.
Proof.
  induction code as [|[op d s1 s2|l] code IH]; simpl.
  - split; [intros [] | intros (l & [] & _)].
  - rewrite IH. split; intros (l & Hl & E); exists l; split; auto.
    destruct Hl as [Hl | Hl]; [discriminate | exact Hl].
  - rewrite IH. split.
    + intros [E | (l' & Hl & E)]; [exists l; auto | exists l'; auto].
    + intros (l' & [Hl | Hl] & E).
      * inversion Hl; subst. left. reflexivity.
      * right. exists l'. auto.
Qed.

Lemma well_labelled_start (out : list CTacLabel) (cb : CCodeBlock) :
  well_labelled out [] cb cb.
Proof.
  split; [reflexivity|]. split; [lia|]. split; [lia|].
  exists []. rewrite app_nil_r. simpl.
  repeat split; try constructor; intros; contradiction.
Qed.

(** A step that leaves the instructions and the labels alone. *)
Lemma well_labelled_keep (out P : list CTacLabel) (cb0 cb cb' : CCodeBlock) :
  well_labelled out P cb0 cb ->
  cb_symtab cb' = cb_symtab cb ->
  (cb_temp cb <= cb_temp cb')%nat ->
  cb_label cb' = cb_label cb ->
  cb_ops cb' = cb_ops cb ->
  well_labelled out P cb0 cb'.
Proof.
  intros (S & T & L & c & O & F & N & HP & NP & J) Hs Ht Hl Ho.
  split; [congruence|]. split; [lia|]. split; [lia|].
  exists c. rewrite Ho, Hl. auto 10.
Qed.

Lemma hoare_ret {A : Type} (out P : list CTacLabel) (a : A) :
  hoare out P (ret a) P.
Proof.
  intros cb0 cb x cb' W H. inversion H; subst.
  split; [exact W | exists []; symmetry; apply app_nil_r].
Qed.

Lemma hoare_crash {A : Type} (out P P' : list CTacLabel) :
  hoare out P (@crash CCodeBlock A) P'.
Proof. intros cb0 cb x cb' W H. discriminate. Qed.

Lemma hoare_lift {A : Type} (out P : list CTacLabel) (o : option A) :
  hoare out P (lift o) P.
Proof.
  intros cb0 cb x cb' W H. unfold lift in H.
  destruct o; inversion H; subst.
  split; [exact W | exists []; symmetry; apply app_nil_r].
Qed.

Lemma hoare_bind {A B : Type} (out P Q R : list CTacLabel)
      (m : M A) (k : A -> M B) :
  hoare out P m Q -> (forall a, hoare out Q (k a) R) ->
  hoare out P (bind m k) R.
Proof.
  intros Hm Hk cb0 cb x cb' W H.
  apply bind_Some in H as (a & cb1 & H1 & H2).
  destruct (Hm cb0 cb a cb1 W H1) as [W1 [c1 E1]].
  destruct (Hk a cb0 cb1 x cb' W1 H2) as [W2 [c2 E2]].
  split; [exact W2|]. exists (c1 ++ c2).
  rewrite E2, E1, app_assoc. reflexivity.
Qed.

Lemma hoare_CreateTemp (out P : list CTacLabel) (ty : CType) :
  hoare out P (CreateTemp ty) P.
Proof.
  intros cb0 cb x cb' W H. inversion H; subst; clear H.
  split; [|exists []; symmetry; apply app_nil_r].
  apply (well_labelled_keep out P cb0 cb); simpl; auto.
Qed.

Lemma hoare_FindSymbol (out P : list CTacLabel) (name : string) :
  hoare out P (FindSymbol name) P.
Proof.
  intros cb0 cb x cb' W H. inversion H; subst.
  split; [exact W | exists []; symmetry; apply app_nil_r].
Qed.

Lemma hoare_AddInstr (out P : list CTacLabel) (op : EOperation)
      (dst src1 src2 : option CTacAddr) :
  (forall l, In l (jump_targets (Instr op dst src1 src2)) ->
             In l out \/ In l P) ->
  hoare out P (AddInstr (Instr op dst src1 src2)) P.
Proof.
  intros Ht cb0 cb x cb' (S & T & L & c & O & F & N & HP & NP & J) H.
  inversion H; subst; clear H.
  split; [|exists [Instr op dst src1 src2]; reflexivity].
  split; [exact S|]. split; [exact T|]. split; [exact L|]. simpl.
  exists (c ++ [Instr op dst src1 src2]).
  split; [rewrite O, app_assoc; reflexivity|].
  split; [|split; [|split; [|split]]].
  - intros l Hl. apply in_app_or in Hl as [Hl | [Hl | []]];
      [apply F, Hl | discriminate].
  - rewrite placed_ids_app. simpl. rewrite app_nil_r. exact N.
  - intros l Hl. rewrite placed_ids_app. simpl. rewrite app_nil_r.
    apply HP, Hl.
  - exact NP.
  - intros i l Hi Hl. apply in_app_or in Hi as [Hi | [<- | []]].
    + destruct (J i l Hi Hl) as [H1 | [H1 | H1]]; auto.
      right. right. apply in_or_app. left. exact H1.
    + destruct (Ht l Hl) as [H1 | H1]; auto.
Qed.

(** Placing a pending label takes it off the pending labels. *)
Lemma hoare_AddLabel (out P1 P2 : list CTacLabel) (l : CTacLabel) :
  hoare out (P1 ++ l :: P2) (AddInstr (Label l)) (P1 ++ P2).
Proof.
  intros cb0 cb x cb' (S & T & L & c & O & F & N & HP & NP & J) H.
  inversion H; subst; clear H.
  split; [|exists [Label l]; reflexivity].
  split; [exact S|]. split; [exact T|]. split; [exact L|]. simpl.
  exists (c ++ [Label l]).
  assert (Hl : In l (P1 ++ l :: P2)) by (apply in_elt).
  rewrite map_app in NP. simpl in NP.
  split; [rewrite O, app_assoc; reflexivity|].
  split; [|split; [|split; [|split]]].
  - intros l' Hl'. apply in_app_or in Hl' as [Hl' | [Hl' | []]];
      [apply F, Hl'|]. inversion Hl'; subst. apply HP, Hl.
  - rewrite placed_ids_app. simpl.
    apply NoDup_app; [exact N | constructor; [intros [] | constructor] |].
    intros n Hn [<- | []]. exact (proj2 (HP l Hl) Hn).
  - intros l' Hl'.
    assert (Hin : In l' (P1 ++ l :: P2)).
    { apply in_app_or in Hl' as [Hl' | Hl']; apply in_or_app;
        [left | right; right]; exact Hl'. }
    split; [apply HP, Hin|].
    rewrite placed_ids_app. simpl. intros Hc.
    apply in_app_or in Hc as [Hc | [Hc | []]]; [apply (HP l' Hin), Hc|].
    apply NoDup_remove_2 in NP. apply NP.
    rewrite <- map_app. rewrite Hc. apply in_map, Hl'.
  - rewrite map_app. apply NoDup_remove_1 in NP. exact NP.
  - intros i l0 Hi Hl0. apply in_app_or in Hi as [Hi | [<- | []]];
      [|destruct Hl0].
    destruct (J i l0 Hi Hl0) as [H1 | [H1 | H1]]; auto.
    + apply in_app_or in H1 as [H1 | [<- | H1]].
      * right. left. apply in_or_app. auto.
      * right. right. apply in_or_app. right. left. reflexivity.
      * right. left. apply in_or_app. auto.
    + right. right. apply in_or_app. left. exact H1.
Qed.

Lemma hoare_CreateLabel {A : Type} (out P R : list CTacLabel)
      (hint : string) (k : CTacLabel -> M A) :
  (forall l, hoare out (l :: P) (k l) R) ->
  hoare out P (bind (CreateLabel hint) k) R.
Proof.
  intros Hk cb0 cb x cb' (S & T & L & c & O & F & N & HP & NP & J) H.
  apply bind_Some in H as (l & cb1 & H1 & H2).
  inversion H1; subst; clear H1.
  refine (Hk _ cb0 _ x cb' _ H2).
  split; [exact S|]. split; [exact T|]. split; [simpl; lia|]. simpl.
  exists c. split; [exact O|].
  split; [|split; [|split; [|split]]].
  - intros l Hl. specialize (F l Hl). lia.
  - exact N.
  - intros l [<- | Hl]; simpl.
    + split; [lia|]. intros Hc. apply placed_ids_In in Hc as (l' & Hl' & E).
      specialize (F l' Hl'). lia.
    + destruct (HP l Hl) as [Hr Hn]. split; [lia | exact Hn].
  - simpl. constructor; [|exact NP].
    intros Hc. apply in_map_iff in Hc as (l' & E & Hl').
    destruct (HP l' Hl') as [Hr _]. lia.
  - intros i l Hi Hl.
    destruct (J i l Hi Hl) as [H1 | [H1 | H1]];
      [left | right; left; right | right; right]; exact H1.
Qed.

(** A label that is drawn and never used. *)
Lemma hoare_CreateLabel_unused {A : Type} (out P R : list CTacLabel)
      (hint : string) (k : CTacLabel -> M A) :
  (forall l, hoare out P (k l) R) ->
  hoare out P (bind (CreateLabel hint) k) R.
Proof.
  intros Hk cb0 cb x cb' W H.
  apply bind_Some in H as (l & cb1 & H1 & H2).
  inversion H1; subst; clear H1.
  refine (Hk _ cb0 _ x cb' _ H2).
  destruct W as (S & T & L & c & O & F & N & HP & NP & J).
  split; [exact S|]. split; [exact T|]. split; [simpl; lia|]. simpl.
  exists c. split; [exact O|].
  split; [|split; [|split; [|split]]]; auto.
  - intros l Hl. specialize (F l Hl). lia.
  - intros l Hl. destruct (HP l Hl) as [Hr Hn]. split; [lia | exact Hn].
Qed.

(** A closed lowering inside another one. *)
Lemma hoare_closed {A : Type} (out out' P : list CTacLabel) (m : M A) :
  closed out' m ->
  (forall l, In l out' -> In l out \/ In l P) ->
  hoare out P m P.
Proof.
  intros Hm Ho cb0 cb x cb' (S & T & L & c & O & F & N & HP & NP & J) H.
  destruct (Hm cb x cb' H)
    as (S' & T' & L' & c' & O' & F' & N' & _ & _ & J').
  split; [|exists c'; exact O'].
  split; [congruence|]. split; [lia|]. split; [lia|].
  exists (c ++ c'). split; [rewrite O', O, app_assoc; reflexivity|].
  split; [|split; [|split; [|split]]].
  - intros l Hl. apply in_app_or in Hl as [Hl | Hl].
    + specialize (F l Hl). lia.
    + specialize (F' l Hl). lia.
  - rewrite placed_ids_app. apply NoDup_app; try assumption.
    intros n H1 H2.
    apply placed_ids_In in H1 as (l1 & Hl1 & E1).
    apply placed_ids_In in H2 as (l2 & Hl2 & E2).
    specialize (F l1 Hl1). specialize (F' l2 Hl2). lia.
  - intros l Hl. destruct (HP l Hl) as [Hr Hn]. split; [lia|].
    rewrite placed_ids_app. intros Hc.
    apply in_app_or in Hc as [Hc | Hc]; [exact (Hn Hc)|].
    apply placed_ids_In in Hc as (l2 & Hl2 & E2).
    specialize (F' l2 Hl2). lia.
  - exact NP.
  - intros i l Hi Hl. apply in_app_or in Hi as [Hi | Hi].
    + destruct (J i l Hi Hl) as [H1 | [H1 | H1]]; auto.
      right. right. apply in_or_app. auto.
    + destruct (J' i l Hi Hl) as [H1 | [[] | H1]].
      * destruct (Ho l H1); auto.
      * right. right. apply in_or_app. auto.
Qed.

Lemma closed_of_hoare {A : Type} (out : list CTacLabel) (m : M A) :
  hoare out [] m [] -> closed out m.
Proof.
  intros H cb a cb' Hm.
  exact (proj1 (H cb cb a cb' (well_labelled_start out cb) Hm)).
Qed.

Lemma closed_weaken {A : Type} (out out' : list CTacLabel) (m : M A) :
  closed out m -> (forall l, In l out -> In l out') -> closed out' m.
Proof.
  intros H Hi. apply closed_of_hoare.
  apply (hoare_closed out' out [] m H). auto.
Qed.

Lemma closed_bind {A B : Type} (out : list CTacLabel) (m : M A)
      (k : A -> M B) :
  closed out m -> (forall a, closed out (k a)) -> closed out (bind m k).
Proof.
  intros Hm Hk. apply closed_of_hoare.
  apply hoare_bind with (Q := []).
  - apply (hoare_closed out out [] m Hm). auto.
  - intros a. apply (hoare_closed out out [] (k a) (Hk a)). auto.
Qed.

Lemma closed_ret {A : Type} (out : list CTacLabel) (a : A) :
  closed out (ret a).
Proof. apply closed_of_hoare, hoare_ret. Qed.

Lemma closed_crash {A : Type} (out : list CTacLabel) :
  closed out (@crash CCodeBlock A).
Proof. intros cb a cb' H. discriminate. Qed.

(** Once a label is placed, the code after it may jump back to it. *)
Lemma hoare_AddLabel_back {A : Type} (out P1 P2 R : list CTacLabel)
      (l : CTacLabel) (k : M A) :
  hoare (l :: out) (P1 ++ P2) k R ->
  hoare out (P1 ++ l :: P2) (bind (AddInstr (Label l)) (fun _ => k)) R.
Proof.
  intros Hk cb0 cb x cb' W H.
  apply bind_Some in H as (u & cb1 & H1 & H2).
  destruct (hoare_AddLabel out P1 P2 l cb0 cb u cb1 W H1) as [W1 [c1 E1]].
  assert (Hl : exists c, cb_ops cb1 = cb_ops cb0 ++ c /\ In (Label l) c).
  { inversion H1; subst; clear H1. simpl.
    destruct W as (_ & _ & _ & c & O & _). exists (c ++ [Label l]).
    split; [rewrite O, app_assoc; reflexivity|].
    apply in_or_app. right. left. reflexivity. }
  assert (W1' : well_labelled (l :: out) (P1 ++ P2) cb0 cb1).
  { destruct W1 as (S & T & L & c & O & F & N & HP & NP & J).
    split; [exact S|]. split; [exact T|]. split; [exact L|].
    exists c. repeat (split; [assumption|]).
    intros i l0 Hi Hl0.
    destruct (J i l0 Hi Hl0) as [H3 | [H3 | H3]];
      [left; right | right; left | right; right]; exact H3. }
  destruct (Hk cb0 cb1 x cb' W1' H2) as [W2 [c2 E2]].
  split; [|exists (c1 ++ c2); rewrite E2, E1, app_assoc; reflexivity].
  destruct W2 as (S & T & L & c & O & F & N & HP & NP & J).
  split; [exact S|]. split; [exact T|]. split; [exact L|].
  exists c. repeat (split; [assumption|]).
  intros i l0 Hi Hl0.
  destruct (J i l0 Hi Hl0) as [[<- | H3] | [H3 | H3]];
    [ | left; exact H3 | right; left; exact H3 | right; right; exact H3].
  right. right. destruct Hl as (c0 & E0 & Hin).
  rewrite E2, E0, <- app_assoc in O. apply app_inv_head in O. subst c.
  apply in_or_app. left. exact Hin.
Qed.

Lemma hoare_if {A : Type} (out P R : list CTacLabel) (b : bool)
      (m1 m2 : M A) :
  hoare out P m1 R -> hoare out P m2 R ->
  hoare out P (if b then m1 else m2) R.
Proof. destruct b; auto. Qed.

(** The continuation may rely on what the first step returned. *)
Lemma closed_bind_run {A B : Type} (out : list CTacLabel) (m : M A)
      (k : A -> M B) :
  closed out m ->
  (forall a cb cb', m cb = Some (a, cb') -> closed out (k a)) ->
  closed out (bind m k).
Proof.
  intros Hm Hk cb b cb' H.
  apply bind_Some in H as (a & cb1 & H1 & H2).
  assert (Hh : hoare out [] (k a) []).
  { apply (hoare_closed out out [] (k a) (Hk a cb cb1 H1)). auto. }
  exact (proj1 (Hh cb cb1 b cb' (Hm cb a cb1 H1) H2)).
Qed.

Ltac in_labels :=
  simpl; intros;
  repeat match goal with
         | H : _ \/ _ |- _ => destruct H
         | H : False |- _ => destruct H
         end;
  subst; simpl; tauto.

(** One step of a proof that a lowering is well labelled. *)
Ltac hoare_step :=
  match goal with
  | |- hoare _ _ (ret _) _ => apply hoare_ret
  | |- hoare _ _ crash _ => apply hoare_crash
  | |- hoare _ _ (lift _) _ => apply hoare_lift
  | |- hoare _ _ (bind (CreateLabel _) _) _ =>
      apply hoare_CreateLabel; intros ?
  | |- hoare _ _ (bind _ _) _ => eapply hoare_bind; [|intros ?]
  | |- hoare _ _ (CreateTemp _) _ => apply hoare_CreateTemp
  | |- hoare _ _ (FindSymbol _) _ => apply hoare_FindSymbol
  | |- hoare _ _ (AddInstr (Instr _ _ _ _)) _ =>
      apply hoare_AddInstr; in_labels
  | |- hoare _ _ (AddInstr (goto _)) _ =>
      apply hoare_AddInstr; in_labels
  | |- hoare _ _ (if _ then _ else _) _ => apply hoare_if
  end.

Lemma BinaryOp_ToTacCond_closed (oper : EOperation) (left right : Lowered)
      (lt lf : CTacLabel) :
  closed_child left -> closed_child right ->
  closed [lt; lf] (CAstBinaryOp.ToTacCond oper left right lt lf).
Proof.
  intros [Hl Hlc] [Hr Hrc]. apply closed_of_hoare.
  unfold CAstBinaryOp.ToTacCond.
  destruct (IsRelOp oper).
  - apply hoare_CreateLabel_unused; intros nextCond.
    eapply hoare_bind; [apply (hoare_closed _ [] _ _ Hl); in_labels|].
    intros leftTac.
    eapply hoare_bind; [apply (hoare_closed _ [] _ _ Hr); in_labels|].
    intros rightTac. repeat hoare_step.
  - apply hoare_CreateLabel; intros nextCond.
    destruct oper.
    all: eapply hoare_bind;
           [apply (hoare_closed _ _ _ _ (Hlc _ _)); in_labels|];
         intros ?;
         eapply hoare_bind; [apply (hoare_AddLabel _ [] []) |];
         intros ?;
         eapply hoare_bind;
           [apply (hoare_closed _ _ _ _ (Hrc _ _)); in_labels|];
         intros ?; apply hoare_ret.
Qed.

(** The code that turns a condition into a value: the three labels are
    placed once each. *)
Lemma materialise_closed {A : Type} (cond : CTacLabel -> CTacLabel -> M A)
      (ty : CType) :
  (forall lt lf, closed [lt; lf] (cond lt lf)) ->
  closed []
    (ltrue <- CreateLabel "" ;;
     lfalse <- CreateLabel "" ;;
     lend <- CreateLabel "" ;;
     cond ltrue lfalse ;;;
     val <- CreateTemp ty ;;
     AddInstr (Label ltrue) ;;;
     AddInstr (Instr opAssign (Some (CTacTemp val))
                     (Some (CTacConst 1)) None) ;;;
     AddInstr (goto lend) ;;;
     AddInstr (Label lfalse) ;;;
     AddInstr (Instr opAssign (Some (CTacTemp val))
                     (Some (CTacConst 0)) None) ;;;
     AddInstr (Label lend) ;;;
     ret (CTacTemp val)).
Proof.
  intros Hc. apply closed_of_hoare.
  apply hoare_CreateLabel; intros ltrue.
  apply hoare_CreateLabel; intros lfalse.
  apply hoare_CreateLabel; intros lend.
  eapply hoare_bind; [apply (hoare_closed _ _ _ _ (Hc _ _)); in_labels|].
  intros _.
  eapply hoare_bind; [apply hoare_CreateTemp|]. intros val.
  eapply hoare_bind; [apply (hoare_AddLabel _ [lend; lfalse] [])|].
  intros _. simpl.
  eapply hoare_bind; [hoare_step|]. intros _.
  eapply hoare_bind; [hoare_step|]. intros _.
  eapply hoare_bind; [apply (hoare_AddLabel _ [lend] [])|].
  intros _. simpl.
  eapply hoare_bind; [hoare_step|]. intros _.
  eapply hoare_bind; [apply (hoare_AddLabel _ [] [])|].
  intros _. simpl. apply hoare_ret.
Qed.

Lemma BinaryOp_ToTac_closed (oper : EOperation) (left right : Lowered) :
  closed_child left -> closed_child right ->
  closed [] (CAstBinaryOp.ToTac oper left right).
Proof.
  intros Hl Hr.
  assert (Hm : closed []
    (ltrue <- CreateLabel "" ;;
     lfalse <- CreateLabel "" ;;
     lend <- CreateLabel "" ;;
     CAstBinaryOp.ToTacCond oper left right ltrue lfalse ;;;
     val <- CreateTemp CTypeManager.GetBool ;;
     AddInstr (Label ltrue) ;;;
     AddInstr (Instr opAssign (Some (CTacTemp val))
                     (Some (CTacConst 1)) None) ;;;
     AddInstr (goto lend) ;;;
     AddInstr (Label lfalse) ;;;
     AddInstr (Instr opAssign (Some (CTacTemp val))
                     (Some (CTacConst 0)) None) ;;;
     AddInstr (Label lend) ;;;
     ret (CTacTemp val))).
  { apply materialise_closed. intros lt lf.
    apply BinaryOp_ToTacCond_closed; assumption. }
  assert (Ha : forall op, closed []
    (leftTac <- l_ToTac left ;;
     rightTac <- l_ToTac right ;;
     val <- CreateTemp CTypeManager.GetInt ;;
     AddInstr (Instr op (Some (CTacTemp val))
                     (Some leftTac) (Some rightTac)) ;;;
     ret (CTacTemp val))).
  { intros op. apply closed_bind; [apply Hl|]. intros leftTac.
    apply closed_bind; [apply Hr|]. intros rightTac.
    apply closed_of_hoare. repeat hoare_step. }
  destruct oper; try exact Hm; apply Ha.
Qed.

Lemma UnaryOp_ToTacCond_closed (oper : EOperation) (operand : Lowered)
      (lt lf : CTacLabel) :
  closed_child operand ->
  closed [lt; lf] (CAstUnaryOp.ToTacCond oper operand lt lf).
Proof.
  intros [_ Hc]. unfold CAstUnaryOp.ToTacCond.
  destruct oper; try apply closed_crash.
  apply closed_bind; [|intros; apply closed_ret].
  apply (closed_weaken [lf; lt]); [apply Hc | in_labels].
Qed.

Lemma UnaryOp_ToTac_closed (oper : EOperation) (operand : Lowered) :
  closed_child operand -> closed [] (CAstUnaryOp.ToTac oper operand).
Proof.
  intros Ho.
  assert (Hm : closed []
    (ltrue <- CreateLabel "" ;;
     lfalse <- CreateLabel "" ;;
     lend <- CreateLabel "" ;;
     CAstUnaryOp.ToTacCond oper operand ltrue lfalse ;;;
     val <- CreateTemp CTypeManager.GetBool ;;
     AddInstr (Label ltrue) ;;;
     AddInstr (Instr opAssign (Some (CTacTemp val))
                     (Some (CTacConst 1)) None) ;;;
     AddInstr (goto lend) ;;;
     AddInstr (Label lfalse) ;;;
     AddInstr (Instr opAssign (Some (CTacTemp val))
                     (Some (CTacConst 0)) None) ;;;
     AddInstr (Label lend) ;;;
     ret (CTacTemp val))).
  { apply materialise_closed. intros lt lf.
    apply UnaryOp_ToTacCond_closed; assumption. }
  assert (Ha : forall op, closed []
    (match l_number operand with
     | None =>
         operandTac <- l_ToTac operand ;;
         retval <- CreateTemp CTypeManager.GetInt ;;
         AddInstr (Instr op (Some (CTacTemp retval))
                         (Some operandTac) None) ;;;
         ret (CTacTemp retval)
     | Some value =>
         ret (CTacConst match op with
                        | opNeg => wrap_ll (- value)
                        | _ => value
                        end)
     end)).
  { intros op. destruct (l_number operand); [apply closed_ret|].
    apply closed_bind; [apply Ho|]. intros operandTac.
    apply closed_of_hoare. repeat hoare_step. }
  destruct oper; try exact Hm; apply Ha.
Qed.

Lemma SpecialOp_ToTac_closed (operand : Lowered) (out : list CTacLabel) :
  closed_child operand -> closed out (CAstSpecialOp.ToTac operand).
Proof.
  intros [Ho _]. unfold CAstSpecialOp.ToTac.
  apply closed_bind; [apply (closed_weaken []); [apply Ho | in_labels]|].
  intros src. apply closed_of_hoare. repeat hoare_step.
Qed.

Lemma GetArg_closed (arg : list (M CTacAddr)) (i : nat)
      (out : list CTacLabel) :
  Forall (closed []) arg ->
  closed out (match nth_error arg i with
              | Some a => a
              | None => crash
              end).
Proof.
  intros Ha. destruct (nth_error arg i) as [a|] eqn:E; [|apply closed_crash].
  apply (closed_weaken []); [|in_labels].
  rewrite Forall_forall in Ha. apply Ha. eapply nth_error_In, E.
Qed.

Lemma FunctionCall_params_closed (arg : list (M CTacAddr)) (n : nat)
      (out : list CTacLabel) :
  Forall (closed []) arg -> closed out (CAstFunctionCall.params arg n).
Proof.
  intros Ha. induction n as [|i IH]; simpl; [apply closed_ret|].
  apply closed_bind; [apply GetArg_closed, Ha|]. intros argTac.
  apply closed_bind; [|intros _; exact IH].
  apply closed_of_hoare. hoare_step.
Qed.

Lemma StatCall_params_closed (arg : list (M CTacAddr)) (n : nat)
      (out : list CTacLabel) :
  Forall (closed []) arg -> closed out (CAstStatCall.params arg n).
Proof.
  intros Ha. induction n as [|i IH]; simpl; [apply closed_ret|].
  apply closed_bind; [apply GetArg_closed, Ha|]. intros argTac.
  apply closed_bind; [|intros _; exact IH].
  apply closed_of_hoare. hoare_step.
Qed.

Lemma FunctionCall_ToTac_closed (symbol : CSymbol) (arg : list (M CTacAddr))
      (out : list CTacLabel) :
  Forall (closed []) arg -> closed out (CAstFunctionCall.ToTac symbol arg).
Proof.
  intros Ha. unfold CAstFunctionCall.ToTac.
  apply closed_bind; [apply FunctionCall_params_closed, Ha|]. intros _.
  apply closed_of_hoare. repeat hoare_step.
Qed.

Lemma FunctionCall_ToTacCond_closed (symbol : CSymbol)
      (arg : list (M CTacAddr)) (lt lf : CTacLabel) :
  Forall (closed []) arg ->
  closed [lt; lf] (CAstFunctionCall.ToTacCond symbol arg lt lf).
Proof.
  intros Ha. unfold CAstFunctionCall.ToTacCond.
  apply closed_bind; [apply FunctionCall_ToTac_closed, Ha|]. intros retval.
  apply closed_of_hoare. repeat hoare_step.
Qed.

Lemma Designator_ToTacCond_closed (symbol : CSymbol) (lt lf : CTacLabel) :
  closed [lt; lf] (CAstDesignator.ToTacCond symbol lt lf).
Proof.
  unfold CAstDesignator.ToTacCond, CAstDesignator.ToTac.
  apply closed_of_hoare. repeat hoare_step.
Qed.

Lemma Designator_closed_child (symbol : CSymbol) (ty : option CTypeP)
      (n : option Z) :
  closed_child (mkLowered (CAstDesignator.ToTac symbol)
                          (CAstDesignator.ToTacCond symbol) ty n).
Proof.
  split; simpl.
  - apply closed_ret.
  - intros lt lf. apply Designator_ToTacCond_closed.
Qed.

Lemma ArrayDesignator_offset_loop_closed (DIM_SYM : option CSymbol)
      (idExpr : M CTacAddr) (index : list (M CTacAddr))
      (iterateCount n i : nat) (idx : option CTacAddr)
      (out : list CTacLabel) :
  closed [] idExpr ->
  Forall (closed []) index ->
  closed out (CAstArrayDesignator.offset_loop DIM_SYM idExpr index
                iterateCount n i idx).
Proof.
  intros Hid Hi. revert i idx.
  induction n as [|n IH]; intros i idx; simpl; [apply closed_ret|].
  apply closed_bind.
  - destruct idx as [cur|]; [|apply GetArg_closed, Hi].
    apply closed_bind.
    + destruct (i <? List.length index)%nat;
        [apply GetArg_closed, Hi | apply closed_ret].
    + intros prev. apply closed_of_hoare. repeat hoare_step.
  - intros idx'. destruct (i =? iterateCount - 1)%nat; [apply closed_ret|].
    apply closed_bind; [apply closed_of_hoare; hoare_step|]. intros DIM.
    apply closed_bind.
    + apply FunctionCall_ToTac_closed.
      constructor; [apply Hid|]. constructor; [apply closed_ret|constructor].
    + intros entrySize.
      apply closed_bind; [apply closed_of_hoare; hoare_step|]. intros next.
      apply closed_bind; [apply closed_of_hoare; hoare_step|]. intros _.
      apply IH.
Qed.

Lemma ArrayDesignator_ToTac_closed (GetSize : CType -> Z) (symbol : CSymbol)
      (index : list (M CTacAddr)) (out : list CTacLabel) :
  Forall (closed []) index ->
  closed out (CAstArrayDesignator.ToTac GetSize symbol index).
Proof.
  intros Hi. unfold CAstArrayDesignator.ToTac.
  apply closed_bind; [apply closed_of_hoare; hoare_step|]. intros DIM_SYM.
  apply closed_bind; [apply closed_of_hoare; hoare_step|]. intros DOFS_SYM.
  assert (Hrest : forall (id : CTacAddr) (idExpr : M CTacAddr)
                         (dataType : option CType),
             closed [] idExpr ->
             closed out
               (dataType <- lift dataType ;;
                idx <- CAstArrayDesignator.offset_loop DIM_SYM idExpr index
                         (GetNDim dataType) (GetNDim dataType) 0 None ;;
                tmp <- CreateTemp CTypeManager.GetInt ;;
                AddInstr (Instr opMul (Some (CTacTemp tmp)) idx
                                (Some (CTacConst
                                         (GetSize (GetBaseType dataType))))) ;;;
                DOFS <- lift (as_CSymProc DOFS_SYM) ;;
                ofs <- CAstFunctionCall.ToTac DOFS [idExpr] ;;
                tmp0 <- CreateTemp CTypeManager.GetInt ;;
                AddInstr (Instr opAdd (Some (CTacTemp tmp0))
                                (Some (CTacTemp tmp)) (Some ofs)) ;;;
                tmp1 <- CreateTemp CTypeManager.GetInt ;;
                AddInstr (Instr opAdd (Some (CTacTemp tmp1)) (Some id)
                                (Some (CTacTemp tmp0))) ;;;
                ret (CTacReference tmp1 symbol))).
  { intros id idExpr dataType Hid.
    apply closed_bind; [apply closed_of_hoare; hoare_step|]. intros dt.
    apply closed_bind;
      [apply ArrayDesignator_offset_loop_closed; assumption|]. intros idx.
    apply closed_bind; [apply closed_of_hoare; hoare_step|]. intros tmp.
    apply closed_bind; [apply closed_of_hoare; hoare_step|]. intros _.
    apply closed_bind; [apply closed_of_hoare; hoare_step|]. intros DOFS.
    apply closed_bind.
    { apply FunctionCall_ToTac_closed. constructor; [apply Hid|constructor]. }
    intros ofs. apply closed_of_hoare. repeat hoare_step. }
  apply closed_bind_run.
  - destruct (IsPointer (GetDataType symbol));
      apply closed_of_hoare; repeat hoare_step.
  - intros [[id idExpr] dataType] cb cb' H.
    apply Hrest.
    destruct (IsPointer (GetDataType symbol)).
    + inversion H; subst. apply closed_ret.
    + apply bind_Some in H as (ptr & cb1 & _ & H).
      apply bind_Some in H as (u & cb2 & _ & H).
      inversion H; subst.
      apply SpecialOp_ToTac_closed, Designator_closed_child.
Qed.

Lemma ArrayDesignator_ToTacCond_closed (GetSize : CType -> Z)
      (symbol : CSymbol) (index : list (M CTacAddr)) (lt lf : CTacLabel) :
  Forall (closed []) index ->
  closed [lt; lf] (CAstArrayDesignator.ToTacCond GetSize symbol index lt lf).
Proof.
  intros Hi. unfold CAstArrayDesignator.ToTacCond.
  apply closed_bind; [apply ArrayDesignator_ToTac_closed, Hi|]. intros r.
  apply closed_of_hoare. repeat hoare_step.
Qed.

Lemma ToTac_closed_child (GetSize : CType -> Z) (e : CAstExpression) :
  closed_child (lowered GetSize e).
Proof.
  induction e using CAstExpression_tree_ind; unfold lowered.
  - split; simpl.
    + apply BinaryOp_ToTac_closed; assumption.
    + intros lt lf. apply BinaryOp_ToTacCond_closed; assumption.
  - split; simpl.
    + apply UnaryOp_ToTac_closed; assumption.
    + intros lt lf. apply UnaryOp_ToTacCond_closed; assumption.
  - split; simpl.
    + apply SpecialOp_ToTac_closed; assumption.
    + intros lt lf. apply closed_ret.
  - assert (Ha : Forall (closed []) (map (ToTac GetSize) arg)).
    { apply Forall_map. eapply Forall_impl; [|exact H].
      intros a [Ha _]. exact Ha. }
    split; simpl.
    + apply FunctionCall_ToTac_closed, Ha.
    + intros lt lf. apply FunctionCall_ToTacCond_closed, Ha.
  - apply Designator_closed_child.
  - assert (Ha : Forall (closed []) (map (ToTac GetSize) idx)).
    { apply Forall_map. eapply Forall_impl; [|exact H].
      intros a [Ha _]. exact Ha. }
    split; simpl.
    + apply ArrayDesignator_ToTac_closed, Ha.
    + intros lt lf. apply ArrayDesignator_ToTacCond_closed, Ha.
  - split; simpl.
    + apply closed_ret.
    + intros lt lf. unfold CAstConstant.ToTacCond.
      apply closed_of_hoare.
      eapply hoare_bind; [|intros ?; apply hoare_ret].
      destruct (negb (value =? 0)%Z); hoare_step.
  - split; simpl.
    + apply closed_ret.
    + intros lt lf. apply closed_ret.
Qed.

(** ** Statements *)

Lemma CAstStatement_tree_ind (P : CAstStatement -> Prop) :
  (forall t lhs rhs, P (StatAssign t lhs rhs)) ->
  (forall t tcall symbol arg, P (StatCall t tcall symbol arg)) ->
  (forall t scope expr, P (StatReturn t scope expr)) ->
  (forall t cond ifBody elseBody,
      Forall P ifBody -> Forall P elseBody ->
      P (StatIf t cond ifBody elseBody)) ->
  (forall t cond body, Forall P body -> P (StatWhile t cond body)) ->
  forall s, P s.
Proof.
  intros HA HC HR HI HW.
  fix IH 1. intros s.
  assert (HL : forall l, Forall P l).
  { induction l as [|x l IHl]; constructor; [apply IH | exact IHl]. }
  destruct s.
  - apply HA.
  - apply HC.
  - apply HR.
  - apply HI; apply HL.
  - apply HW; apply HL.
Qed.

Lemma lower_chain_closed (body : list (CTacLabel -> M (option CTacAddr)))
      (out : list CTacLabel) :
  Forall (fun s => forall next, closed [next] (s next)) body ->
  closed out (lower_chain body).
Proof.
  intros Hb. induction Hb as [|s rest Hs Hrest IH]; simpl;
    [apply closed_ret|].
  apply closed_of_hoare.
  apply hoare_CreateLabel; intros next.
  eapply hoare_bind; [apply (hoare_closed _ _ _ _ (Hs next)); in_labels|].
  intros _.
  eapply hoare_bind; [apply (hoare_AddLabel _ [] [])|]. intros _. simpl.
  apply (hoare_closed _ _ _ _ IH). in_labels.
Qed.

(** What a lowering returns. *)
Lemma returns_bind {A B : Type} (P : B -> Prop) (m : M A) (k : A -> M B) :
  (forall a cb b cb', k a cb = Some (b, cb') -> P b) ->
  forall cb b cb', bind m k cb = Some (b, cb') -> P b.
Proof.
  intros Hk cb b cb' H. apply bind_Some in H as (a & cb1 & _ & H).
  exact (Hk a cb1 b cb' H).
Qed.

Ltac returns_step :=
  match goal with
  | |- forall cb b cb', bind _ _ cb = Some (b, cb') -> _ =>
      apply returns_bind; intros ?; cbv beta
  | |- forall cb b cb', ret _ cb = Some (b, cb') -> _ =>
      let H := fresh in intros ? ? ? H; inversion H; subst; clear H
  | |- forall cb b cb', crash cb = Some (b, cb') -> _ =>
      intros ? ? ? ?; discriminate
  end.

(** The value of an expression is a name, a constant, a temporary or a
    reference, never a label. *)
Lemma ToTac_not_label (GetSize : CType -> Z) (e : CAstExpression)
      (cb cb' : CCodeBlock) (a : CTacAddr) (l : CTacLabel) :
  ToTac GetSize e cb = Some (a, cb') -> a <> CTacLabelRef l.
Proof.
  revert cb a cb'. destruct e; simpl.
  - unfold CAstBinaryOp.ToTac. destruct oper; repeat returns_step;
      congruence.
  - unfold CAstUnaryOp.ToTac. cbn [l_number].
    destruct oper; try destruct (as_CAstConstant e); repeat returns_step;
      congruence.
  - unfold CAstSpecialOp.ToTac. repeat returns_step. congruence.
  - unfold CAstFunctionCall.ToTac. repeat returns_step. congruence.
  - unfold CAstDesignator.ToTac. repeat returns_step. congruence.
  - unfold CAstArrayDesignator.ToTac.
    apply returns_bind; intros DIM_SYM; cbv beta.
    apply returns_bind; intros DOFS_SYM; cbv beta.
    apply returns_bind; intros [[id idExpr] dataType]; cbv beta.
    repeat returns_step. congruence.
  - unfold CAstConstant.ToTac. repeat returns_step. congruence.
  - unfold CAstStringConstant.ToTac. repeat returns_step. congruence.
Qed.

Lemma StatAssign_ToTac_closed (lhs rhs : M CTacAddr) (next : CTacLabel) :
  closed [] lhs -> closed [] rhs ->
  (forall cb a cb' l, lhs cb = Some (a, cb') -> a <> CTacLabelRef l) ->
  closed [next] (CAstStatAssign.ToTac lhs rhs next).
Proof.
  intros Hl Hr Hn. unfold CAstStatAssign.ToTac.
  apply closed_bind; [apply (closed_weaken []); [exact Hr | in_labels]|].
  intros src.
  apply closed_bind_run;
    [apply (closed_weaken []); [exact Hl | in_labels]|].
  intros dst cb cb' Hd. apply closed_of_hoare.
  eapply hoare_bind; [|intros ?; repeat hoare_step].
  apply hoare_AddInstr. intros l Hin.
  destruct dst as [s|z|tmp|tmp s|l0]; simpl in Hin; try contradiction.
  exfalso. exact (Hn cb _ cb' l0 Hd eq_refl).
Qed.

Lemma StatCall_ToTac_closed (symbol : CSymbol) (arg : list (M CTacAddr))
      (next : CTacLabel) :
  Forall (closed []) arg ->
  closed [next] (CAstStatCall.ToTac symbol arg next).
Proof.
  intros Ha. unfold CAstStatCall.ToTac.
  apply closed_bind; [apply StatCall_params_closed, Ha|]. intros _.
  apply closed_bind_run.
  - apply closed_of_hoare. repeat hoare_step.
  - intros tmp cb cb' Ht.
    assert (Hn : forall l, tmp <> Some (CTacLabelRef l)).
    { intros l. destruct (negb (IsNull (GetDataType symbol))).
      - apply bind_Some in Ht as (t & cb1 & _ & Ht). inversion Ht. congruence.
      - inversion Ht. congruence. }
    apply closed_of_hoare.
    eapply hoare_bind; [|intros ?; repeat hoare_step].
    apply hoare_AddInstr. intros l Hin.
    destruct tmp as [[s|z|t|t s|l0]|]; simpl in Hin; try contradiction.
    exfalso. exact (Hn l0 eq_refl).
Qed.

Lemma StatReturn_ToTac_closed (e : option (M CTacAddr)) (next : CTacLabel) :
  match e with Some ex => closed [] ex | None => True end ->
  closed [next] (CAstStatReturn.ToTac e next).
Proof.
  intros He. unfold CAstStatReturn.ToTac.
  apply closed_bind.
  - destruct e as [ex|]; [|apply closed_ret].
    apply closed_bind; [|intros; apply closed_ret].
    apply (closed_weaken []); [exact He | in_labels].
  - intros retval. apply closed_of_hoare. repeat hoare_step.
Qed.

Lemma StatIf_ToTac_closed
      (cond : CTacLabel -> CTacLabel -> M (option CTacAddr))
      (ifBody elseBody : list (CTacLabel -> M (option CTacAddr)))
      (next : CTacLabel) :
  (forall lt lf, closed [lt; lf] (cond lt lf)) ->
  Forall (fun s => forall next, closed [next] (s next)) ifBody ->
  Forall (fun s => forall next, closed [next] (s next)) elseBody ->
  closed [next] (CAstStatIf.ToTac cond ifBody elseBody next).
Proof.
  intros Hc Hi He. unfold CAstStatIf.ToTac. apply closed_of_hoare.
  apply hoare_CreateLabel; intros nextTrue.
  apply hoare_CreateLabel; intros nextFalse.
  eapply hoare_bind; [apply (hoare_closed _ _ _ _ (Hc _ _)); in_labels|].
  intros _.
  eapply hoare_bind; [apply (hoare_AddLabel _ [nextFalse] [])|].
  intros _. simpl.
  eapply hoare_bind;
    [apply (hoare_closed _ [] _ _ (lower_chain_closed _ _ Hi)); in_labels|].
  intros _.
  eapply hoare_bind; [hoare_step|]. intros _.
  eapply hoare_bind; [apply (hoare_AddLabel _ [] [])|].
  intros _. simpl.
  eapply hoare_bind;
    [apply (hoare_closed _ [] _ _ (lower_chain_closed _ _ He)); in_labels|].
  intros _. repeat hoare_step.
Qed.

Lemma StatWhile_ToTac_closed
      (cond : CTacLabel -> CTacLabel -> M (option CTacAddr))
      (bodyStat : list (CTacLabel -> M (option CTacAddr)))
      (next : CTacLabel) :
  (forall lt lf, closed [lt; lf] (cond lt lf)) ->
  Forall (fun s => forall next, closed [next] (s next)) bodyStat ->
  closed [next] (CAstStatWhile.ToTac cond bodyStat next).
Proof.
  intros Hc Hb. unfold CAstStatWhile.ToTac. apply closed_of_hoare.
  apply hoare_CreateLabel; intros cond_.
  apply hoare_CreateLabel; intros body.
  apply (hoare_AddLabel_back _ [body] []). simpl.
  eapply hoare_bind; [apply (hoare_closed _ _ _ _ (Hc _ _)); in_labels|].
  intros _.
  eapply hoare_bind; [apply (hoare_AddLabel _ [] [])|].
  intros _. simpl.
  eapply hoare_bind;
    [apply (hoare_closed _ [] _ _ (lower_chain_closed _ _ Hb)); in_labels|].
  intros _. repeat hoare_step.
Qed.

Lemma StatToTac_closed (GetSize : CType -> Z) (s : CAstStatement)
      (next : CTacLabel) :
  closed [next] (StatToTac GetSize s next).
Proof.
  revert next. induction s using CAstStatement_tree_ind; intros next; simpl.
  - apply StatAssign_ToTac_closed; try apply (ToTac_closed_child GetSize).
    intros cb a cb' l. apply ToTac_not_label.
  - apply StatCall_ToTac_closed. apply Forall_map, Forall_forall.
    intros a _. apply (ToTac_closed_child GetSize a).
  - apply StatReturn_ToTac_closed. destruct expr as [e|]; simpl; [|exact I].
    apply (ToTac_closed_child GetSize e).
  - apply StatIf_ToTac_closed.
    + intros lt lf. apply (ToTac_closed_child GetSize cond).
    + apply Forall_map. exact H.
    + apply Forall_map. exact H0.
  - apply StatWhile_ToTac_closed.
    + intros lt lf. apply (ToTac_closed_child GetSize cond).
    + apply Forall_map. exact H.
Qed.

(** The last instruction of a lowering. *)
Lemma appends_closed {A : Type} (out : list CTacLabel) (m : M A) :
  closed out m -> appends m.
Proof.
  intros Hm cb a cb' H.
  destruct (Hm cb a cb' H) as (_ & _ & _ & c & O & _). exists c. exact O.
Qed.

Lemma appends_CreateLabel (hint : string) : appends (CreateLabel hint).
Proof.
  intros cb a cb' H. inversion H; subst. exists []. simpl.
  symmetry. apply app_nil_r.
Qed.

Lemma appends_AddInstr (i : CTacInstr) : appends (AddInstr i).
Proof. intros cb a cb' H. inversion H; subst. exists [i]. reflexivity. Qed.

Lemma ends_with_bind {A B : Type} (i : CTacInstr) (m : M A) (k : A -> M B) :
  appends m -> (forall a, ends_with i (k a)) -> ends_with i (bind m k).
Proof.
  intros Hm Hk cb b cb' H. apply bind_Some in H as (a & cb1 & H1 & H2).
  destruct (Hm cb a cb1 H1) as [c1 E1].
  destruct (Hk a cb1 b cb' H2) as [c2 E2].
  exists (c1 ++ c2). rewrite E2, E1, <- !app_assoc. reflexivity.
Qed.

Lemma ends_with_AddInstr {A : Type} (i : CTacInstr) (a : A) :
  ends_with i (AddInstr i ;;; ret a).
Proof.
  intros cb b cb' H. apply bind_Some in H as (u & cb1 & H1 & H2).
  inversion H1; subst. inversion H2; subst. simpl.
  exists []. reflexivity.
Qed.

Lemma StatToTacs_closed (GetSize : CType -> Z) (l : list CAstStatement) :
  Forall (fun s => forall next, closed [next] (s next))
         (map (StatToTac GetSize) l).
Proof.
  apply Forall_map, Forall_forall. intros s _ next. apply StatToTac_closed.
Qed.

Ltac appends_step :=
  first [ apply appends_CreateLabel
        | apply appends_AddInstr
        | eapply appends_closed; apply (ToTac_closed_child _ _)
        | apply (appends_closed []);
          apply lower_chain_closed, StatToTacs_closed ].

Lemma StatToTac_ends (GetSize : CType -> Z) (s : CAstStatement)
      (next : CTacLabel) :
  ends_with (goto next) (StatToTac GetSize s next).
Proof.
  destruct s; simpl.
  - unfold CAstStatAssign.ToTac.
    do 3 (apply ends_with_bind; [appends_step | intros ?]).
    apply ends_with_AddInstr.
  - unfold CAstStatCall.ToTac.
    apply ends_with_bind; [|intros ?].
    { eapply appends_closed. apply (StatCall_params_closed _ _ []).
      apply Forall_map, Forall_forall. intros a _.
      apply (ToTac_closed_child GetSize a). }
    apply ends_with_bind; [|intros ?].
    { eapply appends_closed. apply (closed_of_hoare []).
      repeat hoare_step. }
    apply ends_with_bind; [appends_step | intros ?].
    apply ends_with_AddInstr.
  - unfold CAstStatReturn.ToTac.
    apply ends_with_bind; [|intros ?].
    { destruct expr as [e|]; simpl.
      - eapply appends_closed. apply (closed_bind []);
          [apply (ToTac_closed_child GetSize e) | intros; apply closed_ret].
      - eapply appends_closed. apply (closed_ret []). }
    apply ends_with_bind; [appends_step | intros ?].
    apply ends_with_AddInstr.
  - unfold CAstStatIf.ToTac.
    do 8 (apply ends_with_bind; [appends_step | intros ?]).
    apply ends_with_AddInstr.
  - unfold CAstStatWhile.ToTac.
    do 7 (apply ends_with_bind; [appends_step | intros ?]).
    apply ends_with_AddInstr.
Qed.

Lemma StatToTac_returns_null (GetSize : CType -> Z) (s : CAstStatement)
      (next : CTacLabel) (cb cb' : CCodeBlock) (a : option CTacAddr) :
  StatToTac GetSize s next cb = Some (a, cb') -> a = None.
Proof.
  assert (Hlast : forall (i : CTacInstr) c c' (x : option CTacAddr),
             (AddInstr i ;;; ret None) c = Some (x, c') -> x = None).
  { intros i c c' x H. apply bind_Some in H as (u & c1 & _ & H).
    inversion H. reflexivity. }
  destruct s; simpl; intros H.
  - unfold CAstStatAssign.ToTac in H.
    do 3 (apply bind_Some in H as (? & ? & _ & H)). eapply Hlast, H.
  - unfold CAstStatCall.ToTac in H.
    do 3 (apply bind_Some in H as (? & ? & _ & H)). eapply Hlast, H.
  - unfold CAstStatReturn.ToTac in H.
    do 2 (apply bind_Some in H as (? & ? & _ & H)). eapply Hlast, H.
  - unfold CAstStatIf.ToTac in H.
    do 8 (apply bind_Some in H as (? & ? & _ & H)). eapply Hlast, H.
  - unfold CAstStatWhile.ToTac in H.
    do 7 (apply bind_Some in H as (? & ? & _ & H)). eapply Hlast, H.
Qed.

(** ** The type checker writes its diagnostic and never reads it *)

Lemma fixed_crash : fixed_outcome (@crash Diag bool).
Proof. left. reflexivity. Qed.

Lemma fixed_ret_true : fixed_outcome (ret true).
Proof. right. left. reflexivity. Qed.

Lemma fixed_report (tok : CToken) (i : MsgItem) (m : Message) :
  fixed_outcome (report tok (i :: m)).
Proof.
  right. right. exists false, (mkDiag tok (i :: m)).
  split; [discriminate | reflexivity].
Qed.

Lemma fixed_ext (m m' : TC bool) :
  (forall d, m d = m' d) -> fixed_outcome m -> fixed_outcome m'.
Proof.
  intros E [H | [H | (b & d' & Hn & H)]].
  - left. intros d. rewrite <- E. apply H.
  - right. left. intros d. rewrite <- E. apply H.
  - right. right. exists b, d'. split; [exact Hn|].
    intros d. rewrite <- E. apply H.
Qed.

(** A check followed by another one, with the answer [b] when the first
    failed. *)
Lemma fixed_seq (m k : TC bool) (b : bool) :
  fixed_outcome m -> fixed_outcome k ->
  fixed_outcome (ok <- m ;; if negb ok then ret b else k).
Proof.
  intros [Hm | [Hm | (b0 & d0 & Hn & Hm)]] Hk.
  - left. intros d. unfold bind. rewrite Hm. reflexivity.
  - apply (fixed_ext k); [|exact Hk].
    intros d. unfold bind. rewrite Hm. reflexivity.
  - destruct b0.
    + destruct Hk as [Hk | [Hk | (b1 & d1 & Hn1 & Hk)]].
      * left. intros d. unfold bind. rewrite Hm. simpl. apply Hk.
      * right. right. exists true, d0. split; [exact Hn|].
        intros d. unfold bind. rewrite Hm. simpl. apply Hk.
      * right. right. exists b1, d1. split; [exact Hn1|].
        intros d. unfold bind. rewrite Hm. simpl. apply Hk.
    + right. right. exists b, d0. split; [exact Hn|].
      intros d. unfold bind. rewrite Hm. reflexivity.
Qed.

Lemma fixed_lift {A : Type} (o : option A) (k : A -> TC bool) :
  (forall a, o = Some a -> fixed_outcome (k a)) ->
  fixed_outcome (bind (lift o) k).
Proof.
  intros Hk. destruct o as [a|]; [|left; reflexivity].
  apply (fixed_ext (k a)); [reflexivity | apply Hk; reflexivity].
Qed.

Ltac fixed_leaf :=
  repeat match goal with
         | |- fixed_outcome (ret true) => apply fixed_ret_true
         | |- fixed_outcome (report _ _) => apply fixed_report
         | |- fixed_outcome crash => apply fixed_crash
         | |- fixed_outcome (bind (lift _) _) =>
             apply fixed_lift; intros ? ?
         | |- fixed_outcome (if ?c then _ else _) => destruct c
         | |- fixed_outcome (match ?x with _ => _ end) => destruct x
         end.

Lemma BinaryOp_TypeCheck_fixed (token : CToken) (oper : EOperation)
      (lhs rhs : Checked) :
  fixed_outcome (c_TypeCheck lhs) -> fixed_outcome (c_TypeCheck rhs) ->
  fixed_outcome (CAstBinaryOp.TypeCheck token oper lhs rhs).
Proof.
  intros Hl Hr. unfold CAstBinaryOp.TypeCheck.
  apply fixed_seq; [exact Hl|]. apply fixed_seq; [exact Hr|].
  fixed_leaf.
Qed.

Lemma UnaryOp_TypeCheck_fixed (token : CToken) (oper : EOperation)
      (operand : Checked) (number : bool) :
  fixed_outcome (c_TypeCheck operand) ->
  fixed_outcome (CAstUnaryOp.TypeCheck token oper operand number).
Proof.
  intros Ho. unfold CAstUnaryOp.TypeCheck.
  set (b := match oper with
            | opNeg => number
            | _ => false
            end).
  refine (fixed_ext _ _ _ (fixed_seq (c_TypeCheck operand) _ b Ho _)).
  - intros d. apply bind_ext. intros ok d1.
    destruct ok; simpl; [reflexivity|].
    unfold b. destruct oper; try reflexivity. destruct number; reflexivity.
  - fixed_leaf.
Qed.

Lemma SpecialOp_TypeCheck_fixed (oper : EOperation) (operand : Checked) :
  fixed_outcome (c_TypeCheck operand) ->
  fixed_outcome (CAstSpecialOp.TypeCheck oper operand).
Proof.
  intros Ho. unfold CAstSpecialOp.TypeCheck.
  apply fixed_seq; [exact Ho|]. fixed_leaf.
Qed.

Lemma check_args_fixed (proc : CSymbol) (rest : list Checked) (i : nat) :
  Forall (fun c => fixed_outcome (c_TypeCheck c)) rest ->
  fixed_outcome (CAstFunctionCall.check_args proc rest i).
Proof.
  intros Hr. revert i.
  induction Hr as [|expr rest He Hrest IH]; intros i; simpl;
    [apply fixed_ret_true|].
  apply fixed_lift. intros paramType _.
  apply fixed_seq; [exact He|].
  apply fixed_lift. intros ty _.
  destruct ty as [et|]; [|apply fixed_report].
  destruct (negb (Match paramType et)); [apply fixed_report | apply IH].
Qed.

Lemma FunctionCall_TypeCheck_fixed (token : CToken) (symbol : CSymbol)
      (arg : list Checked) :
  Forall (fun c => fixed_outcome (c_TypeCheck c)) arg ->
  fixed_outcome (CAstFunctionCall.TypeCheck token symbol arg).
Proof.
  intros Ha. unfold CAstFunctionCall.TypeCheck.
  destruct (negb (List.length arg =? GetNParams symbol)%nat);
    [apply fixed_report | apply check_args_fixed, Ha].
Qed.

Lemma check_indices_fixed (rest : list Checked) :
  Forall (fun c => fixed_outcome (c_TypeCheck c)) rest ->
  fixed_outcome (CAstArrayDesignator.check_indices rest).
Proof.
  intros Hr. induction Hr as [|expr rest He Hrest IH]; simpl;
    [apply fixed_ret_true|].
  apply fixed_seq; [exact He|].
  apply fixed_lift. intros ty _.
  destruct ty as [et|]; [|apply fixed_report].
  destruct (negb (Match et CTypeManager.GetInt));
    [apply fixed_report | apply IH].
Qed.

Lemma ArrayDesignator_TypeCheck_fixed (idx : list Checked) :
  Forall (fun c => fixed_outcome (c_TypeCheck c)) idx ->
  fixed_outcome (CAstArrayDesignator.TypeCheck idx).
Proof.
  intros Hi. unfold CAstArrayDesignator.TypeCheck.
  apply fixed_seq; [apply check_indices_fixed, Hi | apply fixed_ret_true].
Qed.

Lemma TypeCheck_fixed (e : CAstExpression) : fixed_outcome (TypeCheck e).
Proof.
  induction e using CAstExpression_tree_ind; simpl.
  - apply BinaryOp_TypeCheck_fixed; assumption.
  - apply UnaryOp_TypeCheck_fixed; assumption.
  - apply SpecialOp_TypeCheck_fixed; assumption.
  - apply FunctionCall_TypeCheck_fixed, Forall_map. exact H.
  - unfold CAstDesignator.TypeCheck. fixed_leaf.
  - apply ArrayDesignator_TypeCheck_fixed, Forall_map. exact H.
  - unfold CAstConstant.TypeCheck. fixed_leaf.
  - unfold CAstStringConstant.TypeCheck. fixed_leaf.
Qed.

Lemma check_chain_fixed (body : list (TC bool)) :
  Forall fixed_outcome body -> fixed_outcome (check_chain body).
Proof.
  intros Hb. induction Hb as [|s rest Hs Hrest IH]; simpl;
    [apply fixed_ret_true|].
  apply fixed_seq; assumption.
Qed.

Lemma condition_fixed (cond : Checked) (k : TC bool) :
  fixed_outcome (c_TypeCheck cond) -> fixed_outcome k ->
  fixed_outcome
    (ok <- c_TypeCheck cond ;;
     if negb ok then ret false else
     ty <- lift (c_GetType cond) ;;
     if negb (match ty with
              | Some t => Match t CTypeManager.GetBool
              | None => false
              end) then
       report (c_token cond)
         [Str "condition should be bool type, but "; show_type ty;
          Str " appeared"; Endl]
     else k).
Proof.
  intros Hc Hk. apply fixed_seq; [exact Hc|].
  apply fixed_lift. intros ty _.
  destruct (negb _); [apply fixed_report | exact Hk].
Qed.

Lemma StatTypeCheck_fixed (s : CAstStatement) :
  fixed_outcome (StatTypeCheck s).
Proof.
  induction s using CAstStatement_tree_ind; simpl.
  - unfold CAstStatAssign.TypeCheck.
    apply fixed_seq; [apply TypeCheck_fixed|].
    apply fixed_seq; [apply TypeCheck_fixed|]. fixed_leaf.
  - unfold CAstStatCall.TypeCheck.
    apply (TypeCheck_fixed (FunctionCall tcall symbol arg)).
  - unfold CAstStatReturn.TypeCheck.
    destruct (Match _ _); destruct expr as [e|]; simpl;
      try apply fixed_report; try apply fixed_ret_true.
    apply fixed_seq; [apply TypeCheck_fixed|]. fixed_leaf.
  - unfold CAstStatIf.TypeCheck.
    apply condition_fixed; [apply TypeCheck_fixed|].
    apply fixed_seq; [apply check_chain_fixed, Forall_map; exact H|].
    apply fixed_seq; [apply check_chain_fixed, Forall_map; exact H0|].
    apply fixed_ret_true.
  - unfold CAstStatWhile.TypeCheck.
    apply condition_fixed; [apply TypeCheck_fixed|].
    apply fixed_seq; [apply check_chain_fixed, Forall_map; exact H|].
    apply fixed_ret_true.
Qed.

(** The loops of [CAstScope::TypeCheck] stop at the first failure, as the
    loops over the bodies of [if] and [while] do. *)
Lemma check_while_false (rest : list (TC bool)) (d : Diag) :
  CAstScope.check_while false rest d = Some (false, d).
Proof. destruct rest; reflexivity. Qed.

Lemma check_while_chain (rest : list (TC bool)) (d : Diag) :
  CAstScope.check_while true rest d = check_chain rest d.
Proof.
  revert d. induction rest as [|st rest IH]; intros d; simpl;
    [reflexivity|].
  apply bind_ext. intros ok d1. destruct ok; simpl;
    [apply IH | apply check_while_false].
Qed.

Lemma Scope_TypeCheck_chain (statseq children : list (TC bool)) (d : Diag) :
  CAstScope.TypeCheck statseq children d =
  (ok <- check_chain statseq ;;
   if negb ok then ret false else check_chain children) d.
Proof.
  unfold CAstScope.TypeCheck.
  apply bind_cong; [apply check_while_chain|].
  intros ok d1. destruct ok; simpl;
    [apply check_while_chain | apply check_while_false].
Qed.

Lemma CAstScope_tree_ind (P : CAstScope -> Prop) :
  (forall t name statseq children,
      Forall P children -> P (Scope t name statseq children)) ->
  forall sc, P sc.
Proof.
  intros HS. fix IH 1. intros [t name statseq children].
  apply HS. induction children as [|c cs IHc]; constructor;
    [apply IH | exact IHc].
Qed.

Lemma ScopeTypeCheck_fixed (sc : CAstScope) :
  fixed_outcome (ScopeTypeCheck sc).
Proof.
  induction sc using CAstScope_tree_ind. simpl.
  eapply fixed_ext; [intros d; symmetry; apply Scope_TypeCheck_chain|].
  apply fixed_seq.
  - apply check_chain_fixed, Forall_map, Forall_forall.
    intros s _. apply StatTypeCheck_fixed.
  - apply check_chain_fixed, Forall_map. exact H.
Qed.

(** What a fixed outcome gives for one run. *)
Lemma fixed_rejects (m : TC bool) (d d' : Diag) :
  fixed_outcome m -> m d = Some (false, d') ->
  d_msg d' <> [] /\ forall d0, m d0 = Some (false, d').
Proof.
  intros [H | [H | (b & d1 & Hn & H)]] Hm.
  - rewrite H in Hm. discriminate.
  - rewrite H in Hm. discriminate.
  - rewrite H in Hm. inversion Hm; subst. split; [exact Hn | exact H].
Qed.

Lemma fixed_accepts (m : TC bool) :
  fixed_outcome m -> accepts m -> forall d, exists d', m d = Some (true, d').
Proof.
  intros [H | [H | (b & d1 & Hn & H)]] (d0 & d0' & Hm) d.
  - rewrite H in Hm. discriminate.
  - exists d. apply H.
  - rewrite H in Hm. inversion Hm; subst. exists d0'. apply H.
Qed.

(** ** When the type checker accepts *)

Lemma accepts_ret_true : accepts (ret true).
Proof. exists (mkDiag CToken_default []), (mkDiag CToken_default []).
       reflexivity. Qed.

Lemma accepts_ret_false : ~ accepts (ret false).
Proof. intros (d & d' & H). discriminate. Qed.

Lemma accepts_report (tok : CToken) (m : Message) : ~ accepts (report tok m).
Proof. intros (d & d' & H). discriminate. Qed.

Lemma accepts_crash : ~ accepts (@crash Diag bool).
Proof. intros (d & d' & H). discriminate. Qed.

Lemma accepts_lift {A : Type} (o : option A) (k : A -> TC bool) :
  accepts (bind (lift o) k) <-> exists a, o = Some a /\ accepts (k a).
Proof.
  split.
  - intros (d & d' & H). destruct o as [a|]; [|discriminate].
    exists a. split; [reflexivity|]. exists d, d'. exact H.
  - intros (a & -> & d & d' & H). exists d, d'. exact H.
Qed.

(** A check, then another one when the first answered [true], and the
    answer [b] when it did not. *)
Lemma accepts_seq_gen (m k : TC bool) (b : bool) :
  fixed_outcome k ->
  accepts (ok <- m ;; if negb ok then ret b else k) <->
  (rejects m /\ b = true) \/ (accepts m /\ accepts k).
Proof.
  intros Fk. split.
  - intros (d & d' & H). apply bind_Some in H as (ok & d1 & Hm & H).
    destruct ok; simpl in H.
    + right. split; [exists d, d1; exact Hm | exists d1, d'; exact H].
    + left. inversion H; subst. split; [exists d, d'; exact Hm | reflexivity].
  - intros [[(d & d' & Hm) ->] | [(d & d1 & Hm) Hk]].
    + exists d, d'. unfold bind. rewrite Hm. reflexivity.
    + destruct (fixed_accepts k Fk Hk d1) as [d' H].
      exists d, d'. unfold bind. rewrite Hm. exact H.
Qed.

Lemma accepts_seq (m k : TC bool) :
  fixed_outcome k ->
  accepts (ok <- m ;; if negb ok then ret false else k) <->
  accepts m /\ accepts k.
Proof.
  intros Fk. rewrite (accepts_seq_gen m k false Fk).
  split; [intros [[_ H] | H]; [discriminate | exact H] | auto].
Qed.

Lemma accepts_ext (m m' : TC bool) :
  (forall d, m d = m' d) -> accepts m <-> accepts m'.
Proof.
  intros E. split; intros (d & d' & H); exists d, d'; congruence.
Qed.

Lemma check_chain_accepts (body : list (TC bool)) :
  Forall fixed_outcome body ->
  accepts (check_chain body) <-> Forall accepts body.
Proof.
  intros Hb. induction Hb as [|s rest Hs Hrest IH]; simpl.
  - split; [constructor | intros _; apply accepts_ret_true].
  - rewrite accepts_seq by (apply check_chain_fixed, Hrest).
    rewrite IH. split.
    + intros [H1 H2]. constructor; assumption.
    + intros H. inversion H; subst. split; assumption.
Qed.

(** The first statement that fails decides, whatever follows it. *)
Lemma check_chain_first_failure (pre post : list (TC bool)) (s : TC bool)
      (d0 d' : Diag) :
  Forall fixed_outcome pre -> Forall accepts pre ->
  fixed_outcome s -> s d0 = Some (false, d') ->
  forall d, check_chain (pre ++ s :: post) d = Some (false, d').
Proof.
  intros Fp Ap Fs Hs.
  induction Fp as [|x pre Fx Fpre IH]; intros d; simpl.
  - unfold bind. rewrite (proj2 (fixed_rejects s d0 d' Fs Hs) d).
    reflexivity.
  - inversion Ap; subst.
    destruct (fixed_accepts x Fx H1 d) as [d1 Hx].
    unfold bind. rewrite Hx. simpl. apply IH. assumption.
Qed.

Lemma StatTypeChecks_fixed (l : list CAstStatement) :
  Forall fixed_outcome (map StatTypeCheck l).
Proof.
  apply Forall_map, Forall_forall. intros s _. apply StatTypeCheck_fixed.
Qed.

Lemma ScopeTypeChecks_fixed (l : list CAstScope) :
  Forall fixed_outcome (map ScopeTypeCheck l).
Proof.
  apply Forall_map, Forall_forall. intros s _. apply ScopeTypeCheck_fixed.
Qed.

Lemma TypeChecks_fixed (l : list CAstExpression) :
  Forall (fun c => fixed_outcome (c_TypeCheck c)) (map checked l).
Proof.
  apply Forall_map, Forall_forall. intros e _. apply TypeCheck_fixed.
Qed.

(** The decision of [CAstBinaryOp::TypeCheck] once both operands passed. *)
Lemma BinaryOp_decision (token ltok rtok : CToken) (oper : EOperation)
      (lt rt : CTypeP) :
  accepts
    (match lt with
     | None =>
         report ltok
           [Str "the type of left operand is not scalar type."; Endl;
            Str "left operand : "; show_type None; Endl]
     | Some lt =>
       if negb (IsScalar lt) then
         report ltok
           [Str "the type of left operand is not scalar type."; Endl;
            Str "left operand : "; show_type (Some lt); Endl]
       else
       match rt with
       | None =>
           report rtok
             [Str "the type of right operand is not scalar type."; Endl;
              Str "right operand : "; show_type None; Endl]
       | Some rt =>
         if negb (IsScalar rt) then
           report rtok
             [Str "the type of right operand is not scalar type."; Endl;
              Str "right operand : "; show_type (Some rt); Endl]
         else if IsPointer lt then
           report ltok
             [Str "the type of left operand cannot be a pointer type"]
         else if IsPointer rt then
           report rtok
             [Str "the type of right operand cannot be a pointer type"]
         else if negb (Match lt rt) then
           report token
             [Str "the type of left operand does not match with the type of right operand.";
              Endl;
              Str "left operand : "; Typ lt; Endl;
              Str "right operand : "; Typ rt; Endl]
         else
         match oper with
         | opAdd | opSub | opMul | opDiv =>
             if negb (Match lt CTypeManager.GetInt) then
               report ltok
                 [Str "the type of operands should be an integer type in ";
                  Str CAstBinaryOp.soper; Str " operation."; Endl;
                  Str "left operand : "; Typ lt; Endl;
                  Str "right operand : "; Typ rt; Endl]
             else ret true
         | opAnd | opOr =>
             if negb (Match lt CTypeManager.GetBool) then
               report ltok
                 [Str "the type of operands should be an boolean type in ";
                  Str CAstBinaryOp.soper; Str " operation."; Endl;
                  Str "left operand : "; Typ lt; Endl;
                  Str "right operand : "; Typ rt; Endl]
             else ret true
         | opEqual | opNotEqual => ret true
         | opLessThan | opLessEqual | opBiggerThan | opBiggerEqual =>
             if Match lt CTypeManager.GetBool then
               report ltok
                 [Str "the type of operands cannot be boolean type in ";
                  Str CAstBinaryOp.soper; Str " operation."; Endl;
                  Str "left operand : "; Typ lt; Endl;
                  Str "right operand : "; Typ rt; Endl]
             else ret true
         | _ =>
             report ltok [Str "the operation is not valid."; Endl]
         end
       end
     end) <->
  exists l r,
    lt = Some l /\ rt = Some r /\
    IsScalar l = true /\ IsScalar r = true /\
    IsPointer l = false /\ IsPointer r = false /\
    Match l r = true /\ operand_rule oper l = true.
Proof.
  split.
  - intros H.
    destruct lt as [l|]; [|destruct (accepts_report _ _ H)].
    destruct (IsScalar l) eqn:Sl; simpl in H;
      [|destruct (accepts_report _ _ H)].
    destruct rt as [r|]; [|destruct (accepts_report _ _ H)].
    destruct (IsScalar r) eqn:Sr; simpl in H;
      [|destruct (accepts_report _ _ H)].
    destruct (IsPointer l) eqn:Pl; [destruct (accepts_report _ _ H)|].
    destruct (IsPointer r) eqn:Pr; [destruct (accepts_report _ _ H)|].
    destruct (Match l r) eqn:Mlr; simpl in H;
      [|destruct (accepts_report _ _ H)].
    exists l, r. repeat (split; [reflexivity || assumption|]).
    unfold operand_rule.
    destruct oper; try (destruct (accepts_report _ _ H));
      try reflexivity.
    all: match type of H with
         | accepts (if negb ?c then _ else _) => destruct c
         | accepts (if ?c then _ else _) => destruct c
         end; simpl in H |- *; try reflexivity;
         destruct (accepts_report _ _ H).
  - intros (l & r & -> & -> & Sl & Sr & Pl & Pr & Mlr & Ho).
    rewrite Sl, Sr, Pl, Pr, Mlr. simpl.
    unfold operand_rule in Ho.
    destruct oper; try discriminate; try apply accepts_ret_true.
    all: match type of Ho with
         | negb ?c = true => destruct c
         | ?c = true => destruct c
         end; try discriminate; apply accepts_ret_true.
Qed.

Lemma UnaryOp_accepts (t : CToken) (oper : EOperation) (e : CAstExpression) :
  accepts (TypeCheck (UnaryOp t oper e)) <->
  (oper = opNeg /\ is_CAstConstant e = true /\ rejects (TypeCheck e)) \/
  (accepts (TypeCheck e) /\
   exists ty, GetType e = Some (Some ty) /\ unary_rule oper ty = true).
Proof.
  simpl. unfold CAstUnaryOp.TypeCheck. simpl.
  set (b := match oper with
            | opNeg => is_CAstConstant e
            | _ => false
            end).
  set (k := match oper with
            | opNeg | opPos =>
                ty <- lift (GetType e) ;;
                match ty with
                | Some t0 =>
                    if negb (Match t0 CTypeManager.GetInt) then
                      report (GetToken e)
                        [Str "the type of operand should be an integer type in ";
                         Str CAstUnaryOp.soper; Str " operation."; Endl;
                         Str "operand : "; show_type (Some t0); Endl]
                    else ret true
                | None =>
                    report (GetToken e)
                      [Str "the type of operand should be an integer type in ";
                       Str CAstUnaryOp.soper; Str " operation."; Endl;
                       Str "operand : "; show_type None; Endl]
                end
            | opNot =>
                ty <- lift (GetType e) ;;
                match ty with
                | Some t0 =>
                    if negb (Match t0 CTypeManager.GetBool) then
                      report (GetToken e)
                        [Str "the type of operand should be a boolean type in ";
                         Str CAstUnaryOp.soper; Str " operation."; Endl;
                         Str "operand : "; show_type (Some t0); Endl]
                    else ret true
                | None =>
                    report (GetToken e)
                      [Str "the type of operand should be a boolean type in ";
                       Str CAstUnaryOp.soper; Str " operation."; Endl;
                       Str "operand : "; show_type None; Endl]
                end
            | _ => report t [Str "the operation is not valid."; Endl]
            end).
  assert (Fk : fixed_outcome k) by (unfold k; fixed_leaf).
  assert (Hk : accepts k <->
               exists ty, GetType e = Some (Some ty) /\
                          unary_rule oper ty = true).
  { unfold k, unary_rule. split.
    - intros H.
      destruct oper; try (destruct (accepts_report _ _ H)).
      all: apply accepts_lift in H as ([ty|] & E & H);
        [|destruct (accepts_report _ _ H)];
        exists ty; split; [exact E|];
        destruct (Match ty _); simpl in H; [reflexivity|];
        destruct (accepts_report _ _ H).
    - intros (ty & E & H).
      destruct oper; try discriminate.
      all: apply accepts_lift; exists (Some ty); split; [exact E|];
        rewrite H; apply accepts_ret_true. }
  rewrite (accepts_ext _ (ok <- TypeCheck e ;;
                          if negb ok then ret b else k)).
  - rewrite (accepts_seq_gen (TypeCheck e) k b Fk), Hk.
    unfold b. split.
    + intros [[Hr Hb] | H]; [|right; exact H]. left.
      destruct oper; try discriminate. auto.
    + intros [(-> & Hc & Hr) | H]; [left; auto | right; exact H].
  - intros d. apply bind_ext. intros ok d1.
    destruct ok; simpl; [reflexivity|].
    unfold b. destruct oper; try reflexivity.
    destruct (is_CAstConstant e); reflexivity.
Qed.

Lemma SpecialOp_accepts (t : CToken) (oper : EOperation)
      (e : CAstExpression) (type : CTypeP) :
  accepts (TypeCheck (SpecialOp t oper e type)) <->
  accepts (TypeCheck e) /\
  (oper = opDeref ->
   exists ty, GetType e = Some (Some ty) /\ IsPointer ty = true).
Proof.
  simpl. unfold CAstSpecialOp.TypeCheck. simpl.
  rewrite accepts_seq by fixed_leaf.
  split; intros [He H]; (split; [exact He|]).
  - intros ->. apply accepts_lift in H as ([ty|] & E & H);
      [|destruct (accepts_report _ _ H)].
    exists ty. split; [exact E|].
    destruct (IsPointer ty); [reflexivity|].
    destruct (accepts_report _ _ H).
  - destruct oper; try apply accepts_ret_true.
    destruct (H eq_refl) as (ty & E & P).
    apply accepts_lift. exists (Some ty). split; [exact E|].
    rewrite P. apply accepts_ret_true.
Qed.

Lemma skipn_nth_error {A : Type} (l : list A) (i : nat) (x : A) :
  nth_error l i = Some x -> skipn i l = x :: skipn (S i) l.
Proof.
  revert l. induction i as [|i IH]; intros [|y l] H; try discriminate.
  - inversion H. reflexivity.
  - apply (IH l H).
Qed.

Lemma skipn_cons_nth_error {A : Type} (l : list A) (i : nat) (x : A)
      (tl : list A) :
  skipn i l = x :: tl -> nth_error l i = Some x /\ skipn (S i) l = tl.
Proof.
  revert l. induction i as [|i IH]; intros [|y l] H; try discriminate.
  - inversion H. split; reflexivity.
  - apply (IH l H).
Qed.

(** The loop over the arguments accepts when each argument passes and has
    the type of its parameter. *)
Lemma check_args_accepts (proc : CSymbol) (rest : list CAstExpression)
      (i : nat) :
  accepts (CAstFunctionCall.check_args proc (map checked rest) i) <->
  exists ps tl,
    skipn i (GetParams proc) = ps ++ tl /\
    Forall2 (fun a pt =>
               accepts (TypeCheck a) /\
               exists ty, GetType a = Some (Some ty) /\ Match pt ty = true)
            rest ps.
Proof.
  revert i. induction rest as [|e rest IH]; intros i; simpl.
  - split; [|intros _; apply accepts_ret_true].
    intros _. exists [], (skipn i (GetParams proc)).
    split; [reflexivity | constructor].
  - rewrite accepts_lift. split.
    + intros (pt & En & H).
      assert (Fk : fixed_outcome
                (ty <- lift (GetType e) ;;
                 match ty with
                 | Some et =>
                     if negb (Match pt et) then
                       report (GetToken e)
                         [Str "the type of parameters does not match with the function/procedure's signature.";
                          Endl;
                          Str "signature : "; show_type (Some pt); Endl;
                          Str "subroutineCall : "; show_type (Some et); Endl]
                     else CAstFunctionCall.check_args proc (map checked rest)
                                                      (S i)
                 | None =>
                     report (GetToken e)
                       [Str "the type of parameters does not match with the function/procedure's signature.";
                        Endl;
                        Str "signature : "; show_type (Some pt); Endl;
                        Str "subroutineCall : "; show_type None; Endl]
                 end)).
      { apply fixed_lift. intros ty _. destruct ty as [et|];
          [|apply fixed_report].
        destruct (negb _); [apply fixed_report|].
        apply check_args_fixed, TypeChecks_fixed. }
      apply (accepts_seq _ _ Fk) in H as [He H].
      apply accepts_lift in H as ([et|] & Et & H);
        [|destruct (accepts_report _ _ H)].
      destruct (Match pt et) eqn:Mp; simpl in H;
        [|destruct (accepts_report _ _ H)].
      apply IH in H as (ps & tl & Es & Hf).
      exists (pt :: ps), tl. split.
      * rewrite (skipn_nth_error _ _ _ En), Es. reflexivity.
      * constructor; [|exact Hf]. split; [exact He|]. exists et. auto.
    + intros (ps & tl & Es & Hf).
      inversion Hf as [|a pt l l' [He (et & Et & Mp)] Hrest]; subst.
      apply skipn_cons_nth_error in Es as [En Es].
      exists pt. split; [exact En|].
      apply accepts_seq.
      * apply fixed_lift. intros ty _. destruct ty as [et'|];
          [|apply fixed_report].
        destruct (negb _); [apply fixed_report|].
        apply check_args_fixed, TypeChecks_fixed.
      * split; [exact He|]. apply accepts_lift. exists (Some et).
        split; [exact Et|]. rewrite Mp. simpl.
        apply IH. exists l', tl. auto.
Qed.

Lemma FunctionCall_accepts (t : CToken) (symbol : CSymbol)
      (arg : list CAstExpression) :
  accepts (TypeCheck (FunctionCall t symbol arg)) <->
  Forall2 (fun a pt =>
             accepts (TypeCheck a) /\
             exists ty, GetType a = Some (Some ty) /\ Match pt ty = true)
          arg (GetParams symbol).
Proof.
  simpl. unfold CAstFunctionCall.TypeCheck, GetNParams.
  rewrite length_map.
  destruct (List.length arg =? List.length (GetParams symbol))%nat eqn:El;
    simpl.
  - apply Nat.eqb_eq in El.
    change (map (fun a => mkChecked (GetToken a) (TypeCheck a) (GetType a))
                arg) with (map checked arg).
    rewrite check_args_accepts. simpl. split.
    + intros (ps & tl & Es & Hf).
      assert (Hl : List.length ps = List.length arg)
        by (symmetry; eapply Forall2_length, Hf).
      assert (tl = []).
      { apply (f_equal (@List.length _)) in Es.
        rewrite length_app in Es. destruct tl; [reflexivity|].
        simpl in Es. lia. }
      subst tl. rewrite app_nil_r in Es. rewrite Es. exact Hf.
    + intros Hf. exists (GetParams symbol), [].
      split; [rewrite app_nil_r; reflexivity | exact Hf].
  - apply Nat.eqb_neq in El. split.
    + intros H. destruct (accepts_report _ _ H).
    + intros Hf. apply Forall2_length in Hf. contradiction.
Qed.

Lemma check_indices_accepts (idx : list CAstExpression) :
  accepts (CAstArrayDesignator.check_indices (map checked idx)) <->
  Forall (fun a =>
            accepts (TypeCheck a) /\
            exists ty, GetType a = Some (Some ty) /\
                       Match ty CTypeManager.GetInt = true) idx.
Proof.
  induction idx as [|e rest IH]; simpl.
  - split; [constructor | intros _; apply accepts_ret_true].
  - assert (Fk : fixed_outcome
              (ty <- lift (GetType e) ;;
               match ty with
               | Some et =>
                   if negb (Match et CTypeManager.GetInt) then
                     report (GetToken e)
                       [Str "the element in array should be accessed by integer index.";
                        Endl;
                        Str "but the expression's type is ";
                        show_type (Some et); Endl]
                   else CAstArrayDesignator.check_indices (map checked rest)
               | None =>
                   report (GetToken e)
                     [Str "the element in array should be accessed by integer index.";
                      Endl;
                      Str "but the expression's type is "; show_type None;
                      Endl]
               end)).
    { apply fixed_lift. intros ty _. destruct ty as [et|];
        [|apply fixed_report].
      destruct (negb _); [apply fixed_report|].
      apply check_indices_fixed, TypeChecks_fixed. }
    rewrite (accepts_seq _ _ Fk), accepts_lift. split.
    + intros [He ([et|] & Et & H)]; [|destruct (accepts_report _ _ H)].
      destruct (Match et CTypeManager.GetInt) eqn:Mi; simpl in H;
        [|destruct (accepts_report _ _ H)].
      constructor; [|apply IH, H]. split; [exact He|]. exists et. auto.
    + intros H. inversion H as [|a l [He (et & Et & Mi)] Hrest]; subst.
      split; [exact He|]. exists (Some et). split; [exact Et|].
      rewrite Mi. simpl. apply IH, Hrest.
Qed.

Lemma ArrayDesignator_accepts (t : CToken) (symbol : CSymbol)
      (idx : list CAstExpression) :
  accepts (TypeCheck (ArrayDesignator t symbol idx)) <->
  Forall (fun a =>
            accepts (TypeCheck a) /\
            exists ty, GetType a = Some (Some ty) /\
                       Match ty CTypeManager.GetInt = true) idx.
Proof.
  simpl. unfold CAstArrayDesignator.TypeCheck.
  change (map (fun a => mkChecked (GetToken a) (TypeCheck a) (GetType a))
              idx) with (map checked idx).
  rewrite accepts_seq by apply fixed_ret_true.
  rewrite check_indices_accepts.
  split; [intros [H _]; exact H | intros H; split; [exact H|]].
  apply accepts_ret_true.
Qed.

Lemma condition_accepts (cond : CAstExpression) (k : TC bool) :
  fixed_outcome k ->
  accepts
    (ok <- TypeCheck cond ;;
     if negb ok then ret false else
     ty <- lift (GetType cond) ;;
     if negb (match ty with
              | Some t => Match t CTypeManager.GetBool
              | None => false
              end) then
       report (GetToken cond)
         [Str "condition should be bool type, but "; show_type ty;
          Str " appeared"; Endl]
     else k) <->
  accepts (TypeCheck cond) /\
  (exists ty, GetType cond = Some (Some ty) /\
              Match ty CTypeManager.GetBool = true) /\
  accepts k.
Proof.
  intros Fk. rewrite accepts_seq, accepts_lift.
  - split.
    + intros [Hc (ty & E & H)]. split; [exact Hc|].
      destruct ty as [ty|]; simpl in H; [|destruct (accepts_report _ _ H)].
      destruct (Match ty CTypeManager.GetBool) eqn:Mb; simpl in H;
        [|destruct (accepts_report _ _ H)].
      split; [exists ty; auto | exact H].
    + intros (Hc & (ty & E & Mb) & Hk). split; [exact Hc|].
      exists (Some ty). split; [exact E|]. rewrite Mb. exact Hk.
  - apply fixed_lift. intros ty _.
    destruct (negb _); [apply fixed_report | exact Fk].
Qed.

(** ** What the type checker accepts is lowered without abort *)

Lemma BinaryOp_accepts (t : CToken) (oper : EOperation)
      (l r : CAstExpression) :
  accepts (TypeCheck (BinaryOp t oper l r)) <->
  accepts (TypeCheck l) /\ accepts (TypeCheck r) /\
  exists lt rt,
    GetType l = Some (Some lt) /\ GetType r = Some (Some rt) /\
    IsScalar lt = true /\ IsScalar rt = true /\
    IsPointer lt = false /\ IsPointer rt = false /\
    Match lt rt = true /\ operand_rule oper lt = true.
Proof.
  simpl. unfold CAstBinaryOp.TypeCheck. simpl.
  rewrite accepts_seq
    by (apply fixed_seq; [apply TypeCheck_fixed | fixed_leaf]).
  rewrite accepts_seq by fixed_leaf.
  rewrite accepts_lift.
  split.
  - intros (Hl & Hr & lt & El & H). split; [exact Hl|]. split; [exact Hr|].
    apply accepts_lift in H as (rt & Er & H).
    apply BinaryOp_decision in H as (lt' & rt' & -> & -> & H).
    exists lt', rt'. auto.
  - intros (Hl & Hr & lt & rt & El & Er & H).
    split; [exact Hl|]. split; [exact Hr|].
    exists (Some lt). split; [exact El|].
    apply accepts_lift. exists (Some rt). split; [exact Er|].
    apply (proj2 (BinaryOp_decision t (GetToken l) (GetToken r) oper
                                    (Some lt) (Some rt))).
    exists lt, rt. auto.
Qed.

Lemma safe_ret {A : Type} (a : A) : safe (ret a).
Proof. intros cb _. exists a, cb. split; reflexivity. Qed.

Lemma safe_bind_run {A B : Type} (m : M A) (k : A -> M B) :
  safe m ->
  (forall cb a cb', intrinsics cb -> m cb = Some (a, cb') -> safe (k a)) ->
  safe (bind m k).
Proof.
  intros Hm Hk cb Hi.
  destruct (Hm cb Hi) as (a & cb1 & E1 & S1).
  assert (Hi1 : intrinsics cb1) by (unfold intrinsics; rewrite S1; exact Hi).
  destruct (Hk cb a cb1 Hi E1 cb1 Hi1) as (b & cb2 & E2 & S2).
  exists b, cb2. split; [|congruence].
  unfold bind. rewrite E1. exact E2.
Qed.

Lemma safe_bind {A B : Type} (m : M A) (k : A -> M B) :
  safe m -> (forall a, safe (k a)) -> safe (bind m k).
Proof. intros Hm Hk. apply safe_bind_run; auto. Qed.

Lemma safe_CreateTemp (ty : CType) : safe (CreateTemp ty).
Proof. intros cb _. eexists _, _. split; reflexivity. Qed.

Lemma safe_CreateLabel (hint : string) : safe (CreateLabel hint).
Proof. intros cb _. eexists _, _. split; reflexivity. Qed.

Lemma safe_AddInstr (i : CTacInstr) : safe (AddInstr i).
Proof. intros cb _. eexists _, _. split; reflexivity. Qed.

Lemma safe_FindSymbol (name : string) : safe (FindSymbol name).
Proof. intros cb _. eexists _, _. split; reflexivity. Qed.

Lemma safe_lift {A : Type} (a : A) : safe (lift (Some a)).
Proof. apply safe_ret. Qed.

Ltac safe_step :=
  match goal with
  | |- safe (ret _) => apply safe_ret
  | |- safe (bind _ _) => apply safe_bind; [|intros ?]
  | |- safe (CreateTemp _) => apply safe_CreateTemp
  | |- safe (CreateLabel _) => apply safe_CreateLabel
  | |- safe (AddInstr _) => apply safe_AddInstr
  | |- safe (FindSymbol _) => apply safe_FindSymbol
  | |- safe (lift (Some _)) => apply safe_lift
  | |- safe (if _ then _ else _) =>
      match goal with |- safe (if ?c then _ else _) => destruct c end
  | H : safe ?m |- safe ?m => exact H
  | H : forall lt lf, safe (?m lt lf) |- safe (?m _ _) => apply H
  end.

Lemma safe_GetArg (arg : list (M CTacAddr)) (i : nat) :
  Forall safe arg -> (i < List.length arg)%nat ->
  safe (match nth_error arg i with
        | Some a => a
        | None => crash
        end).
Proof.
  intros Ha Hi. destruct (nth_error arg i) as [a|] eqn:E.
  - rewrite Forall_forall in Ha. apply Ha, (nth_error_In _ _ E).
  - apply nth_error_None in E. lia.
Qed.

Lemma FunctionCall_params_safe (arg : list (M CTacAddr)) (n : nat) :
  Forall safe arg -> (n <= List.length arg)%nat ->
  safe (CAstFunctionCall.params arg n).
Proof.
  intros Ha. induction n as [|i IH]; intros Hn; simpl; [apply safe_ret|].
  apply safe_bind; [apply safe_GetArg; [exact Ha | lia]|]. intros argTac.
  apply safe_bind; [apply safe_AddInstr|]. intros _. apply IH. lia.
Qed.

Lemma StatCall_params_safe (arg : list (M CTacAddr)) (n : nat) :
  Forall safe arg -> (n <= List.length arg)%nat ->
  safe (CAstStatCall.params arg n).
Proof.
  intros Ha. induction n as [|i IH]; intros Hn; simpl; [apply safe_ret|].
  apply safe_bind; [apply safe_GetArg; [exact Ha | lia]|]. intros argTac.
  apply safe_bind; [apply safe_AddInstr|]. intros _. apply IH. lia.
Qed.

Lemma FunctionCall_ToTac_safe (symbol : CSymbol) (arg : list (M CTacAddr)) :
  Forall safe arg -> safe (CAstFunctionCall.ToTac symbol arg).
Proof.
  intros Ha. unfold CAstFunctionCall.ToTac.
  apply safe_bind; [apply FunctionCall_params_safe; [exact Ha | lia]|].
  intros _. repeat safe_step.
Qed.

Lemma FunctionCall_ToTacCond_safe (symbol : CSymbol)
      (arg : list (M CTacAddr)) (lt lf : CTacLabel) :
  Forall safe arg -> safe (CAstFunctionCall.ToTacCond symbol arg lt lf).
Proof.
  intros Ha. unfold CAstFunctionCall.ToTacCond.
  apply safe_bind; [apply FunctionCall_ToTac_safe, Ha|].
  intros retval. repeat safe_step.
Qed.

Lemma materialise_safe {A : Type} (cond : CTacLabel -> CTacLabel -> M A)
      (ty : CType) :
  (forall lt lf, safe (cond lt lf)) ->
  safe
    (ltrue <- CreateLabel "" ;;
     lfalse <- CreateLabel "" ;;
     lend <- CreateLabel "" ;;
     cond ltrue lfalse ;;;
     val <- CreateTemp ty ;;
     AddInstr (Label ltrue) ;;;
     AddInstr (Instr opAssign (Some (CTacTemp val))
                     (Some (CTacConst 1)) None) ;;;
     AddInstr (goto lend) ;;;
     AddInstr (Label lfalse) ;;;
     AddInstr (Instr opAssign (Some (CTacTemp val))
                     (Some (CTacConst 0)) None) ;;;
     AddInstr (Label lend) ;;;
     ret (CTacTemp val)).
Proof. intros Hc. repeat safe_step. Qed.

Lemma offset_loop_safe (DIM_SYM : option CSymbol) (dim : CSymbol)
      (idExpr : M CTacAddr) (index : list (M CTacAddr))
      (iterateCount n i : nat) (idx : option CTacAddr) :
  as_CSymProc DIM_SYM = Some dim ->
  safe idExpr -> Forall safe index ->
  (idx = None -> (i < List.length index)%nat) ->
  safe (CAstArrayDesignator.offset_loop DIM_SYM idExpr index iterateCount
          n i idx).
Proof.
  intros Hd Hid Hi. revert i idx.
  induction n as [|n IH]; intros i idx Hidx; simpl; [apply safe_ret|].
  apply safe_bind.
  - destruct idx as [cur|].
    + apply safe_bind; [|intros prev; repeat safe_step].
      destruct (Nat.ltb_spec i (List.length index));
        [apply safe_GetArg; assumption | apply safe_ret].
    + apply safe_GetArg; [exact Hi | apply Hidx; reflexivity].
  - intros idx'. destruct (i =? iterateCount - 1)%nat; [apply safe_ret|].
    rewrite Hd.
    apply safe_bind; [apply safe_lift|]. intros DIM.
    apply safe_bind.
    { apply FunctionCall_ToTac_safe.
      constructor; [exact Hid|]. constructor; [apply safe_ret|constructor]. }
    intros entrySize.
    apply safe_bind; [apply safe_CreateTemp|]. intros next.
    apply safe_bind; [apply safe_AddInstr|]. intros _.
    apply IH. discriminate.
Qed.

Lemma SpecialOp_ToTac_safe (operand : Lowered) :
  safe (l_ToTac operand) -> l_GetType operand <> None ->
  safe (CAstSpecialOp.ToTac operand).
Proof.
  intros Ho Ht. unfold CAstSpecialOp.ToTac.
  destruct (l_GetType operand) as [ty|]; [|congruence].
  repeat safe_step.
Qed.

Lemma ArrayDesignator_ToTac_safe (GetSize : CType -> Z) (symbol : CSymbol)
      (index : list (M CTacAddr)) (arr : CType) :
  indexed_array symbol = Some arr -> IsArray arr = true ->
  index <> [] -> Forall safe index ->
  safe (CAstArrayDesignator.ToTac GetSize symbol index).
Proof.
  intros Harr Ha Hne Hi. unfold CAstArrayDesignator.ToTac.
  apply safe_bind_run; [apply safe_FindSymbol|].
  intros cb0 DIM_SYM cb1 [[dim Hdim] _] E0. inversion E0; subst. clear E0.
  apply safe_bind_run; [apply safe_FindSymbol|].
  intros cb0 DOFS_SYM cb2 [_ [dofs Hdofs]] E0. inversion E0; subst. clear E0.
  apply safe_bind_run.
  { destruct (IsPointer (GetDataType symbol)); repeat safe_step. }
  intros cb0 [[id idExpr] dataType] cb3 _ Hp.
  assert (Hdesc : safe idExpr /\ dataType = Some arr).
  { unfold indexed_array in Harr.
    destruct (GetDataType symbol) as [| | | | b | n inner] eqn:Et;
      simpl in Hp; inversion Harr; subst; try discriminate.
    - inversion Hp; subst. split; [apply safe_ret|].
      destruct arr; try discriminate. reflexivity.
    - apply bind_Some in Hp as (ptr & c1 & _ & Hp).
      apply bind_Some in Hp as (u & c2 & _ & Hp).
      inversion Hp; subst. split; [|reflexivity].
      apply SpecialOp_ToTac_safe; simpl; [apply safe_ret | discriminate]. }
  destruct Hdesc as [Hid ->].
  apply safe_bind; [apply safe_lift|]. intros dt.
  apply safe_bind.
  { apply (offset_loop_safe _ dim); try assumption.
    intros _. destruct index; [congruence | simpl; lia]. }
  intros idx. rewrite Hdofs.
  apply safe_bind; [apply safe_CreateTemp|]. intros tmp.
  apply safe_bind; [apply safe_AddInstr|]. intros _.
  apply safe_bind; [apply safe_lift|]. intros DOFS.
  apply safe_bind.
  { apply FunctionCall_ToTac_safe. constructor; [exact Hid|constructor]. }
  intros ofs. repeat safe_step.
Qed.

Lemma Match_bool (ty : CType) :
  Match ty CTypeManager.GetBool = true -> ty = TBool.
Proof. destruct ty; simpl; try discriminate; reflexivity. Qed.

(** The three guarantees of an accepted expression: its value form and,
    when it is boolean, its condition form are lowered without abort, and
    its type is computed without abort. *)
Lemma accepted_expression_safe (GetSize : CType -> Z) (e : CAstExpression) :
  accepts (TypeCheck e) -> arrays_ok e = true ->
  safe (ToTac GetSize e) /\
  (is_boolean e -> forall lt lf, safe (ToTacCond GetSize e lt lf)) /\
  GetType e <> None.
Proof.
  induction e as [t oper l r IHl IHr | t oper e IH | t oper e type IH
                 | t symbol arg IH | t symbol | t symbol idx IH
                 | t type value | t type value sym]
    using CAstExpression_tree_ind; intros Hacc Hok.
  - (* binary operation *)
    apply BinaryOp_accepts in Hacc
      as (Hl & Hr & lt & rt & El & Er & _ & _ & _ & _ & Mlr & Ho).
    simpl in Hok. apply andb_prop in Hok as [Okl Okr].
    destruct (IHl Hl Okl) as (Sl & Cl & _).
    destruct (IHr Hr Okr) as (Sr & Cr & _).
    assert (Hc : CAstBinaryOp.GetType oper = Some CTypeManager.GetBool ->
                 forall lt0 lf0,
                   safe (CAstBinaryOp.ToTacCond oper
                           (lowered GetSize l) (lowered GetSize r) lt0 lf0)).
    { intros Hty lt0 lf0. unfold CAstBinaryOp.ToTacCond, lowered. simpl.
      apply safe_bind; [apply safe_CreateLabel|]. intros nextCond.
      destruct (IsRelOp oper) eqn:Erel; [repeat safe_step|].
      assert (Hb : is_boolean l /\ is_boolean r).
      { unfold operand_rule in Ho.
        destruct oper; try discriminate Erel; try discriminate Ho;
          try discriminate Hty.
        all: pose proof (Match_bool lt Ho); subst lt;
          destruct rt; try discriminate Mlr;
          split; [exists TBool | exists TBool]; auto. }
      destruct Hb as [Bl Br].
      specialize (Cl Bl). specialize (Cr Br).
      destruct oper; repeat safe_step. }
    split; [|split; [|discriminate]].
    + change (safe (CAstBinaryOp.ToTac oper (lowered GetSize l)
                                       (lowered GetSize r))).
      unfold CAstBinaryOp.ToTac.
      destruct oper;
        try (apply materialise_safe; apply Hc; reflexivity);
        try discriminate Ho;
        unfold lowered; simpl; repeat safe_step.
    + intros (ty & Et & Mb). simpl in Et. apply Hc.
      inversion Et as [Et']. rewrite Et'.
      apply Match_bool in Mb. rewrite Mb. reflexivity.
  - (* unary operation *)
    simpl in Hok.
    apply UnaryOp_accepts in Hacc
      as [(-> & Hc & _) | (He & ty & Et & Hr)].
    + destruct e; try discriminate Hc.
      split; [|split; [|discriminate]].
      * simpl. apply safe_ret.
      * intros (ty & Et & Mb). simpl in Et. inversion Et; subst.
        discriminate Mb.
    + destruct (IH He Hok) as (Se & Ce & _).
      split; [|split; [|discriminate]].
      * change (safe (CAstUnaryOp.ToTac oper (lowered GetSize e))).
        unfold CAstUnaryOp.ToTac, CAstUnaryOp.ToTacCond, lowered. simpl.
        unfold unary_rule in Hr.
        destruct oper; try discriminate Hr.
        -- destruct (as_CAstConstant e); repeat safe_step.
        -- destruct (as_CAstConstant e); repeat safe_step.
        -- assert (Hb : is_boolean e) by (exists ty; auto).
           specialize (Ce Hb). repeat safe_step.
      * intros (ty' & Et' & Mb). simpl in Et'.
        unfold unary_rule in Hr.
        destruct oper; try discriminate Hr; simpl in Et';
          inversion Et'; subst; try discriminate Mb.
        assert (Hb : is_boolean e) by (exists ty; auto).
        specialize (Ce Hb). intros lt lf. simpl.
        unfold CAstUnaryOp.ToTacCond. simpl. repeat safe_step.
  - (* special operation *)
    simpl in Hok.
    apply SpecialOp_accepts in Hacc as [He Hd].
    destruct (IH He Hok) as (Se & _ & Te).
    split; [|split].
    + simpl. apply SpecialOp_ToTac_safe; assumption.
    + intros _ lt lf. apply safe_ret.
    + simpl. destruct oper; simpl; try discriminate.
      * destruct (GetType e); [discriminate | congruence].
      * destruct (Hd eq_refl) as (ty & -> & Hp).
        rewrite Hp. destruct ty; discriminate.
  - (* function call *)
    apply FunctionCall_accepts in Hacc. simpl in Hok.
    assert (Ha : Forall safe (map (ToTac GetSize) arg)).
    { apply Forall_map. rewrite forallb_forall in Hok.
      rewrite Forall_forall in IH |- *. intros a Hin.
      apply (IH a Hin); [|apply Hok, Hin].
      clear - Hacc Hin. induction Hacc as [|x y l l' [Hx _] _ IHf];
        [destruct Hin|].
      destruct Hin as [<- | Hin]; [exact Hx | apply IHf, Hin]. }
    split; [|split; [|discriminate]].
    + simpl. apply FunctionCall_ToTac_safe, Ha.
    + intros _ lt lf. simpl. apply FunctionCall_ToTacCond_safe, Ha.
  - (* designator *)
    split; [|split; [|discriminate]].
    + simpl. apply safe_ret.
    + intros _ lt lf. simpl.
      unfold CAstDesignator.ToTacCond, CAstDesignator.ToTac.
      repeat safe_step.
  - (* array designator *)
    apply ArrayDesignator_accepts in Hacc. simpl in Hok.
    apply andb_prop in Hok as [Hok Oki].
    apply andb_prop in Hok as [Hne Harr].
    destruct (indexed_array symbol) as [arr|] eqn:Earr; [|discriminate].
    assert (Hi : Forall safe (map (ToTac GetSize) idx)).
    { apply Forall_map. rewrite forallb_forall in Oki.
      rewrite Forall_forall in IH, Hacc |- *. intros a Hin.
      apply (IH a Hin); [apply (Hacc a Hin) | apply Oki, Hin]. }
    assert (Hn : map (ToTac GetSize) idx <> []).
    { destruct idx; [discriminate Hne | discriminate]. }
    assert (St : safe (ToTac GetSize (ArrayDesignator t symbol idx))).
    { simpl. apply (ArrayDesignator_ToTac_safe _ _ _ arr); assumption. }
    split; [exact St|]. split.
    + intros _ lt lf. simpl. unfold CAstArrayDesignator.ToTacCond.
      apply safe_bind; [exact St|]. intros r. repeat safe_step.
    + simpl. unfold CAstArrayDesignator.GetType.
      unfold indexed_array in Earr.
      destruct (GetDataType symbol) as [| | | | b | n inner]; simpl;
        try discriminate.
      * simpl in Earr. subst b. rewrite Harr. simpl.
        destruct (GetNDim arr <? List.length idx)%nat; discriminate.
      * destruct (S (GetNDim inner) <? List.length idx)%nat; discriminate.
  - (* constant *)
    split; [|split; [|discriminate]].
    + simpl. apply safe_ret.
    + intros _ lt lf. simpl. unfold CAstConstant.ToTacCond.
      repeat safe_step.
  - (* string constant *)
    split; [|split; [|discriminate]].
    + simpl. apply safe_ret.
    + intros _ lt lf. simpl. apply safe_ret.
Qed.

Lemma StatAssign_accepts (t : CToken) (lhs rhs : CAstExpression) :
  accepts (StatTypeCheck (StatAssign t lhs rhs)) <->
  accepts (TypeCheck lhs) /\ accepts (TypeCheck rhs) /\
  exists lt rt,
    GetType lhs = Some (Some lt) /\ GetType rhs = Some (Some rt) /\
    IsScalar lt = true /\ IsScalar rt = true /\ Match lt rt = true.
Proof.
  simpl. unfold CAstStatAssign.TypeCheck. simpl.
  rewrite accepts_seq
    by (apply fixed_seq; [apply TypeCheck_fixed | fixed_leaf]).
  rewrite accepts_seq by fixed_leaf.
  rewrite accepts_lift.
  split.
  - intros (Hl & Hr & [lt|] & El & H); [|destruct (accepts_report _ _ H)].
    split; [exact Hl|]. split; [exact Hr|].
    destruct (IsScalar lt) eqn:Sl; simpl in H;
      [|destruct (accepts_report _ _ H)].
    apply accepts_lift in H as ([rt|] & Er & H);
      [|destruct (accepts_report _ _ H)].
    destruct (IsScalar rt) eqn:Sr; simpl in H;
      [|destruct (accepts_report _ _ H)].
    destruct (Match lt rt) eqn:Mlr; simpl in H;
      [|destruct (accepts_report _ _ H)].
    exists lt, rt. auto.
  - intros (Hl & Hr & lt & rt & El & Er & Sl & Sr & Mlr).
    split; [exact Hl|]. split; [exact Hr|].
    exists (Some lt). split; [exact El|]. rewrite Sl. simpl.
    apply accepts_lift. exists (Some rt). split; [exact Er|].
    rewrite Sr, Mlr. simpl. apply accepts_ret_true.
Qed.

Lemma StatReturn_accepts (t : CToken) (scope : CAstScopeRef)
      (expr : option CAstExpression) :
  accepts (StatTypeCheck (StatReturn t scope expr)) <->
  (Match (CAstScopeRef_GetType scope) CTypeManager.GetNull = true /\
   expr = None) \/
  (Match (CAstScopeRef_GetType scope) CTypeManager.GetNull = false /\
   exists e ty,
     expr = Some e /\ accepts (TypeCheck e) /\ GetType e = Some ty /\
     MatchP (CAstScopeRef_GetType scope) ty = true).
Proof.
  simpl. unfold CAstStatReturn.TypeCheck.
  destruct (Match (CAstScopeRef_GetType scope) CTypeManager.GetNull).
  - destruct expr as [e|]; simpl; split.
    + intros H. destruct (accepts_report _ _ H).
    + intros [[_ H] | [H _]]; discriminate.
    + intros _. left. auto.
    + intros _. apply accepts_ret_true.
  - destruct expr as [e|]; simpl.
    + rewrite accepts_seq by fixed_leaf. rewrite accepts_lift. split.
      * intros (He & ty & Et & H). right. split; [reflexivity|].
        exists e, ty. split; [reflexivity|]. split; [exact He|].
        split; [exact Et|].
        destruct (MatchP (CAstScopeRef_GetType scope) ty); [reflexivity|].
        destruct (accepts_report _ _ H).
      * intros [[H _] | (_ & e' & ty & E & He & Et & Mp)]; [discriminate|].
        inversion E; subst e'. split; [exact He|].
        exists ty. split; [exact Et|]. rewrite Mp. apply accepts_ret_true.
    + split.
      * intros H. destruct (accepts_report _ _ H).
      * intros [[H _] | (_ & e' & ty & E & _)]; discriminate.
Qed.

Lemma StatIf_accepts (t : CToken) (cond : CAstExpression)
      (ifBody elseBody : list CAstStatement) :
  accepts (StatTypeCheck (StatIf t cond ifBody elseBody)) <->
  accepts (TypeCheck cond) /\ is_boolean cond /\
  Forall (fun s => accepts (StatTypeCheck s)) ifBody /\
  Forall (fun s => accepts (StatTypeCheck s)) elseBody.
Proof.
  cbn [StatTypeCheck]. unfold CAstStatIf.TypeCheck. cbn [checked c_TypeCheck c_GetType c_token].
  rewrite condition_accepts.
  - rewrite accepts_seq.
    + rewrite accepts_seq by apply fixed_ret_true.
      rewrite !check_chain_accepts by apply StatTypeChecks_fixed.
      rewrite !Forall_map. unfold is_boolean.
      split.
      * intros (Hc & Hb & Hi & He & _). auto.
      * intros (Hc & Hb & Hi & He).
        repeat (split; [assumption|]). apply accepts_ret_true.
    + apply fixed_seq;
        [apply check_chain_fixed, StatTypeChecks_fixed | apply fixed_ret_true].
  - apply fixed_seq; [apply check_chain_fixed, StatTypeChecks_fixed|].
    apply fixed_seq;
      [apply check_chain_fixed, StatTypeChecks_fixed | apply fixed_ret_true].
Qed.

Lemma StatWhile_accepts (t : CToken) (cond : CAstExpression)
      (body : list CAstStatement) :
  accepts (StatTypeCheck (StatWhile t cond body)) <->
  accepts (TypeCheck cond) /\ is_boolean cond /\
  Forall (fun s => accepts (StatTypeCheck s)) body.
Proof.
  cbn [StatTypeCheck]. unfold CAstStatWhile.TypeCheck. cbn [checked c_TypeCheck c_GetType c_token].
  rewrite condition_accepts.
  - rewrite accepts_seq by apply fixed_ret_true.
    rewrite check_chain_accepts by apply StatTypeChecks_fixed.
    rewrite Forall_map. unfold is_boolean.
    split.
    + intros (Hc & Hb & Hi & _). auto.
    + intros (Hc & Hb & Hi).
      repeat (split; [assumption|]). apply accepts_ret_true.
  - apply fixed_seq;
      [apply check_chain_fixed, StatTypeChecks_fixed | apply fixed_ret_true].
Qed.

Lemma Scope_accepts (t : CToken) (name : string)
      (statseq : list CAstStatement) (children : list CAstScope) :
  accepts (ScopeTypeCheck (Scope t name statseq children)) <->
  Forall (fun s => accepts (StatTypeCheck s)) statseq /\
  Forall (fun c => accepts (ScopeTypeCheck c)) children.
Proof.
  cbn [ScopeTypeCheck].
  rewrite (accepts_ext _ _ (Scope_TypeCheck_chain _ _)).
  rewrite accepts_seq by apply check_chain_fixed, ScopeTypeChecks_fixed.
  rewrite check_chain_accepts by apply StatTypeChecks_fixed.
  rewrite check_chain_accepts by apply ScopeTypeChecks_fixed.
  rewrite !Forall_map. reflexivity.
Qed.

Lemma lower_chain_safe (body : list (CTacLabel -> M (option CTacAddr))) :
  Forall (fun s => forall next, safe (s next)) body ->
  safe (lower_chain body).
Proof.
  intros Hb. induction Hb as [|s rest Hs Hrest IH]; simpl;
    [apply safe_ret|].
  apply safe_bind; [apply safe_CreateLabel|]. intros next.
  apply safe_bind; [apply Hs|]. intros _.
  apply safe_bind; [apply safe_AddInstr|]. intros _. exact IH.
Qed.

Lemma accepted_args_safe (GetSize : CType -> Z) (arg : list CAstExpression) :
  Forall (fun a => accepts (TypeCheck a)) arg ->
  forallb arrays_ok arg = true ->
  Forall safe (map (ToTac GetSize) arg).
Proof.
  intros Ha Hok. apply Forall_map. rewrite forallb_forall in Hok.
  rewrite Forall_forall in Ha |- *. intros a Hin.
  apply accepted_expression_safe; [apply Ha, Hin | apply Hok, Hin].
Qed.

Lemma accepted_statement_safe (GetSize : CType -> Z) (s : CAstStatement) :
  accepts (StatTypeCheck s) -> stat_arrays_ok s = true ->
  forall next, safe (StatToTac GetSize s next).
Proof.
  induction s as [t lhs rhs | t tcall symbol arg | t scope expr
                 | t cond ifBody elseBody IHi IHe | t cond body IHb]
    using CAstStatement_tree_ind; intros Hacc Hok next.
  - apply StatAssign_accepts in Hacc as (Hl & Hr & _).
    simpl in Hok. apply andb_prop in Hok as [Okl Okr].
    simpl. unfold CAstStatAssign.ToTac.
    apply safe_bind; [apply accepted_expression_safe; assumption|].
    intros src.
    apply safe_bind; [apply accepted_expression_safe; assumption|].
    intros dst. repeat safe_step.
  - simpl in Hacc. unfold CAstStatCall.TypeCheck in Hacc.
    apply FunctionCall_accepts in Hacc. simpl in Hok.
    simpl. unfold CAstStatCall.ToTac.
    apply safe_bind.
    { apply StatCall_params_safe; [|lia].
      apply accepted_args_safe; [|exact Hok].
      clear - Hacc. induction Hacc as [|x y l l' [Hx _] _ IHf];
        constructor; assumption. }
    intros _. repeat safe_step.
  - apply StatReturn_accepts in Hacc
      as [[_ ->] | (_ & e & ty & -> & He & _)];
      simpl; unfold CAstStatReturn.ToTac.
    + repeat safe_step.
    + simpl in Hok.
      apply safe_bind; [|intros retval; repeat safe_step].
      apply safe_bind; [|intros a; apply safe_ret].
      apply accepted_expression_safe; assumption.
  - apply StatIf_accepts in Hacc as (Hc & Hb & Hi & He).
    cbn [stat_arrays_ok] in Hok.
    apply andb_prop in Hok as [Hok Oke].
    apply andb_prop in Hok as [Okc Oki].
    assert (Si : safe (lower_chain (map (StatToTac GetSize) ifBody))).
    { apply lower_chain_safe, Forall_map.
      rewrite forallb_forall in Oki.
      rewrite Forall_forall in IHi, Hi |- *. intros s Hin.
      apply (IHi s Hin); [apply Hi, Hin | apply Oki, Hin]. }
    assert (Se : safe (lower_chain (map (StatToTac GetSize) elseBody))).
    { apply lower_chain_safe, Forall_map.
      rewrite forallb_forall in Oke.
      rewrite Forall_forall in IHe, He |- *. intros s Hin.
      apply (IHe s Hin); [apply He, Hin | apply Oke, Hin]. }
    pose proof (proj1 (proj2 (accepted_expression_safe GetSize cond Hc Okc))
                      Hb) as Sc.
    cbn [StatToTac]. unfold CAstStatIf.ToTac. repeat safe_step.
  - apply StatWhile_accepts in Hacc as (Hc & Hb & Hi).
    cbn [stat_arrays_ok] in Hok.
    apply andb_prop in Hok as [Okc Oki].
    assert (Si : safe (lower_chain (map (StatToTac GetSize) body))).
    { apply lower_chain_safe, Forall_map.
      rewrite forallb_forall in Oki.
      rewrite Forall_forall in IHb, Hi |- *. intros s Hin.
      apply (IHb s Hin); [apply Hi, Hin | apply Oki, Hin]. }
    pose proof (proj1 (proj2 (accepted_expression_safe GetSize cond Hc Okc))
                      Hb) as Sc.
    cbn [StatToTac]. unfold CAstStatWhile.ToTac. repeat safe_step.
Qed.

(** ** How the lowerings compose *)


Lemma StatCall_params_FunctionCall (arg : list (M CTacAddr)) (n : nat)
      (cb : CCodeBlock) :
  CAstStatCall.params arg n cb = CAstFunctionCall.params arg n cb.
Proof.
  revert cb. induction n as [|i IH]; intros cb; simpl; [reflexivity|].
  apply bind_ext. intros argTac cb1.
  apply bind_ext. intros u cb2. apply IH.
Qed.

(** The call of a function as a statement is the call as an expression,
    followed by the jump to [next]. *)
Lemma StatCall_of_function (symbol : CSymbol) (arg : list (M CTacAddr))
      (next : CTacLabel) (cb : CCodeBlock) :
  IsNull (GetDataType symbol) = false ->
  CAstStatCall.ToTac symbol arg next cb =
  (CAstFunctionCall.ToTac symbol arg ;;;
   AddInstr (goto next) ;;;
   ret None) cb.
Proof.
  intros Hn. unfold CAstStatCall.ToTac, CAstFunctionCall.ToTac.
  rewrite Hn. simpl negb. cbv iota.
  rewrite bind_assoc.
  apply bind_cong; [apply StatCall_params_FunctionCall|].
  intros u cb1. reflexivity.
Qed.

(** ** The type checker returns *)

Lemma answers_ret (b : bool) : answers (ret b).
Proof. intros d. exists b, d. reflexivity. Qed.

Lemma answers_report (tok : CToken) (m : Message) : answers (report tok m).
Proof. intros d. eexists _, _. reflexivity. Qed.

Lemma answers_bind (m : TC bool) (k : bool -> TC bool) :
  answers m ->
  (forall b, (b = true -> accepts m) -> answers (k b)) ->
  answers (bind m k).
Proof.
  intros Hm Hk d. destruct (Hm d) as (b & d1 & E).
  unfold bind. rewrite E. apply Hk.
  intros ->. exists d, d1. exact E.
Qed.

Lemma answers_lift {A : Type} (o : option A) (k : A -> TC bool) :
  o <> None -> (forall a, o = Some a -> answers (k a)) ->
  answers (bind (lift o) k).
Proof.
  intros Ho Hk. destruct o as [a|]; [|congruence].
  intros d. apply (Hk a eq_refl d).
Qed.

(** A decision without a further check: every branch is an answer. *)
Ltac answers_leaf :=
  repeat match goal with
         | |- answers (ret _) => apply answers_ret
         | |- answers (report _ _) => apply answers_report
         | |- answers (if ?c then _ else _) => destruct c
         | |- answers (match ?x with _ => _ end) => destruct x
         end.

Lemma check_args_answers (proc : CSymbol) (rest : list CAstExpression)
      (i : nat) :
  Forall (fun a => answers (TypeCheck a) /\
                   (accepts (TypeCheck a) -> GetType a <> None)) rest ->
  (i + List.length rest <= List.length (GetParams proc))%nat ->
  answers (CAstFunctionCall.check_args proc (map checked rest) i).
Proof.
  intros Hr. revert i.
  induction Hr as [|e rest [He Ht] Hrest IH]; intros i Hi; simpl;
    [apply answers_ret|].
  simpl in Hi.
  apply answers_lift.
  { intros E. apply nth_error_None in E. lia. }
  intros pt _.
  apply answers_bind; [exact He|]. intros ok Hok.
  destruct ok; simpl; [|apply answers_ret].
  apply answers_lift; [apply Ht, Hok; reflexivity|].
  intros ty _. destruct ty as [et|]; [|apply answers_report].
  destruct (negb _); [apply answers_report|].
  apply IH. lia.
Qed.

Lemma check_indices_answers (idx : list CAstExpression) :
  Forall (fun a => answers (TypeCheck a) /\
                   (accepts (TypeCheck a) -> GetType a <> None)) idx ->
  answers (CAstArrayDesignator.check_indices (map checked idx)).
Proof.
  intros Hr. induction Hr as [|e rest [He Ht] Hrest IH]; simpl;
    [apply answers_ret|].
  apply answers_bind; [exact He|]. intros ok Hok.
  destruct ok; simpl; [|apply answers_ret].
  apply answers_lift; [apply Ht, Hok; reflexivity|].
  intros ty _. destruct ty as [et|]; [|apply answers_report].
  destruct (negb _); [apply answers_report | exact IH].
Qed.

Lemma forallb_Forall_IH {A : Type} (f : A -> bool) (P : A -> Prop)
      (l : list A) :
  Forall (fun a => f a = true -> P a) l -> forallb f l = true ->
  Forall P l.
Proof.
  intros H Hf. rewrite forallb_forall in Hf.
  rewrite Forall_forall in H |- *. intros a Hin.
  apply (H a Hin), Hf, Hin.
Qed.

(** The type check of an expression returns, and the type of an expression
    that passed is computed without abort. *)
Lemma TypeCheck_answers (e : CAstExpression) :
  designators_typed e = true ->
  answers (TypeCheck e) /\ (accepts (TypeCheck e) -> GetType e <> None).
Proof.
  induction e as [t oper l r IHl IHr | t oper e IH | t oper e type IH
                 | t symbol arg IH | t symbol | t symbol idx IH
                 | t type value | t type value sym]
    using CAstExpression_tree_ind; intros Hok; simpl in Hok.
  - apply andb_prop in Hok as [Okl Okr].
    destruct (IHl Okl) as [Al Tl]. destruct (IHr Okr) as [Ar Tr].
    split; [|discriminate].
    simpl. unfold CAstBinaryOp.TypeCheck. simpl.
    apply answers_bind; [exact Al|]. intros okl Hl.
    destruct okl; simpl; [|apply answers_ret].
    apply answers_bind; [exact Ar|]. intros okr Hr.
    destruct okr; simpl; [|apply answers_ret].
    apply answers_lift; [apply Tl, Hl; reflexivity|]. intros lt _.
    apply answers_lift; [apply Tr, Hr; reflexivity|]. intros rt _.
    answers_leaf.
  - destruct (IH Hok) as [Ae Te]. split; [|discriminate].
    simpl. unfold CAstUnaryOp.TypeCheck. simpl.
    apply answers_bind; [exact Ae|]. intros ok He.
    destruct ok; simpl; [|answers_leaf].
    destruct oper; try apply answers_report.
    all: apply answers_lift; [apply Te, He; reflexivity|];
      intros ty _; answers_leaf.
  - destruct (IH Hok) as [Ae Te]. split.
    + simpl. unfold CAstSpecialOp.TypeCheck. simpl.
      apply answers_bind; [exact Ae|]. intros ok He.
      destruct ok; simpl; [|apply answers_ret].
      destruct oper; try apply answers_ret.
      apply answers_lift; [apply Te, He; reflexivity|].
      intros ty _. answers_leaf.
    + intros Ha. apply SpecialOp_accepts in Ha as [He Hd].
      specialize (Te He). simpl.
      destruct oper; simpl; try discriminate.
      * destruct (GetType e); [discriminate | congruence].
      * destruct (Hd eq_refl) as (ty & -> & Hp).
        rewrite Hp. destruct ty; discriminate.
  - split; [|discriminate].
    pose proof (forallb_Forall_IH _ _ _ IH Hok) as Ha.
    simpl. unfold CAstFunctionCall.TypeCheck, GetNParams.
    rewrite length_map.
    destruct (List.length arg =? List.length (GetParams symbol))%nat eqn:El;
      simpl; [|apply answers_report].
    apply Nat.eqb_eq in El.
    apply (check_args_answers symbol arg 0 Ha). simpl. lia.
  - split; [|discriminate].
    simpl. unfold CAstDesignator.TypeCheck. answers_leaf.
  - apply andb_prop in Hok as [Hs Hi].
    pose proof (forallb_Forall_IH _ _ _ IH Hi) as Ha.
    split.
    + simpl. unfold CAstArrayDesignator.TypeCheck.
      apply answers_bind; [apply (check_indices_answers idx Ha)|].
      intros ok _. destruct ok; apply answers_ret.
    + intros _. simpl. unfold CAstArrayDesignator.GetType.
      unfold indexed_array in Hs.
      destruct (GetDataType symbol) as [| | | | b | n inner]; simpl;
        try discriminate.
      * destruct b as [b|]; [|discriminate Hs].
        destruct (negb (IsArray b)); [discriminate|].
        destruct (GetNDim b <? List.length idx)%nat; discriminate.
      * destruct (S (GetNDim inner) <? List.length idx)%nat; discriminate.
  - split; [|discriminate].
    simpl. unfold CAstConstant.TypeCheck. answers_leaf.
  - split; [|discriminate].
    simpl. unfold CAstStringConstant.TypeCheck. answers_leaf.
Qed.

Lemma check_chain_answers (body : list (TC bool)) :
  Forall answers body -> answers (check_chain body).
Proof.
  intros Hb. induction Hb as [|s rest Hs Hrest IH]; simpl;
    [apply answers_ret|].
  apply answers_bind; [exact Hs|]. intros ok _.
  destruct ok; simpl; [exact IH | apply answers_ret].
Qed.

Lemma condition_answers (cond : CAstExpression) (k : TC bool) :
  designators_typed cond = true -> answers k ->
  answers
    (ok <- TypeCheck cond ;;
     if negb ok then ret false else
     ty <- lift (GetType cond) ;;
     if negb (match ty with
              | Some t => Match t CTypeManager.GetBool
              | None => false
              end) then
       report (GetToken cond)
         [Str "condition should be bool type, but "; show_type ty;
          Str " appeared"; Endl]
     else k).
Proof.
  intros Hok Hk. destruct (TypeCheck_answers cond Hok) as [Ac Tc].
  apply answers_bind; [exact Ac|]. intros ok Hc.
  destruct ok; simpl; [|apply answers_ret].
  apply answers_lift; [apply Tc, Hc; reflexivity|]. intros ty _.
  destruct (negb _); [apply answers_report | exact Hk].
Qed.

Lemma StatTypeCheck_answers (s : CAstStatement) :
  stat_designators_typed s = true -> answers (StatTypeCheck s).
Proof.
  induction s as [t lhs rhs | t tcall symbol arg | t scope expr
                 | t cond ifBody elseBody IHi IHe | t cond body IHb]
    using CAstStatement_tree_ind; intros Hok.
  - simpl in Hok. apply andb_prop in Hok as [Okl Okr].
    destruct (TypeCheck_answers lhs Okl) as [Al Tl].
    destruct (TypeCheck_answers rhs Okr) as [Ar Tr].
    simpl. unfold CAstStatAssign.TypeCheck. simpl.
    apply answers_bind; [exact Al|]. intros okl Hl.
    destruct okl; simpl; [|apply answers_ret].
    apply answers_bind; [exact Ar|]. intros okr Hr.
    destruct okr; simpl; [|apply answers_ret].
    apply answers_lift; [apply Tl, Hl; reflexivity|]. intros lt _.
    destruct lt as [lty|]; [|apply answers_report].
    destruct (negb (IsScalar lty)); [apply answers_report|].
    apply answers_lift; [apply Tr, Hr; reflexivity|]. intros rt _.
    answers_leaf.
  - simpl in Hok. simpl StatTypeCheck. unfold CAstStatCall.TypeCheck.
    apply (TypeCheck_answers (FunctionCall tcall symbol arg)). exact Hok.
  - simpl in Hok. simpl. unfold CAstStatReturn.TypeCheck.
    destruct (Match _ _); destruct expr as [e|]; simpl;
      try apply answers_report; try apply answers_ret.
    destruct (TypeCheck_answers e Hok) as [Ae Te].
    apply answers_bind; [exact Ae|]. intros ok He.
    destruct ok; simpl; [|apply answers_ret].
    apply answers_lift; [apply Te, He; reflexivity|]. intros ty _.
    answers_leaf.
  - cbn [stat_designators_typed] in Hok.
    apply andb_prop in Hok as [Hok Oke].
    apply andb_prop in Hok as [Okc Oki].
    cbn [StatTypeCheck]. unfold CAstStatIf.TypeCheck.
    cbn [checked c_TypeCheck c_GetType c_token].
    apply condition_answers; [exact Okc|].
    apply answers_bind.
    { apply check_chain_answers, Forall_map.
      apply (forallb_Forall_IH _ _ _ IHi Oki). }
    intros okI _. destruct okI; simpl; [|apply answers_ret].
    apply answers_bind.
    { apply check_chain_answers, Forall_map.
      apply (forallb_Forall_IH _ _ _ IHe Oke). }
    intros okE _. destruct okE; apply answers_ret.
  - cbn [stat_designators_typed] in Hok.
    apply andb_prop in Hok as [Okc Oki].
    cbn [StatTypeCheck]. unfold CAstStatWhile.TypeCheck.
    cbn [checked c_TypeCheck c_GetType c_token].
    apply condition_answers; [exact Okc|].
    apply answers_bind.
    { apply check_chain_answers, Forall_map.
      apply (forallb_Forall_IH _ _ _ IHb Oki). }
    intros okB _. destruct okB; apply answers_ret.
Qed.

Lemma answers_ext (m m' : TC bool) :
  (forall d, m d = m' d) -> answers m -> answers m'.
Proof. intros E H d. rewrite <- E. apply H. Qed.

Lemma ScopeTypeCheck_answers (sc : CAstScope) :
  scope_designators_typed sc = true -> answers (ScopeTypeCheck sc).
Proof.
  induction sc as [t name statseq children IH] using CAstScope_tree_ind.
  intros Hok. cbn [scope_designators_typed] in Hok.
  apply andb_prop in Hok as [Oks Okc].
  cbn [ScopeTypeCheck].
  eapply answers_ext; [intros d; symmetry; apply Scope_TypeCheck_chain|].
  apply answers_bind.
  - apply check_chain_answers, Forall_map.
    rewrite forallb_forall in Oks. apply Forall_forall. intros s Hin.
    apply StatTypeCheck_answers, Oks, Hin.
  - intros ok _. destruct ok; simpl; [|apply answers_ret].
    apply check_chain_answers, Forall_map.
    apply (forallb_Forall_IH _ _ _ IH Okc).
Qed.

(** * Further results on the lowering and on the type checker *)

(** X1: the value form of the lowering of any expression appends code that
    is closed under its jumps: every label it jumps to is placed in that
    code, every label it places was drawn from the code block during the
    lowering and is placed once, and the symbol table is left alone. *)
Theorem value_lowering_labels_closed (GetSize : CType -> Z)
        (e : CAstExpression) (cb cb' : CCodeBlock) (a : CTacAddr) :
  ToTac GetSize e cb = Some (a, cb') ->
  well_labelled [] [] cb cb'.
Proof. intros H. exact (proj1 (ToTac_closed_child GetSize e) cb a cb' H). Qed.

Lemma value_lowering_labels_closed_witness :
  exists a cb',
    ToTac Sample.GetSize
          (BinaryOp (Sample.tok 1) opAnd
                    (Designator (Sample.tok 1) Sample.b)
                    (FunctionCall (Sample.tok 1) Sample.f []))
          Sample.cb = Some (a, cb') /\
    well_labelled [] [] Sample.cb cb'.
Proof.
  eexists _, _. split; [vm_compute; reflexivity|].
  eapply (value_lowering_labels_closed Sample.GetSize
           (BinaryOp (Sample.tok 1) opAnd
                     (Designator (Sample.tok 1) Sample.b)
                     (FunctionCall (Sample.tok 1) Sample.f []))
           Sample.cb _ _).
  vm_compute; reflexivity.
Defined.

(** X2: the condition form of the lowering of any expression appends code
    whose jumps go to [ltrue], to [lfalse] or to a label placed in that
    code; the labels it places are fresh and placed once. *)
Theorem condition_lowering_labels_closed (GetSize : CType -> Z)
        (e : CAstExpression) (ltrue lfalse : CTacLabel)
        (cb cb' : CCodeBlock) (a : option CTacAddr) :
  ToTacCond GetSize e ltrue lfalse cb = Some (a, cb') ->
  well_labelled [ltrue; lfalse] [] cb cb'.
Proof.
  intros H.
  exact (proj2 (ToTac_closed_child GetSize e) ltrue lfalse cb a cb' H).
Qed.

Lemma condition_lowering_labels_closed_witness :
  exists a cb',
    ToTacCond Sample.GetSize
              (BinaryOp (Sample.tok 1) opOr
                        (UnaryOp (Sample.tok 1) opNot
                                 (Designator (Sample.tok 1) Sample.b))
                        (FunctionCall (Sample.tok 1) Sample.f []))
              Sample.ltrue Sample.lfalse Sample.cb = Some (a, cb') /\
    well_labelled [Sample.ltrue; Sample.lfalse] [] Sample.cb cb'.
Proof.
  eexists _, _. split; [vm_compute; reflexivity|].
  eapply (condition_lowering_labels_closed Sample.GetSize
           (BinaryOp (Sample.tok 1) opOr
                     (UnaryOp (Sample.tok 1) opNot
                              (Designator (Sample.tok 1) Sample.b))
                     (FunctionCall (Sample.tok 1) Sample.f []))
           Sample.ltrue Sample.lfalse Sample.cb _ _).
  vm_compute; reflexivity.
Defined.

(** X3: the lowering of any statement appends code whose jumps go to
    [next] or to a label placed in that code, the label of the head of a
    loop included; the labels it places are fresh and placed once. *)
Theorem statement_lowering_labels_closed (GetSize : CType -> Z)
        (s : CAstStatement) (next : CTacLabel) (cb cb' : CCodeBlock)
        (a : option CTacAddr) :
  StatToTac GetSize s next cb = Some (a, cb') ->
  well_labelled [next] [] cb cb'.
Proof. intros H. exact (StatToTac_closed GetSize s next cb a cb' H). Qed.

Lemma statement_lowering_labels_closed_witness :
  exists a cb',
    StatToTac Sample.GetSize
              (StatWhile (Sample.tok 1) (Designator (Sample.tok 1) Sample.b)
                 [StatAssign (Sample.tok 2)
                             (Designator (Sample.tok 2) Sample.i)
                             (Constant (Sample.tok 2) (Some TInt) 0)])
              Sample.lfalse Sample.cb = Some (a, cb') /\
    well_labelled [Sample.lfalse] [] Sample.cb cb'.
Proof.
  eexists _, _. split; [vm_compute; reflexivity|].
  eapply (statement_lowering_labels_closed Sample.GetSize
           (StatWhile (Sample.tok 1) (Designator (Sample.tok 1) Sample.b)
              [StatAssign (Sample.tok 2)
                          (Designator (Sample.tok 2) Sample.i)
                          (Constant (Sample.tok 2) (Some TInt) 0)])
           Sample.lfalse Sample.cb _ _).
  vm_compute; reflexivity.
Defined.

(** X4: the lowering of any statement returns the null address, and the
    code it appends is not empty and ends in the jump to [next]: control
    never runs off the end of the code of a statement. *)
Theorem statement_lowering_ends_in_goto (GetSize : CType -> Z)
        (s : CAstStatement) (next : CTacLabel) (cb cb' : CCodeBlock)
        (a : option CTacAddr) :
  StatToTac GetSize s next cb = Some (a, cb') ->
  a = None /\
  exists code, cb_ops cb' = cb_ops cb ++ code ++ [goto next].
Proof.
  intros H. split.
  - exact (StatToTac_returns_null GetSize s next cb cb' a H).
  - exact (StatToTac_ends GetSize s next cb a cb' H).
Qed.

Lemma statement_lowering_ends_in_goto_witness :
  exists a cb',
    StatToTac Sample.GetSize
              (StatIf (Sample.tok 1) (Designator (Sample.tok 1) Sample.b)
                 [StatReturn (Sample.tok 2) InModule None] [])
              Sample.lfalse Sample.cb = Some (a, cb') /\
    a = None /\
    exists code,
      cb_ops cb' = cb_ops Sample.cb ++ code ++ [goto Sample.lfalse].
Proof.
  eexists _, _. split; [vm_compute; reflexivity|].
  eapply (statement_lowering_ends_in_goto Sample.GetSize
           (StatIf (Sample.tok 1) (Designator (Sample.tok 1) Sample.b)
              [StatReturn (Sample.tok 2) InModule None] [])
           Sample.lfalse Sample.cb _ _).
  vm_compute; reflexivity.
Defined.



(** X6: the lowering of a scope returns the null address, and the code it
    hands to [CleanupControlFlow] is closed under its jumps: every jump
    goes to a label that is placed, once, in the code of the scope. *)
Theorem scope_lowering_labels_closed (GetSize : CType -> Z)
        (CleanupControlFlow : M unit) (sc : CAstScope)
        (cb cb' : CCodeBlock) (a : option CTacAddr) :
  ScopeToTac GetSize CleanupControlFlow sc cb = Some (a, cb') ->
  a = None /\
  exists cb1,
    well_labelled [] [] cb cb1 /\
    CleanupControlFlow cb1 = Some (tt, cb').
Proof.
  destruct sc as [t name statseq children]. simpl.
  unfold CAstScope.ToTac. intros H.
  apply bind_Some in H as (u & cb1 & H1 & H).
  apply bind_Some in H as ([] & cb2 & H2 & H).
  inversion H; subst. split; [reflexivity|].
  exists cb1. split; [|exact H2].
  exact (lower_chain_closed _ [] (StatToTacs_closed GetSize statseq)
                            cb u cb1 H1).
Qed.

Lemma scope_lowering_labels_closed_witness :
  exists a cb',
    ScopeToTac Sample.GetSize (ret tt)
      (Scope (Sample.tok 1) "m"
         [StatWhile (Sample.tok 1) (Designator (Sample.tok 1) Sample.b)
            [StatAssign (Sample.tok 2) (Designator (Sample.tok 2) Sample.i)
                        (Constant (Sample.tok 2) (Some TInt) 0)];
          StatReturn (Sample.tok 3) InModule None] [])
      Sample.cb = Some (a, cb') /\
    a = None /\
    exists cb1,
      well_labelled [] [] Sample.cb cb1 /\ ret tt cb1 = Some (tt, cb').
Proof.
  eexists _, _. split; [vm_compute; reflexivity|].
  eapply (scope_lowering_labels_closed Sample.GetSize (ret tt)
           (Scope (Sample.tok 1) "m"
              [StatWhile (Sample.tok 1) (Designator (Sample.tok 1) Sample.b)
                 [StatAssign (Sample.tok 2)
                             (Designator (Sample.tok 2) Sample.i)
                             (Constant (Sample.tok 2) (Some TInt) 0)];
               StatReturn (Sample.tok 3) InModule None] [])
           Sample.cb _ _).
  vm_compute; reflexivity.
Defined.

(** X7: when the type check of an expression answers [false] it has
    written a message that is not empty, and the token and the message it
    writes do not depend on what the two out-parameters held. *)
Theorem expression_failure_writes_diagnostic (e : CAstExpression)
        (d d' : Diag) :
  TypeCheck e d = Some (false, d') ->
  d_msg d' <> [] /\ forall d0, TypeCheck e d0 = Some (false, d').
Proof. apply fixed_rejects, TypeCheck_fixed. Qed.

Lemma expression_failure_writes_diagnostic_witness :
  exists d',
    TypeCheck (BinaryOp (Sample.tok 5) opAdd
                        (Designator (Sample.tok 6) Sample.i)
                        (Designator (Sample.tok 7) Sample.b))
              Sample.diag = Some (false, d') /\
    d_msg d' <> [] /\
    forall d0,
      TypeCheck (BinaryOp (Sample.tok 5) opAdd
                          (Designator (Sample.tok 6) Sample.i)
                          (Designator (Sample.tok 7) Sample.b))
                d0 = Some (false, d').
Proof.
  eexists _. split; [vm_compute; reflexivity|].
  eapply (expression_failure_writes_diagnostic
           (BinaryOp (Sample.tok 5) opAdd
                     (Designator (Sample.tok 6) Sample.i)
                     (Designator (Sample.tok 7) Sample.b))
           Sample.diag _).
  vm_compute; reflexivity.
Defined.

(** X8: when the type check of a statement answers [false] it has written
    a message that is not empty, and the token and the message do not
    depend on what the two out-parameters held. *)
Theorem statement_failure_writes_diagnostic (s : CAstStatement)
        (d d' : Diag) :
  StatTypeCheck s d = Some (false, d') ->
  d_msg d' <> [] /\ forall d0, StatTypeCheck s d0 = Some (false, d').
Proof. apply fixed_rejects, StatTypeCheck_fixed. Qed.

Lemma statement_failure_writes_diagnostic_witness :
  exists d',
    StatTypeCheck (StatWhile (Sample.tok 1)
                     (Designator (Sample.tok 1) Sample.i) [])
                  Sample.diag = Some (false, d') /\
    d_msg d' <> [] /\
    forall d0,
      StatTypeCheck (StatWhile (Sample.tok 1)
                       (Designator (Sample.tok 1) Sample.i) [])
                    d0 = Some (false, d').
Proof.
  eexists _. split; [vm_compute; reflexivity|].
  eapply (statement_failure_writes_diagnostic
           (StatWhile (Sample.tok 1) (Designator (Sample.tok 1) Sample.i) [])
           Sample.diag _).
  vm_compute; reflexivity.
Defined.

(** X9: when the type check of a scope answers [false] it has written a
    message that is not empty, and the token and the message do not depend
    on what the two out-parameters held. *)
Theorem scope_failure_writes_diagnostic (sc : CAstScope) (d d' : Diag) :
  ScopeTypeCheck sc d = Some (false, d') ->
  d_msg d' <> [] /\ forall d0, ScopeTypeCheck sc d0 = Some (false, d').
Proof. apply fixed_rejects, ScopeTypeCheck_fixed. Qed.

Lemma scope_failure_writes_diagnostic_witness :
  exists d',
    ScopeTypeCheck
      (Scope (Sample.tok 1) "m" []
         [Scope (Sample.tok 2) "q"
            [StatReturn (Sample.tok 3) (InProcedure Sample.f) None] []])
      Sample.diag = Some (false, d') /\
    d_msg d' <> [] /\
    forall d0,
      ScopeTypeCheck
        (Scope (Sample.tok 1) "m" []
           [Scope (Sample.tok 2) "q"
              [StatReturn (Sample.tok 3) (InProcedure Sample.f) None] []])
        d0 = Some (false, d').
Proof.
  eexists _. split; [vm_compute; reflexivity|].
  eapply (scope_failure_writes_diagnostic
           (Scope (Sample.tok 1) "m" []
              [Scope (Sample.tok 2) "q"
                 [StatReturn (Sample.tok 3) (InProcedure Sample.f) None] []])
           Sample.diag _).
  vm_compute; reflexivity.
Defined.

(** X10: a scope passes the type check exactly when each of its statements
    and each of its nested scopes passes it on its own. *)
Theorem scope_accepted_iff_parts_accepted (t : CToken) (name : string)
        (statseq : list CAstStatement) (children : list CAstScope) :
  accepts (ScopeTypeCheck (Scope t name statseq children)) <->
  Forall (fun s => accepts (StatTypeCheck s)) statseq /\
  Forall (fun c => accepts (ScopeTypeCheck c)) children.
Proof. apply Scope_accepts. Qed.

(** X11: the type check of a scope reports the diagnostic of its first
    failing statement: when the statements before it pass, the later
    statements and the nested scopes are not examined. *)
Theorem scope_reports_first_failure (t : CToken) (name : string)
        (pre post : list CAstStatement) (s : CAstStatement)
        (children : list CAstScope) (d0 d' : Diag) :
  Forall (fun x => accepts (StatTypeCheck x)) pre ->
  StatTypeCheck s d0 = Some (false, d') ->
  forall d,
    ScopeTypeCheck (Scope t name (pre ++ s :: post) children) d =
      Some (false, d').
Proof.
  intros Hp Hs d. cbn [ScopeTypeCheck].
  rewrite Scope_TypeCheck_chain. rewrite map_app. simpl map.
  unfold bind.
  rewrite (check_chain_first_failure (map StatTypeCheck pre)
             (map StatTypeCheck post) (StatTypeCheck s) d0 d').
  - reflexivity.
  - apply StatTypeChecks_fixed.
  - apply Forall_map. exact Hp.
  - apply StatTypeCheck_fixed.
  - exact Hs.
Qed.

Lemma scope_reports_first_failure_witness :
  exists d',
    forall d,
      ScopeTypeCheck
        (Scope (Sample.tok 1) "m"
           ([StatAssign (Sample.tok 2) (Designator (Sample.tok 2) Sample.i)
                        (Constant (Sample.tok 2) (Some TInt) 0)] ++
            StatAssign (Sample.tok 3) (Designator (Sample.tok 3) Sample.i)
                       (Designator (Sample.tok 3) Sample.b) ::
            [StatAssign (Sample.tok 4) (Designator (Sample.tok 4) Sample.b)
                        (Designator (Sample.tok 4) Sample.i)])
           [])
        d = Some (false, d').
Proof.
  eexists _.
  apply (scope_reports_first_failure (Sample.tok 1) "m"
           [StatAssign (Sample.tok 2) (Designator (Sample.tok 2) Sample.i)
                       (Constant (Sample.tok 2) (Some TInt) 0)]
           [StatAssign (Sample.tok 4) (Designator (Sample.tok 4) Sample.b)
                       (Designator (Sample.tok 4) Sample.i)]
           (StatAssign (Sample.tok 3) (Designator (Sample.tok 3) Sample.i)
                       (Designator (Sample.tok 3) Sample.b))
           [] Sample.diag _).
  - constructor; [|constructor].
    exists Sample.diag, Sample.diag. vm_compute; reflexivity.
  - vm_compute; reflexivity.
Defined.

(** X12: a binary operation passes the type check exactly when both
    operands pass, their types are scalar, are no pointers and match, and
    the type of the left operand is what the operator asks for: integer for
    the arithmetic operators, boolean for [and] and [or], anything for
    [=] and [#], anything but boolean for the four orderings; no other
    operator passes. *)
Theorem binary_operation_accepted_iff (t : CToken) (oper : EOperation)
        (l r : CAstExpression) :
  accepts (TypeCheck (BinaryOp t oper l r)) <->
  accepts (TypeCheck l) /\ accepts (TypeCheck r) /\
  exists lt rt,
    GetType l = Some (Some lt) /\ GetType r = Some (Some rt) /\
    IsScalar lt = true /\ IsScalar rt = true /\
    IsPointer lt = false /\ IsPointer rt = false /\
    Match lt rt = true /\ operand_rule oper lt = true.
Proof. apply BinaryOp_accepts. Qed.

(** X13: a unary operation passes the type check in two cases only: its
    operand passes and has the type the operator asks for (integer for
    [+] and [-], boolean for [not]); or the operator is [-] and the operand
    is a constant node whose own check fails, whatever the reason of that
    failure. *)
Theorem unary_operation_accepted_iff (t : CToken) (oper : EOperation)
        (e : CAstExpression) :
  accepts (TypeCheck (UnaryOp t oper e)) <->
  (oper = opNeg /\ is_CAstConstant e = true /\ rejects (TypeCheck e)) \/
  (accepts (TypeCheck e) /\
   exists ty, GetType e = Some (Some ty) /\ unary_rule oper ty = true).
Proof. apply UnaryOp_accepts. Qed.

(** X14: a special operation passes the type check exactly when its
    operand passes and, for a dereference only, the type of the operand is
    a pointer; the address operator and the cast ask nothing of the type of
    the operand. *)
Theorem special_operation_accepted_iff (t : CToken) (oper : EOperation)
        (e : CAstExpression) (type : CTypeP) :
  accepts (TypeCheck (SpecialOp t oper e type)) <->
  accepts (TypeCheck e) /\
  (oper = opDeref ->
   exists ty, GetType e = Some (Some ty) /\ IsPointer ty = true).
Proof. apply SpecialOp_accepts. Qed.

(** X15: a call passes the type check exactly when it has as many
    arguments as the procedure has parameters and every argument passes
    and has a type that the type of its parameter matches. *)
Theorem function_call_accepted_iff (t : CToken) (symbol : CSymbol)
        (arg : list CAstExpression) :
  accepts (TypeCheck (FunctionCall t symbol arg)) <->
  Forall2 (fun a pt =>
             accepts (TypeCheck a) /\
             exists ty, GetType a = Some (Some ty) /\ Match pt ty = true)
          arg (GetParams symbol).
Proof. apply FunctionCall_accepts. Qed.

(** X16: an array designator passes the type check exactly when every
    index passes and has a type that matches integer; the symbol, its type
    and the number of indices play no part. *)
Theorem array_designator_accepted_iff (t : CToken) (symbol : CSymbol)
        (idx : list CAstExpression) :
  accepts (TypeCheck (ArrayDesignator t symbol idx)) <->
  Forall (fun a =>
            accepts (TypeCheck a) /\
            exists ty, GetType a = Some (Some ty) /\
                       Match ty CTypeManager.GetInt = true) idx.
Proof. apply ArrayDesignator_accepts. Qed.

(** X17: an assignment passes the type check exactly when both sides pass,
    both have a scalar type, and the type of the left side matches the type
    of the right side. *)
Theorem assignment_accepted_iff (t : CToken) (lhs rhs : CAstExpression) :
  accepts (StatTypeCheck (StatAssign t lhs rhs)) <->
  accepts (TypeCheck lhs) /\ accepts (TypeCheck rhs) /\
  exists lt rt,
    GetType lhs = Some (Some lt) /\ GetType rhs = Some (Some rt) /\
    IsScalar lt = true /\ IsScalar rt = true /\ Match lt rt = true.
Proof. apply StatAssign_accepts. Qed.

(** X18: a return statement passes the type check in two cases only: the
    type of its scope matches the null type and it has no expression; or
    the type of its scope does not, it has an expression, the expression
    passes and the type of the scope matches the type of the expression. *)
Theorem return_accepted_iff (t : CToken) (scope : CAstScopeRef)
        (expr : option CAstExpression) :
  accepts (StatTypeCheck (StatReturn t scope expr)) <->
  (Match (CAstScopeRef_GetType scope) CTypeManager.GetNull = true /\
   expr = None) \/
  (Match (CAstScopeRef_GetType scope) CTypeManager.GetNull = false /\
   exists e ty,
     expr = Some e /\ accepts (TypeCheck e) /\ GetType e = Some ty /\
     MatchP (CAstScopeRef_GetType scope) ty = true).
Proof. apply StatReturn_accepts. Qed.

(** X19: an [if] statement passes the type check exactly when its
    condition passes and has a type that matches boolean, and every
    statement of both bodies passes. *)
Theorem if_accepted_iff (t : CToken) (cond : CAstExpression)
        (ifBody elseBody : list CAstStatement) :
  accepts (StatTypeCheck (StatIf t cond ifBody elseBody)) <->
  accepts (TypeCheck cond) /\ is_boolean cond /\
  Forall (fun s => accepts (StatTypeCheck s)) ifBody /\
  Forall (fun s => accepts (StatTypeCheck s)) elseBody.
Proof. apply StatIf_accepts. Qed.

(** X20: a [while] statement passes the type check exactly when its
    condition passes and has a type that matches boolean, and every
    statement of its body passes. *)
Theorem while_accepted_iff (t : CToken) (cond : CAstExpression)
        (body : list CAstStatement) :
  accepts (StatTypeCheck (StatWhile t cond body)) <->
  accepts (TypeCheck cond) /\ is_boolean cond /\
  Forall (fun s => accepts (StatTypeCheck s)) body.
Proof. apply StatWhile_accepts. Qed.

(** X21: an expression that passes the type check is lowered without
    abort, in its value form and, when its type matches boolean, in its
    condition form, from every code block that declares the intrinsics
    [DIM] and [DOFS], provided each of its array designators has an index
    and a symbol that is an array or a pointer to an array. *)
Theorem accepted_expression_lowers (GetSize : CType -> Z)
        (e : CAstExpression) (cb : CCodeBlock) :
  accepts (TypeCheck e) ->
  arrays_ok e = true ->
  intrinsics cb ->
  (exists a cb', ToTac GetSize e cb = Some (a, cb')) /\
  (is_boolean e ->
   forall ltrue lfalse,
     exists a cb', ToTacCond GetSize e ltrue lfalse cb = Some (a, cb')).
Proof.
  intros Ha Hok Hi.
  destruct (accepted_expression_safe GetSize e Ha Hok) as (Sv & Sc & _).
  split.
  - destruct (Sv cb Hi) as (a & cb' & E & _). exists a, cb'. exact E.
  - intros Hb lt lf.
    destruct (Sc Hb lt lf cb Hi) as (a & cb' & E & _). exists a, cb'.
    exact E.
Qed.

Lemma accepted_expression_lowers_witness :
  (exists a cb',
      ToTac Sample.GetSize
            (BinaryOp (Sample.tok 1) opLessThan
               (ArrayDesignator (Sample.tok 1) Sample.a
                  [Designator (Sample.tok 1) Sample.i;
                   Designator (Sample.tok 1) Sample.j])
               (UnaryOp (Sample.tok 1) opNeg
                        (Constant (Sample.tok 1) (Some TInt) 2147483648)))
            Sample.cb = Some (a, cb')) /\
  (is_boolean
     (BinaryOp (Sample.tok 1) opLessThan
        (ArrayDesignator (Sample.tok 1) Sample.a
           [Designator (Sample.tok 1) Sample.i;
            Designator (Sample.tok 1) Sample.j])
        (UnaryOp (Sample.tok 1) opNeg
                 (Constant (Sample.tok 1) (Some TInt) 2147483648))) ->
   forall ltrue lfalse,
     exists a cb',
       ToTacCond Sample.GetSize
            (BinaryOp (Sample.tok 1) opLessThan
               (ArrayDesignator (Sample.tok 1) Sample.a
                  [Designator (Sample.tok 1) Sample.i;
                   Designator (Sample.tok 1) Sample.j])
               (UnaryOp (Sample.tok 1) opNeg
                        (Constant (Sample.tok 1) (Some TInt) 2147483648)))
            ltrue lfalse Sample.cb = Some (a, cb')).
Proof.
  apply (accepted_expression_lowers Sample.GetSize
           (BinaryOp (Sample.tok 1) opLessThan
              (ArrayDesignator (Sample.tok 1) Sample.a
                 [Designator (Sample.tok 1) Sample.i;
                  Designator (Sample.tok 1) Sample.j])
              (UnaryOp (Sample.tok 1) opNeg
                       (Constant (Sample.tok 1) (Some TInt) 2147483648)))
           Sample.cb).
  - exists Sample.diag. eexists _. vm_compute; reflexivity.
  - vm_compute; reflexivity.
  - split; eexists _; vm_compute; reflexivity.
Defined.

(** X22: a statement that passes the type check is lowered without abort
    from every code block that declares the intrinsics [DIM] and [DOFS],
    provided each of its array designators has an index and a symbol that
    is an array or a pointer to an array. *)
Theorem accepted_statement_lowers (GetSize : CType -> Z)
        (s : CAstStatement) (next : CTacLabel) (cb : CCodeBlock) :
  accepts (StatTypeCheck s) ->
  stat_arrays_ok s = true ->
  intrinsics cb ->
  exists cb', StatToTac GetSize s next cb = Some (None, cb').
Proof.
  intros Ha Hok Hi.
  destruct (accepted_statement_safe GetSize s Ha Hok next cb Hi)
    as (a & cb' & E & _).
  exists cb'. rewrite E.
  rewrite (StatToTac_returns_null GetSize s next cb cb' a E). reflexivity.
Qed.

Lemma accepted_statement_lowers_witness :
  exists cb',
    StatToTac Sample.GetSize
      (StatWhile (Sample.tok 1)
         (BinaryOp (Sample.tok 1) opAnd
                   (Designator (Sample.tok 1) Sample.b)
                   (FunctionCall (Sample.tok 1) Sample.f []))
         [StatAssign (Sample.tok 2)
            (ArrayDesignator (Sample.tok 2) Sample.a
               [Designator (Sample.tok 2) Sample.i;
                Designator (Sample.tok 2) Sample.j])
            (Constant (Sample.tok 2) (Some TInt) 0);
          StatCall (Sample.tok 3) (Sample.tok 3) Sample.p
            [Designator (Sample.tok 3) Sample.i;
             Designator (Sample.tok 3) Sample.j]])
      Sample.lfalse Sample.cb = Some (None, cb').
Proof.
  apply (accepted_statement_lowers Sample.GetSize
           (StatWhile (Sample.tok 1)
              (BinaryOp (Sample.tok 1) opAnd
                        (Designator (Sample.tok 1) Sample.b)
                        (FunctionCall (Sample.tok 1) Sample.f []))
              [StatAssign (Sample.tok 2)
                 (ArrayDesignator (Sample.tok 2) Sample.a
                    [Designator (Sample.tok 2) Sample.i;
                     Designator (Sample.tok 2) Sample.j])
                 (Constant (Sample.tok 2) (Some TInt) 0);
               StatCall (Sample.tok 3) (Sample.tok 3) Sample.p
                 [Designator (Sample.tok 3) Sample.i;
                  Designator (Sample.tok 3) Sample.j]])
           Sample.lfalse Sample.cb).
  - exists Sample.diag. eexists _. vm_compute; reflexivity.
  - vm_compute; reflexivity.
  - split; eexists _; vm_compute; reflexivity.
Defined.

(** X23: the call of a function (a procedure whose return type is not the
    null type) as a statement emits exactly the code of the same call as an
    expression, with the same temporary for the result, followed by the
    jump to [next]. *)
Theorem call_statement_is_call_expression (GetSize : CType -> Z)
        (t tcall : CToken) (symbol : CSymbol) (arg : list CAstExpression)
        (next : CTacLabel) (cb : CCodeBlock) :
  IsNull (GetDataType symbol) = false ->
  StatToTac GetSize (StatCall t tcall symbol arg) next cb =
  (ToTac GetSize (FunctionCall tcall symbol arg) ;;;
   AddInstr (goto next) ;;;
   ret None) cb.
Proof. intros Hn. simpl. apply StatCall_of_function, Hn. Qed.

Lemma call_statement_is_call_expression_witness :
  StatToTac Sample.GetSize
    (StatCall (Sample.tok 1) (Sample.tok 1) Sample.h
       [Designator (Sample.tok 1) Sample.i;
        Constant (Sample.tok 1) (Some TInt) 7])
    Sample.lfalse Sample.cb =
  (ToTac Sample.GetSize
     (FunctionCall (Sample.tok 1) Sample.h
        [Designator (Sample.tok 1) Sample.i;
         Constant (Sample.tok 1) (Some TInt) 7]) ;;;
   AddInstr (goto Sample.lfalse) ;;;
   ret None) Sample.cb.
Proof.
  apply (call_statement_is_call_expression Sample.GetSize
           (Sample.tok 1) (Sample.tok 1) Sample.h
           [Designator (Sample.tok 1) Sample.i;
            Constant (Sample.tok 1) (Some TInt) 7]
           Sample.lfalse Sample.cb).
  vm_compute; reflexivity.
Defined.

(** X24: the type of an array designator whose symbol is an array, or a
    pointer to one, with at most as many indices as the array has
    dimensions, is the array type less one dimension for each index; the
    loop over the indices never comes upon a type that is no array.  With
    more indices, or on a symbol that is no array, the type is null. *)
Theorem array_designator_type (t : CToken) (symbol : CSymbol)
        (idx : list CAstExpression) (arr : CType) :
  indexed_array symbol = Some arr ->
  GetType (ArrayDesignator t symbol idx) =
    Some (if IsArray arr && (List.length idx <=? GetNDim arr)%nat
          then Some (strip (List.length idx) arr)
          else None).
Proof.
  intros Ha.
  destruct (ArrayDesignator_GetType_spec t symbol idx arr Ha)
    as (Hn & Hover & Hin).
  destruct (IsArray arr); simpl; [|apply Hn; reflexivity].
  destruct (Nat.leb_spec (List.length idx) (GetNDim arr)) as [Hle | Hlt].
  - apply (Hin eq_refl Hle).
  - apply (Hover eq_refl Hlt).
Qed.

Lemma array_designator_type_witness :
  GetType (ArrayDesignator (Sample.tok 1) Sample.a
                           [Designator (Sample.tok 1) Sample.i]) =
    Some (if IsArray (TArray 3 (TArray 4 TInt)) &&
             (List.length [Designator (Sample.tok 1) Sample.i] <=?
              GetNDim (TArray 3 (TArray 4 TInt)))%nat
          then Some (strip (List.length [Designator (Sample.tok 1) Sample.i])
                           (TArray 3 (TArray 4 TInt)))
          else None).
Proof.
  apply (array_designator_type (Sample.tok 1) Sample.a
           [Designator (Sample.tok 1) Sample.i] (TArray 3 (TArray 4 TInt))).
  vm_compute; reflexivity.
Defined.

(** X25: the type check of an expression returns from every call, and the
    type of an expression that passed is computed without abort, provided
    the symbol of each array designator in it has a type to index (it is
    no pointer without a base type): the checker reads the type of a child
    only after the child passed. *)
Theorem expression_check_returns (e : CAstExpression) :
  designators_typed e = true ->
  (forall d, exists b d', TypeCheck e d = Some (b, d')) /\
  (accepts (TypeCheck e) -> exists ty, GetType e = Some ty).
Proof.
  intros Hok. destruct (TypeCheck_answers e Hok) as [Ha Ht].
  split; [exact Ha|]. intros Hacc. specialize (Ht Hacc).
  destruct (GetType e) as [ty|]; [exists ty; reflexivity | congruence].
Qed.

Lemma expression_check_returns_witness :
  (forall d, exists b d',
      TypeCheck (BinaryOp (Sample.tok 1) opAdd
                   (SpecialOp (Sample.tok 1) opDeref
                              (Designator (Sample.tok 1) Sample.i) None)
                   (ArrayDesignator (Sample.tok 1) Sample.a
                                    [Designator (Sample.tok 1) Sample.j]))
                d = Some (b, d')) /\
  (accepts
     (TypeCheck (BinaryOp (Sample.tok 1) opAdd
                   (SpecialOp (Sample.tok 1) opDeref
                              (Designator (Sample.tok 1) Sample.i) None)
                   (ArrayDesignator (Sample.tok 1) Sample.a
                                    [Designator (Sample.tok 1) Sample.j]))) ->
   exists ty,
     GetType (BinaryOp (Sample.tok 1) opAdd
                (SpecialOp (Sample.tok 1) opDeref
                           (Designator (Sample.tok 1) Sample.i) None)
                (ArrayDesignator (Sample.tok 1) Sample.a
                                 [Designator (Sample.tok 1) Sample.j])) =
       Some ty).
Proof.
  apply (expression_check_returns
           (BinaryOp (Sample.tok 1) opAdd
              (SpecialOp (Sample.tok 1) opDeref
                         (Designator (Sample.tok 1) Sample.i) None)
              (ArrayDesignator (Sample.tok 1) Sample.a
                               [Designator (Sample.tok 1) Sample.j]))).
  vm_compute; reflexivity.
Defined.

(** X26: the type check of a statement returns from every call, provided
    the symbol of each array designator in it has a type to index. *)
Theorem statement_check_returns (s : CAstStatement) :
  stat_designators_typed s = true ->
  forall d, exists b d', StatTypeCheck s d = Some (b, d').
Proof. apply StatTypeCheck_answers. Qed.

Lemma statement_check_returns_witness :
  exists b d',
    StatTypeCheck
      (StatIf (Sample.tok 1)
         (BinaryOp (Sample.tok 1) opLessThan
            (ArrayDesignator (Sample.tok 1) Sample.a
                             [Designator (Sample.tok 1) Sample.i])
            (Constant (Sample.tok 1) (Some TInt) 0))
         [StatReturn (Sample.tok 2) (InProcedure Sample.f)
                     (Some (Designator (Sample.tok 2) Sample.b))]
         [StatCall (Sample.tok 3) (Sample.tok 3) Sample.p []])
      Sample.diag = Some (b, d').
Proof.
  refine (statement_check_returns
           (StatIf (Sample.tok 1)
              (BinaryOp (Sample.tok 1) opLessThan
                 (ArrayDesignator (Sample.tok 1) Sample.a
                                  [Designator (Sample.tok 1) Sample.i])
                 (Constant (Sample.tok 1) (Some TInt) 0))
              [StatReturn (Sample.tok 2) (InProcedure Sample.f)
                          (Some (Designator (Sample.tok 2) Sample.b))]
              [StatCall (Sample.tok 3) (Sample.tok 3) Sample.p []])
           _ Sample.diag).
  vm_compute; reflexivity.
Defined.

(** X27: the type check of a scope returns from every call, provided the
    symbol of each array designator in it and in its nested scopes has a
    type to index. *)
Theorem scope_check_returns (sc : CAstScope) :
  scope_designators_typed sc = true ->
  forall d, exists b d', ScopeTypeCheck sc d = Some (b, d').
Proof. apply ScopeTypeCheck_answers. Qed.

Lemma scope_check_returns_witness :
  exists b d',
    ScopeTypeCheck
      (Scope (Sample.tok 1) "m"
         [StatAssign (Sample.tok 2)
            (ArrayDesignator (Sample.tok 2) Sample.a
               [Designator (Sample.tok 2) Sample.i;
                Designator (Sample.tok 2) Sample.j])
            (Constant (Sample.tok 2) (Some TInt) 0)]
         [Scope (Sample.tok 3) "q"
            [StatReturn (Sample.tok 3) (InProcedure Sample.f) None] []])
      Sample.diag = Some (b, d').
Proof.
  refine (scope_check_returns
           (Scope (Sample.tok 1) "m"
              [StatAssign (Sample.tok 2)
                 (ArrayDesignator (Sample.tok 2) Sample.a
                    [Designator (Sample.tok 2) Sample.i;
                     Designator (Sample.tok 2) Sample.j])
                 (Constant (Sample.tok 2) (Some TInt) 0)]
              [Scope (Sample.tok 3) "q"
                 [StatReturn (Sample.tok 3) (InProcedure Sample.f) None]
                 []])
           _ Sample.diag).
  vm_compute; reflexivity.
Defined.

(** X28: when the type check of an expression answers [true], either it
    left the token and the message as they were, or it wrote a message that
    is not empty (the failure of a negated constant that it then ignored)
    and writes the same one on every call. *)
Theorem expression_success_diagnostic (e : CAstExpression) (d d' : Diag) :
  TypeCheck e d = Some (true, d') ->
  (d' = d /\ forall d0, TypeCheck e d0 = Some (true, d0)) \/
  (d_msg d' <> [] /\ forall d0, TypeCheck e d0 = Some (true, d')).
Proof.
  intros H.
  destruct (TypeCheck_fixed e) as [Hf | [Hf | (b & d1 & Hn & Hf)]].
  - rewrite Hf in H. discriminate.
  - left. rewrite Hf in H. inversion H; subst. split; [reflexivity|exact Hf].
  - right. rewrite Hf in H. inversion H; subst. split; [exact Hn|exact Hf].
Qed.

Lemma expression_success_diagnostic_witness :
  exists d',
    TypeCheck (BinaryOp (Sample.tok 1) opAdd
                 (Designator (Sample.tok 2) Sample.i)
                 (UnaryOp (Sample.tok 3) opNeg
                    (Constant (Sample.tok 4) (Some TInt) 2147483648)))
              Sample.diag = Some (true, d') /\
    ((d' = Sample.diag /\
      forall d0,
        TypeCheck (BinaryOp (Sample.tok 1) opAdd
                     (Designator (Sample.tok 2) Sample.i)
                     (UnaryOp (Sample.tok 3) opNeg
                        (Constant (Sample.tok 4) (Some TInt) 2147483648)))
                  d0 = Some (true, d0)) \/
     (d_msg d' <> [] /\
      forall d0,
        TypeCheck (BinaryOp (Sample.tok 1) opAdd
                     (Designator (Sample.tok 2) Sample.i)
                     (UnaryOp (Sample.tok 3) opNeg
                        (Constant (Sample.tok 4) (Some TInt) 2147483648)))
                  d0 = Some (true, d'))).
Proof.
  eexists _. split; [vm_compute; reflexivity|].
  apply (expression_success_diagnostic
           (BinaryOp (Sample.tok 1) opAdd
              (Designator (Sample.tok 2) Sample.i)
              (UnaryOp (Sample.tok 3) opNeg
                 (Constant (Sample.tok 4) (Some TInt) 2147483648)))
           Sample.diag _).
  vm_compute; reflexivity.
Defined.

(** X29: the code of a [while] statement is the label [while_cond], the
    condition form of the condition with the targets [while_body] and
    [next], the label [while_body], the code of the chain of the body, the
    jump back to [while_cond] and a last jump to [next]; the two labels are
    the next two of the code block. *)
Theorem while_statement_layout (GetSize : CType -> Z) (t : CToken)
        (cond : CAstExpression) (body : list CAstStatement)
        (next : CTacLabel) (cb cb' : CCodeBlock) (a : option CTacAddr) :
  StatToTac GetSize (StatWhile t cond body) next cb = Some (a, cb') ->
  let lcond := mkLabel (cb_label cb) "while_cond" in
  let lbody := mkLabel (S (cb_label cb)) "while_body" in
  exists ccode bcode cb0 r cb1 cb2 cb3,
    cb_ops cb0 = cb_ops cb ++ [Label lcond] /\
    ToTacCond GetSize cond lbody next cb0 = Some (r, cb1) /\
    cb_ops cb1 = cb_ops cb0 ++ ccode /\
    cb_ops cb2 = cb_ops cb1 ++ [Label lbody] /\
    lower_chain (map (StatToTac GetSize) body) cb2 = Some (tt, cb3) /\
    cb_ops cb3 = cb_ops cb2 ++ bcode /\
    cb_ops cb' =
      cb_ops cb ++
      Label lcond :: ccode ++ Label lbody :: bcode ++ [goto lcond; goto next].
Proof.
  cbn [StatToTac]. unfold CAstStatWhile.ToTac. intros H.
  apply bind_Some in H as (lcond & c1 & H1 & H).
  inversion H1; subst; clear H1.
  apply bind_Some in H as (lbody & c2 & H2 & H).
  inversion H2; subst; clear H2.
  apply bind_Some in H as (u1 & c3 & H3 & H).
  inversion H3; subst; clear H3.
  apply bind_Some in H as (r & c4 & Hc & H).
  apply bind_Some in H as (u2 & c5 & H5 & H).
  inversion H5; subst; clear H5.
  apply bind_Some in H as ([] & c6 & Hb & H).
  apply bind_Some in H as (u3 & c7 & H7 & H).
  inversion H7; subst; clear H7.
  apply bind_Some in H as (u4 & c8 & H8 & H).
  inversion H8; subst; clear H8.
  inversion H; subst; clear H.
  destruct (appends_closed _ _ (proj2 (ToTac_closed_child GetSize cond) _ _)
                           _ _ _ Hc) as [ccode Ec].
  destruct (appends_closed [] _
              (lower_chain_closed _ [] (StatToTacs_closed GetSize body))
              _ _ _ Hb) as [bcode Eb].
  simpl in Ec, Eb |- *.
  eexists ccode, bcode, _, r, c4, _, c6.
  split; [|split; [exact Hc|split; [exact Ec|split; [|split; [exact Hb|
    split; [exact Eb|]]]]]]; simpl; try reflexivity.
  rewrite Eb. simpl. rewrite Ec. simpl.
  repeat (rewrite <- app_assoc; simpl). reflexivity.
Qed.

Lemma while_statement_layout_witness :
  exists a cb' ccode bcode,
    StatToTac Sample.GetSize
      (StatWhile (Sample.tok 1) (Designator (Sample.tok 1) Sample.b)
         [StatAssign (Sample.tok 2) (Designator (Sample.tok 2) Sample.i)
                     (Constant (Sample.tok 2) (Some TInt) 0)])
      Sample.lfalse Sample.cb = Some (a, cb') /\
    cb_ops cb' =
      cb_ops Sample.cb ++
      Label (mkLabel 2 "while_cond") :: ccode ++
      Label (mkLabel 3 "while_body") :: bcode ++
      [goto (mkLabel 2 "while_cond"); goto Sample.lfalse].
Proof.
  destruct (StatToTac Sample.GetSize
              (StatWhile (Sample.tok 1) (Designator (Sample.tok 1) Sample.b)
                 [StatAssign (Sample.tok 2)
                             (Designator (Sample.tok 2) Sample.i)
                             (Constant (Sample.tok 2) (Some TInt) 0)])
              Sample.lfalse Sample.cb) as [[a cb']|] eqn:E;
    [|vm_compute in E; discriminate E].
  destruct (while_statement_layout Sample.GetSize (Sample.tok 1)
              (Designator (Sample.tok 1) Sample.b)
              [StatAssign (Sample.tok 2) (Designator (Sample.tok 2) Sample.i)
                          (Constant (Sample.tok 2) (Some TInt) 0)]
              Sample.lfalse Sample.cb cb' a E)
    as (ccode & bcode & _ & _ & _ & _ & _ & _ & _ & _ & _ & _ & _ & H).
  exists a, cb', ccode, bcode. split; [reflexivity | exact H].
Defined.

(** X30: the code of an [if] statement is the condition form of the
    condition with the targets [if_true] and [if_false], the label
    [if_true], the code of the chain of the if-body, a jump to [next], the
    label [if_false], the code of the chain of the else-body and a jump to
    [next]; the two labels are the next two of the code block. *)
Theorem if_statement_layout (GetSize : CType -> Z) (t : CToken)
        (cond : CAstExpression) (ifBody elseBody : list CAstStatement)
        (next : CTacLabel) (cb cb' : CCodeBlock) (a : option CTacAddr) :
  StatToTac GetSize (StatIf t cond ifBody elseBody) next cb =
    Some (a, cb') ->
  let ltrue := mkLabel (cb_label cb) "if_true" in
  let lfalse := mkLabel (S (cb_label cb)) "if_false" in
  exists ccode icode ecode cb0 r cb1 cb2 cb3 cb4 cb5,
    cb_ops cb0 = cb_ops cb /\
    ToTacCond GetSize cond ltrue lfalse cb0 = Some (r, cb1) /\
    cb_ops cb1 = cb_ops cb0 ++ ccode /\
    cb_ops cb2 = cb_ops cb1 ++ [Label ltrue] /\
    lower_chain (map (StatToTac GetSize) ifBody) cb2 = Some (tt, cb3) /\
    cb_ops cb3 = cb_ops cb2 ++ icode /\
    cb_ops cb4 = cb_ops cb3 ++ [goto next; Label lfalse] /\
    lower_chain (map (StatToTac GetSize) elseBody) cb4 = Some (tt, cb5) /\
    cb_ops cb5 = cb_ops cb4 ++ ecode /\
    cb_ops cb' =
      cb_ops cb ++
      ccode ++ Label ltrue :: icode ++
      goto next :: Label lfalse :: ecode ++ [goto next].
Proof.
  cbn [StatToTac]. unfold CAstStatIf.ToTac. intros H.
  apply bind_Some in H as (ltrue & c1 & H1 & H).
  inversion H1; subst; clear H1.
  apply bind_Some in H as (lfalse & c2 & H2 & H).
  inversion H2; subst; clear H2.
  apply bind_Some in H as (r & c3 & Hc & H).
  apply bind_Some in H as (u1 & c4 & H4 & H).
  inversion H4; subst; clear H4.
  apply bind_Some in H as ([] & c5 & Hi & H).
  apply bind_Some in H as (u2 & c6 & H6 & H).
  inversion H6; subst; clear H6.
  apply bind_Some in H as (u3 & c7 & H7 & H).
  inversion H7; subst; clear H7.
  apply bind_Some in H as ([] & c8 & He & H).
  apply bind_Some in H as (u4 & c9 & H9 & H).
  inversion H9; subst; clear H9.
  inversion H; subst; clear H.
  destruct (appends_closed _ _ (proj2 (ToTac_closed_child GetSize cond) _ _)
                           _ _ _ Hc) as [ccode Ec].
  destruct (appends_closed [] _
              (lower_chain_closed _ [] (StatToTacs_closed GetSize ifBody))
              _ _ _ Hi) as [icode Ei].
  destruct (appends_closed [] _
              (lower_chain_closed _ [] (StatToTacs_closed GetSize elseBody))
              _ _ _ He) as [ecode Ee].
  simpl in Ec, Ei, Ee |- *.
  eexists ccode, icode, ecode, _, r, c3, _, c5, _, c8.
  split; [|split; [exact Hc|split; [exact Ec|split; [|split; [exact Hi|
    split; [exact Ei|split; [|split; [exact He|split; [exact Ee|]]]]]]]]];
    simpl; try reflexivity.
  - rewrite <- app_assoc. reflexivity.
  - rewrite Ee. simpl. rewrite Ei. simpl. rewrite Ec.
    repeat (rewrite <- app_assoc; simpl). reflexivity.
Qed.

Lemma if_statement_layout_witness :
  exists a cb' ccode icode ecode,
    StatToTac Sample.GetSize
      (StatIf (Sample.tok 1) (Designator (Sample.tok 1) Sample.b)
         [StatAssign (Sample.tok 2) (Designator (Sample.tok 2) Sample.i)
                     (Constant (Sample.tok 2) (Some TInt) 0)]
         [])
      Sample.lfalse Sample.cb = Some (a, cb') /\
    cb_ops cb' =
      cb_ops Sample.cb ++
      ccode ++ Label (mkLabel 2 "if_true") :: icode ++
      goto Sample.lfalse :: Label (mkLabel 3 "if_false") :: ecode ++
      [goto Sample.lfalse].
Proof.
  destruct (StatToTac Sample.GetSize
              (StatIf (Sample.tok 1) (Designator (Sample.tok 1) Sample.b)
                 [StatAssign (Sample.tok 2)
                             (Designator (Sample.tok 2) Sample.i)
                             (Constant (Sample.tok 2) (Some TInt) 0)]
                 [])
              Sample.lfalse Sample.cb) as [[a cb']|] eqn:E;
    [|vm_compute in E; discriminate E].
  destruct (if_statement_layout Sample.GetSize (Sample.tok 1)
              (Designator (Sample.tok 1) Sample.b)
              [StatAssign (Sample.tok 2) (Designator (Sample.tok 2) Sample.i)
                          (Constant (Sample.tok 2) (Some TInt) 0)]
              [] Sample.lfalse Sample.cb cb' a E)
    as (ccode & icode & ecode & _ & _ & _ & _ & _ & _ & _ & _ & _ & _ & _
        & _ & _ & _ & _ & _ & H).
  exists a, cb', ccode, icode, ecode. split; [reflexivity | exact H].
Defined.
